(** * The options page of AdGuard for Safari: [src/main/pages/js/options.js]

  A shallow embedding of the stateful parts of the options page and the
  properties of its specification that concern them:

  - [FiltersCache]: the [loadedFiltersInfo] object of [AntiBannerFilters]
    together with [setLastUpdatedTimeText];
  - [WhiteListFilter] and [UserFilter]: the counters by which the two
    editors skip the update that follows their own save;
  - [TopMenu]: the tab router [toggleTab], over a selector engine that is a
    parameter for all selectors but plain ids;
  - [CheckboxUtils]: the checkbox decoration [toggleCheckbox] and
    [updateCheckbox];
  - [ResetPopup]: the auto-hide timer of [PageController._onStatsReset];
  - [SettingsCheckbox], [Debounce] and [CustomFilterPopup]: the checkboxes of
    the settings, [Utils.debounce] and the steps of the popup for custom
    filters.

  JavaScript objects are shared by reference.  Wherever the code mutates an
  object that is reachable along several paths, the model has an explicit
  store and references into it. *)

From stdpp Require Import gmap strings list fin_maps functions.

(** ** JavaScript values and completions *)

Module Js.

(** The primitive values that occur in the fields the page reads. *)
Inductive value :=
| VUndefined
| VNull
| VBool (b : bool)
| VNum (n : Z)
| VStr (s : string).

(** [ToBoolean]: what [if (v)], [!v] and [v && _] look at. *)
Definition truthy (v : value) : bool :=
  match v with
  | VUndefined | VNull => false
  | VBool b => b
  | VNum n => negb (n =? 0)%Z
  | VStr s => negb (String.eqb s "")
  end.

Definition falsy (v : value) : bool := negb (truthy v).

(** A statement of the page either completes or throws.  The state in which
    it stops is kept in both cases: an exception does not undo the writes
    made before it. *)
Inductive error := TypeError | SyntaxError.

Inductive completion (A : Type) :=
| Normal (a : A)
| Throw (e : error) (a : A).
Arguments Normal {A} a.
Arguments Throw {A} e a.

Definition bind {A} (c : completion A) (k : A → completion A) : completion A :=
  match c with
  | Normal a => k a
  | Throw e a => Throw e a
  end.

Definition final {A} (c : completion A) : A :=
  match c with Normal a | Throw _ a => a end.

Definition completes {A} (c : completion A) : bool :=
  match c with Normal _ => true | Throw _ _ => false end.

(** Results of expressions: a value or an exception. *)
Inductive result (A : Type) :=
| Ret (a : A)
| Raise (e : error).
Arguments Ret {A} a.
Arguments Raise {A} e.

End Js.

Notation "c >>> k" := (Js.bind c k) (at level 61, left associativity).

(** ** The filter metadata cache: [loadedFiltersInfo] *)

Module Filter.

(** A filter record as received from the backend.  [filterId] and [groupId]
    are numbers; a timestamp that the record does not carry is [None]. *)
Record t := mk {
  filterId : Z;
  groupId : Z;
  enabled : Js.value;
  timeUpdated : option Z;
  lastUpdateTime : option Z
}.

Definition set_enabled (v : Js.value) (f : t) : t :=
  mk (filterId f) (groupId f) v (timeUpdated f) (lastUpdateTime f).

End Filter.

Module FiltersCache.
Import Js.

(** References to filter objects.  A JavaScript reference always designates
    an object, so the object store is a total function. *)
Definition ref := nat.

Record Category := mkCategory {
  cat_groupId : Z;
  otherFilters : list ref;
  recommendedFilters : list ref
}.

(** The state [loadedFiltersInfo] works on: the filter objects, the fields of
    [loadedFiltersInfo] itself, and the time shown in [#lastUpdateTime]
    ([None] for the empty text; the formatting done by [moment] is not
    modelled).

    The keys of [filtersById] are the filter ids; as property keys of numbers
    they never meet a property inherited by the initial [{}]. *)
Record t := mk {
  objects : ref → Filter.t;
  filters : list ref;
  categories : list Category;
  filtersById : gmap Z ref;
  lastUpdateTime : Z;
  lastUpdateTimeText : option Z
}.

Definition empty (objs : ref → Filter.t) : t :=
  mk objs [] [] ∅ 0 None.

(** [t && t > last], for a timestamp field that may be missing. *)
Definition newer (t : option Z) (last : Z) : bool :=
  match t with
  | Some v => negb (v =? 0)%Z && (last <? v)%Z
  | None => false
  end.

(** The body of the [for] loop of [initLoadedFilters]. *)
Definition init_step (objs : ref → Filter.t) (acc : gmap Z ref * Z) (r : ref)
  : gmap Z ref * Z :=
  let filter := objs r in
  (<[Filter.filterId filter := r]> (acc.1),
   if newer (Filter.lastUpdateTime filter) (acc.2)
   then default 0%Z (Filter.lastUpdateTime filter)
   else acc.2).

Definition initLoadedFilters (s : t) (fs : list ref) (cs : list Category) : t :=
  let acc := fold_left (init_step (objects s)) fs (∅, 0%Z) in
  mk (objects s) fs cs (acc.1) (acc.2) (lastUpdateTimeText s).

(** [info.enabled]: reading a property of [undefined] throws. *)
Definition get_enabled (s : t) (info : option ref) : result value :=
  match info with
  | Some r => Ret (Filter.enabled (objects s r))
  | None => Raise TypeError
  end.

(** [return info && info.enabled]: an object is truthy, [undefined] is not. *)
Definition isEnabled (s : t) (filterId : Z) : result value :=
  let info := filtersById s !! filterId in
  if bool_decide (is_Some info) then get_enabled s info else Ret VUndefined.

Definition updateEnabled (s : t) (filter : ref) (enabled : value) : t :=
  let fid := Filter.filterId (objects s filter) in
  match filtersById s !! fid with
  | Some info =>
      mk (<[info := Filter.set_enabled enabled (objects s info)]> (objects s))
         (filters s) (categories s) (filtersById s)
         (lastUpdateTime s) (lastUpdateTimeText s)
  | None =>
      mk (objects s) (filters s ++ [filter]) (categories s)
         (<[fid := filter]> (filtersById s))
         (lastUpdateTime s) (lastUpdateTimeText s)
  end.

Definition setLastUpdatedTimeText (s : t) (time : option Z) : t :=
  let last :=
    if newer time (lastUpdateTime s) then default 0%Z time
    else lastUpdateTime s in
  mk (objects s) (filters s) (categories s) (filtersById s) last
     (if negb (last =? 0)%Z then Some last else None).

(** The operations on the cache, and sequences of them. *)
Inductive op :=
| InitLoadedFilters (fs : list ref) (cs : list Category)
| UpdateEnabled (filter : ref) (enabled : value)
| SetLastUpdatedTimeText (time : option Z).

Definition step (s : t) (o : op) : t :=
  match o with
  | InitLoadedFilters fs cs => initLoadedFilters s fs cs
  | UpdateEnabled f e => updateEnabled s f e
  | SetLastUpdatedTimeText time => setLastUpdatedTimeText s time
  end.

Definition run (s : t) (ops : list op) : t := fold_left step ops s.

Definition is_init (o : op) : bool :=
  match o with InitLoadedFilters _ _ => true | _ => false end.

(** The id under which a reference is filed. *)
Definition id_of (s : t) (r : ref) : Z := Filter.filterId (objects s r).

(** The greatest [lastUpdateTime] among the filters, in the words of the
    specification: missing timestamps are left out, and the maximum of
    nothing is 0. *)
Definition max_time (objs : ref → Filter.t) (fs : list ref) : Z :=
  foldr Z.max 0%Z (omap (λ r, Filter.lastUpdateTime (objs r)) fs).

(** The same over the [timeUpdated] field. *)
Definition max_timeUpdated (objs : ref → Filter.t) (fs : list ref) : Z :=
  foldr Z.max 0%Z (omap (λ r, Filter.timeUpdated (objs r)) fs).

(** [filtersById] is consistent with [filters]. *)
Record consistent (s : t) : Prop := {
  index_keys : ∀ k,
    is_Some (filtersById s !! k) ↔ ∃ r, r ∈ filters s ∧ id_of s r = k;
  index_last : ∀ k r,
    filtersById s !! k = Some r →
    ∃ l1 l2, filters s = l1 ++ r :: l2 ∧ id_of s r = k
             ∧ Forall (λ r', id_of s r' ≠ k) l2;
  index_present : ∀ k r,
    filtersById s !! k = Some r → r ∈ filters s
}.

(** The last reference in a list filed under [k]. *)
Definition last_with_id (objs : ref → Filter.t) (k : Z) (l : list ref)
  : option ref :=
  list.last (filter (λ r, Filter.filterId (objs r) = k) l).

(** The index files every id under the last reference of the list that
    carries it. *)
Definition indexed_last (s : t) : Prop :=
  ∀ k, filtersById s !! k = last_with_id (objects s) k (filters s).

(** The objects of the scenarios of the specification. *)
Definition scenario_objects : ref → Filter.t :=
  λ r, match r with
       | 0 => Filter.mk 1 10 (VBool true) (Some 100%Z) None
       | 1 => Filter.mk 2 10 VUndefined None None
       | 2 => Filter.mk 3 10 (VBool true) (Some 100%Z) (Some 100%Z)
       | _ => Filter.mk 0 0 (VBool false) None None
       end.

(** [getFiltersByGroupId(groupId, filters)]. *)
Definition getFiltersByGroupId (s : t) (groupId : Z) (fs : list ref) : list ref :=
  filter (λ r, Filter.groupId (objects s r) = groupId) fs.

(** The loop of [countEnabledFilters], from a given count on. *)
Fixpoint count_enabled_from (s : t) (fs : list ref) (count : nat) : result nat :=
  match fs with
  | [] => Ret count
  | r :: fs' =>
      match isEnabled s (id_of s r) with
      | Ret v => count_enabled_from s fs' (if truthy v then S count else count)
      | Raise e => Raise e
      end
  end.

Definition countEnabledFilters (s : t) (fs : list ref) : result nat :=
  count_enabled_from s fs 0.

(** Lines 465 and 466 of [updateCategoryFiltersInfo]: the number shown for a
    category. *)
Definition enabledFiltersCount (s : t) (groupId : Z) : result nat :=
  countEnabledFilters s (getFiltersByGroupId s groupId (filters s)).

(** What [onFilterStateChanged] does to the cache (line 857). *)
Definition onFilterStateChanged (s : t) (filter : ref) : t :=
  updateEnabled s filter (Filter.enabled (objects s filter)).

(** What the handler of [getFiltersMetadataResponse] does to the cache
    (lines 670 and 671). *)
Definition onFiltersMetadata (s : t) (fs : list ref) (cs : list Category) : t :=
  let s := initLoadedFilters s fs cs in
  setLastUpdatedTimeText s (Some (lastUpdateTime s)).

(** What [onFilterDownloadFinished] does to the cache (line 871). *)
Definition onFilterDownloadFinished (s : t) (filter : ref) : t :=
  setLastUpdatedTimeText s (Filter.lastUpdateTime (objects s filter)).

(** The flag [isEnabled] finds for the id of a record is truthy. *)
Definition counted (s : t) (r : ref) : bool :=
  match filtersById s !! id_of s r with
  | Some r' => truthy (Filter.enabled (objects s r'))
  | None => false
  end.

(** The filters of a list whose own [enabled] flag is truthy. *)
Definition enabled_records (s : t) (fs : list ref) : list ref :=
  filter (λ r, truthy (Filter.enabled (objects s r)) = true) fs.

End FiltersCache.

(** ** The editors: [WhiteListFilter] and [UserFilter]

  Both blocks keep a counter [omitRenderEventsCount] in their closure.  The
  bodies of [loadWhiteListDomains] and [loadUserRules] are still to be
  written in the source; the model counts their calls. *)

Module WhiteListFilter.

Record t := mk {
  omitRenderEventsCount : Z;
  readOnly : bool;
  loadCalls : nat
}.

(** The closure as the constructor leaves it. *)
Definition create : t := mk 0 false 0.

Definition loadWhiteListDomains (s : t) : t :=
  mk (omitRenderEventsCount s) (readOnly s) (S (loadCalls s)).

Definition saveWhiteListDomains (s : t) : t :=
  mk 1 true (loadCalls s).

Definition updateWhiteListDomains (s : t) : t :=
  if (0 <? omitRenderEventsCount s)%Z
  then mk (omitRenderEventsCount s - 1) (readOnly s) (loadCalls s)
  else loadWhiteListDomains s.

Inductive op := Save | Update.

Definition step (s : t) (o : op) : t :=
  match o with
  | Save => saveWhiteListDomains s
  | Update => updateWhiteListDomains s
  end.

Definition run (s : t) (ops : list op) : t := fold_left step ops s.

(** The updates of a sequence that load the editor: those that do not come
    directly after a save.  [after_save] tells whether the sequence itself
    comes directly after one. *)
Fixpoint loading_updates (after_save : bool) (ops : list op) : nat :=
  match ops with
  | [] => 0
  | Save :: ops' => loading_updates true ops'
  | Update :: ops' => (if after_save then 0 else 1) + loading_updates false ops'
  end.

End WhiteListFilter.

Module UserFilter.

Record t := mk {
  omitRenderEventsCount : Z;
  readOnly : bool;
  loadCalls : nat
}.

Definition create : t := mk 0 false 0.

Definition loadUserRules (s : t) : t :=
  mk (omitRenderEventsCount s) (readOnly s) (S (loadCalls s)).

Definition saveUserRules (s : t) : t :=
  mk 1 true (loadCalls s).

Definition updateUserFilterRules (s : t) : t :=
  if (0 <? omitRenderEventsCount s)%Z
  then mk (omitRenderEventsCount s - 1) (readOnly s) (loadCalls s)
  else loadUserRules s.

Inductive op := Save | Update.

Definition step (s : t) (o : op) : t :=
  match o with
  | Save => saveUserRules s
  | Update => updateUserFilterRules s
  end.

Definition run (s : t) (ops : list op) : t := fold_left step ops s.

(** The updates of a sequence that load the editor: those that do not come
    directly after a save.  [after_save] tells whether the sequence itself
    comes directly after one. *)
Fixpoint loading_updates (after_save : bool) (ops : list op) : nat :=
  match ops with
  | [] => 0
  | Save :: ops' => loading_updates true ops'
  | Update :: ops' => (if after_save then 0 else 1) + loading_updates false ops'
  end.

End UserFilter.

(** ** The tab router: [TopMenu] *)

Module TopMenu.
Import Js.

(** What [toggleTab] reads and writes of an element: its [id] and [data-tab]
    attributes, its class list and [style.display]. *)
Record Element := mkElement {
  id : option string;
  dataTab : option string;
  classList : list string;
  display : string
}.

(** The closure of [TopMenu] and the part of the page it works on: the
    elements of the document in tree order, the fragment of the location,
    [prevTabId] ([None] while it is [undefined]), whether
    [onHashUpdatedCallback] is a function, and the arguments of the calls
    made to that function so far. *)
Record t := mk {
  document : list Element;
  fragment : string;
  prevTabId : option string;
  onHashUpdatedCallback : bool;
  callbackCalls : list string
}.

Definition GENERAL_SETTINGS : string := "#general-settings".
Definition ANTIBANNER : string := "#antibanner".
Definition WHITELIST : string := "#whitelist".

(** The character ["#"]. *)
Definition number_sign : Ascii.ascii := Ascii.ascii_of_nat 35.

(** [document.location.hash]: empty for an empty fragment, and the fragment
    after a ["#"] otherwise. *)
Definition location_hash (s : t) : string :=
  if String.eqb (fragment s) "" then "" else String number_sign (fragment s).

(** [s.indexOf(sub)]. *)
Definition indexOf (s sub : string) : Z :=
  match String.index 0 sub s with
  | Some n => Z.of_nat n
  | None => (-1)%Z
  end.

(** An id selector [sel = "#" + name] on a document: the first element, in
    tree order, with that id.  This is what the selector means when [name]
    is a plain identifier (see [identifier] below) and the document is not in
    quirks mode. *)
Definition querySelector (sel : string) (d : list Element) : option nat :=
  match sel with
  | String c name =>
      if Ascii.eqb c number_sign
      then fst <$> list_find (λ e, id e = Some name) d
      else None
  | EmptyString => None
  end.

(** The attribute selector ['[data-tab="' + v + '"]'] for a [v] without
    quotes and escapes: the first element whose [data-tab] is [v]. *)
Definition querySelectorDataTab (v : string) (d : list Element) : option nat :=
  fst <$> list_find (λ e, dataTab e = Some v) d.

(** [document.querySelectorAll('[data-tab="' + v + '"]')], for such a [v]. *)
Definition querySelectorAllDataTab (v : string) (d : list Element) : list nat :=
  filter (λ n, (d !! n) ≫= dataTab = Some v) (seq 0 (length d)).

(** *** Selectors

    [toggleTab] hands the hash of the location to [document.querySelector]
    as it is, and the platform reads it as a CSS selector.  Three kinds of
    strings are told apart:
    - ["#" + name] with [name] a plain identifier (a letter or [_], then
      letters, digits, [-] and [_]) selects by id;
    - ["#" + name + "/" + digit + rest], with such a [name], is no selector:
      a solidus that does not open a comment cannot follow an id selector,
      and the platform throws a [SyntaxError];
    - what any other string selects is the platform's business: it is a
      parameter of the model, the [engine], which says for a string and a
      document whether an element is selected, none is, or an exception is
      thrown. *)

Definition solidus : Ascii.ascii := Ascii.ascii_of_nat 47.
Definition quotation_mark : Ascii.ascii := Ascii.ascii_of_nat 34.

Definition in_range (lo hi : nat) (c : Ascii.ascii) : bool :=
  (lo <=? Ascii.nat_of_ascii c) && (Ascii.nat_of_ascii c <=? hi).

Definition ident_start (c : Ascii.ascii) : bool :=
  in_range 65 90 c || in_range 97 122 c || in_range 95 95 c.

Definition digit (c : Ascii.ascii) : bool := in_range 48 57 c.

Definition ident_char (c : Ascii.ascii) : bool :=
  ident_start c || digit c || in_range 45 45 c.

Fixpoint ident_chars (s : string) : bool :=
  match s with
  | EmptyString => true
  | String c s' => ident_char c && ident_chars s'
  end.

Definition identifier (name : string) : bool :=
  match name with
  | EmptyString => false
  | String c rest => ident_start c && ident_chars rest
  end.

(** The parts of [s] before and after its first solidus, when it has one. *)
Fixpoint split_solidus (s : string) : option (string * string) :=
  match s with
  | EmptyString => None
  | String c s' =>
      if Ascii.eqb c solidus then Some (EmptyString, s')
      else (λ p, (String c p.1, p.2)) <$> split_solidus s'
  end.

Inductive shape := Plain | Malformed | Foreign.

Definition classify (sel : string) : shape :=
  match sel with
  | String c name =>
      if Ascii.eqb c number_sign then
        if identifier name then Plain
        else match split_solidus name with
             | Some (name', String c' _) =>
                 if identifier name' && digit c' then Malformed else Foreign
             | _ => Foreign
             end
      else Foreign
  | EmptyString => Foreign
  end.

Definition is_plain (sel : string) : bool :=
  match classify sel with Plain => true | _ => false end.

Definition engine : Type := string → list Element → result (option nat).

(** [document.querySelector(sel)]. *)
Definition document_querySelector (css : engine) (sel : string)
    (d : list Element) : result (option nat) :=
  match classify sel with
  | Plain => Ret (querySelector sel d)
  | Malformed => Raise SyntaxError
  | Foreign => css sel d
  end.

(** The string ['[data-tab="' + v + '"]']. *)
Definition data_tab_selector (v : string) : string :=
  "[data-tab=" ++ String quotation_mark (v ++ String quotation_mark "]").

(** [document.querySelector('[data-tab="' + v + '"]')]: for a plain [v] the
    string between the quotes is [v] itself. *)
Definition document_querySelectorDataTab (css : engine) (v : string)
    (d : list Element) : result (option nat) :=
  if is_plain v then Ret (querySelectorDataTab v d)
  else css (data_tab_selector v) d.

Definition classList_add (c : string) (e : Element) : Element :=
  mkElement (id e) (dataTab e)
    (if bool_decide (c ∈ classList e) then classList e else classList e ++ [c])
    (display e).

Definition classList_remove (c : string) (e : Element) : Element :=
  mkElement (id e) (dataTab e) (filter (λ c', c' ≠ c) (classList e)) (display e).

Definition set_display (v : string) (e : Element) : Element :=
  mkElement (id e) (dataTab e) (classList e) v.

Definition with_document (s : t) (d : list Element) : t :=
  mk d (fragment s) (prevTabId s) (onHashUpdatedCallback s) (callbackCalls s).

(** [o.classList.add(c)] and the like on [o], which is [null] when a query
    has matched nothing. *)
Definition on_element (target : option nat) (f : Element → Element) (s : t)
  : completion t :=
  match target with
  | Some n => Normal (with_document s (alter f n (document s)))
  | None => Throw TypeError s
  end.

(** The same on the outcome of a query, which may have thrown. *)
Definition on_query (r : result (option nat)) (f : Element → Element) (s : t)
  : completion t :=
  match r with
  | Ret target => on_element target f s
  | Raise e => Throw e s
  end.

(** [nodes.forEach(el => ...)]. *)
Definition for_each (nodes : list nat) (f : Element → Element) (s : t) : t :=
  with_document s (foldl (λ d n, alter f n d) (document s) nodes).

Definition is_antibanner (tabId : string) : bool :=
  (indexOf tabId ANTIBANNER =? 0)%Z.

(** Lines 144 to 155: the tab id and the panel [toggleTab] settles on,
    [None] when it returns at once because the filters panel asked for is
    not rendered yet, or the exception of a query. *)
Definition resolve (css : engine) (s : t)
  : result (option (string * option nat)) :=
  let tabId :=
    if String.eqb (location_hash s) "" then GENERAL_SETTINGS
    else location_hash s in
  match document_querySelector css tabId (document s) with
  | Raise e => Raise e
  | Ret tab =>
      if is_antibanner tabId && bool_decide (tab = None) then Ret None
      else if bool_decide (tab = None)
           then match document_querySelector css GENERAL_SETTINGS (document s) with
                | Raise e => Raise e
                | Ret tab' => Ret (Some (GENERAL_SETTINGS, tab'))
                end
           else Ret (Some (tabId, tab))
  end.

(** Lines 159 to 169. *)
Definition leave_previous (css : engine) (antibannerTabs : list nat) (s : t)
  : completion t :=
  match prevTabId s with
  | Some prev =>
      if String.eqb prev "" then Normal s
      else
        (if is_antibanner prev
         then Normal (for_each antibannerTabs (classList_remove "active") s)
         else on_query (document_querySelectorDataTab css prev (document s))
                (classList_remove "active") s)
        >>> λ s, on_query (document_querySelector css prev (document s))
                   (set_display "none") s
  | None => Normal s
  end.

(** Lines 171 to 177. *)
Definition enter (css : engine) (antibannerTabs : list nat) (tabId : string)
    (s : t) : completion t :=
  if is_antibanner tabId
  then Normal (for_each antibannerTabs (classList_add "active") s)
  else on_query (document_querySelectorDataTab css tabId (document s))
         (classList_add "active") s.

(** Lines 181 to 187. *)
Definition notify (tabId : string) (s : t) : t :=
  let calls :=
    if String.eqb tabId WHITELIST && onHashUpdatedCallback s
    then callbackCalls s ++ [tabId]
    else callbackCalls s in
  mk (document s) (fragment s) (Some tabId) (onHashUpdatedCallback s) calls.

Definition toggleTab (css : engine) (s : t) : completion t :=
  match resolve css s with
  | Raise e => Throw e s
  | Ret None => Normal s
  | Ret (Some (tabId, tab)) =>
      let antibannerTabs := querySelectorAllDataTab ANTIBANNER (document s) in
      leave_previous css antibannerTabs s
      >>> enter css antibannerTabs tabId
      >>> on_element tab (set_display "block")
      >>> λ s, Normal (notify tabId s)
  end.

(** The tab id [toggleTab] settles on. *)
Definition resolved_tab (css : engine) (s : t) : option string :=
  match resolve css s with
  | Ret (Some (tabId, _)) => Some tabId
  | Ret None | Raise _ => None
  end.

(** The variables of the closure, which only [notify] writes. *)
Definition closure (s : t) : string * option string * bool * list string :=
  (fragment s, prevTabId s, onHashUpdatedCallback s, callbackCalls s).

(** A change of an element that leaves its [id] and [data-tab] alone. *)
Definition keeps_attributes (f : Element → Element) : Prop :=
  ∀ e, id (f e) = id e ∧ dataTab (f e) = dataTab e.

(** The display of the element at [n]. *)
Definition display_of (s : t) (n : nat) : option string :=
  display <$> document s !! n.

(** A page for the scenarios: the three panels and their menu entries. *)
Definition scenario_document : list Element :=
  [ mkElement None (Some "#general-settings") ["active"] "";
    mkElement None (Some "#antibanner") [] "";
    mkElement None (Some "#whitelist") [] "";
    mkElement (Some "general-settings") None [] "block";
    mkElement (Some "antibanner") None [] "none";
    mkElement (Some "whitelist") None [] "none" ].

(** An engine for the scenarios: it knows no selectors but the plain ones,
    which are not its business. *)
Definition strict_engine : engine := λ _ _, Raise SyntaxError.

(** [document.location.hash = v], as far as the fragment goes. *)
Definition set_fragment (f : string) (s : t) : t :=
  mk (document s) f (prevTabId s) (onHashUpdatedCallback s) (callbackCalls s).

(** The hash changes to the given fragments one after the other, and
    [toggleTab] runs after each change; an exception ends the sequence. *)
Fixpoint navigate (css : engine) (fragments : list string) (s : t)
  : completion t :=
  match fragments with
  | [] => Normal s
  | f :: fragments' =>
      toggleTab css (set_fragment f s) >>> navigate css fragments'
  end.

(** A document after some changes that leave ids and [data-tab] alone. *)
Inductive restyled : list Element → list Element → Prop :=
| restyled_refl d : restyled d d
| restyled_alter d d' f n :
    restyled d d' → keeps_attributes f → restyled d (alter f n d').

(** The selector [sel] selects the element [n] of the document, whatever
    the classes and displays of its elements are. *)
Definition selects (css : engine) (sel : string) (d : list Element) (n : nat)
  : Prop :=
  is_Some (d !! n)
  ∧ ∀ d', restyled d d' → document_querySelector css sel d' = Ret (Some n).

(** The fragments that give a hash with a plain id, or none. *)
Definition plain_fragment (f : string) : bool :=
  String.eqb f "" || identifier f.

(** The elements that are shown: those with [display: block]. *)
Definition shown (s : t) (n : nat) : Prop := display_of s n = Some "block".

(** Nothing is shown but the panel of the current tab, whose id is plain. *)
Definition one_panel (s : t) : Prop :=
  ∀ n, shown s n →
       ∃ tab, prevTabId s = Some tab ∧ is_plain tab = true
              ∧ querySelector tab (document s) = Some n.

(** The element at [n] has the class [c]. *)
Definition has_class (s : t) (n : nat) (c : string) : Prop :=
  ∃ e, document s !! n = Some e ∧ c ∈ classList e.

End TopMenu.

(** ** The checkbox decoration: [CheckboxUtils] *)

Module CheckboxUtils.
Import Js.

(** References to the nodes of the page: indices into the store below.  An
    index outside the store is treated like [null]. *)
Abbreviation node := nat (only parsing).

(** The listeners.  [TogglerClick] is the one of line 73, which inverts the
    checkbox and dispatches [change]; [CheckboxChange] is the one of line 81,
    which calls [onClicked]; [Other] stands for a listener attached by other
    code of the page. *)
Inductive listener :=
| TogglerClick (checkbox : node)
| CheckboxChange (checkbox el : node)
| Other (tag : nat).

#[global] Instance listener_eq_dec : EqDecision listener.
Proof. solve_decision. Defined.

Record Element := mkElement {
  tagName : string;
  attributes : gmap string string;
  classList : list string;
  display : string;
  checked : bool;
  parentNode : option node;
  childNodes : list node;
  listeners : list (string * listener)
}.

(** [document.createElement('div')] followed by [classList.add('toggler')]. *)
Definition toggler : Element :=
  mkElement "div" ∅ ["toggler"] "" false None [] [].

Definition classList_add (c : string) (e : Element) : Element :=
  mkElement (tagName e) (attributes e)
    (if bool_decide (c ∈ classList e) then classList e else classList e ++ [c])
    (display e) (checked e) (parentNode e) (childNodes e) (listeners e).

Definition classList_remove (c : string) (e : Element) : Element :=
  mkElement (tagName e) (attributes e) (filter (λ c', c' ≠ c) (classList e))
    (display e) (checked e) (parentNode e) (childNodes e) (listeners e).

Definition set_display (v : string) (e : Element) : Element :=
  mkElement (tagName e) (attributes e) (classList e) v (checked e)
    (parentNode e) (childNodes e) (listeners e).

Definition setAttribute (name v : string) (e : Element) : Element :=
  mkElement (tagName e) (<[name := v]> (attributes e)) (classList e) (display e)
    (checked e) (parentNode e) (childNodes e) (listeners e).

Definition addEventListener (type : string) (l : listener) (e : Element) : Element :=
  mkElement (tagName e) (attributes e) (classList e) (display e) (checked e)
    (parentNode e) (childNodes e) (listeners e ++ [(type, l)]).

Definition set_parentNode (p : option node) (e : Element) : Element :=
  mkElement (tagName e) (attributes e) (classList e) (display e) (checked e)
    p (childNodes e) (listeners e).

Definition set_childNodes (cs : list node) (e : Element) : Element :=
  mkElement (tagName e) (attributes e) (classList e) (display e) (checked e)
    (parentNode e) cs (listeners e).

(** [if (e.getAttribute(name))]: a missing attribute gives [null], and the
    empty string is falsy as well. *)
Definition attribute_truthy (name : string) (attrs : option (gmap string string))
  : bool :=
  match attrs ≫= (λ m, m !! name) with
  | Some v => negb (String.eqb v "")
  | None => false
  end.

(** The mark [toggleCheckbox] leaves on a checkbox. *)
Definition is_decorated (d : list Element) (checkbox : node) : bool :=
  attribute_truthy "toggleCheckbox" (attributes <$> d !! checkbox).

(** [n.nextSibling]. *)
Definition nextSibling (d : list Element) (n : node) : option node :=
  e ← d !! n;
  p ← parentNode e;
  pe ← d !! p;
  i ← fst <$> list_find (λ x, x = n) (childNodes pe);
  childNodes pe !! S i.

(** The children of a node after [insertBefore(new, ref)]; with [ref] being
    [null] the new node goes to the end. *)
Definition insert_before (new : node) (ref : option node) (children : list node)
  : list node :=
  match ref with
  | None => children ++ [new]
  | Some r =>
      match list_find (λ x, x = r) children with
      | Some (i, _) => take i children ++ new :: drop i children
      | None => children
      end
  end.

Definition insertBefore (p new : node) (ref : option node) (d : list Element)
  : list Element :=
  alter (set_parentNode (Some p)) new
    (alter (λ pe, set_childNodes (insert_before new ref (childNodes pe)) pe) p d).

(** [n.closest(tag)]: the node itself or its nearest ancestor with that tag.
    The chain of parents of a node is no longer than the store. *)
Fixpoint closest_from (fuel : nat) (tag : string) (d : list Element) (n : node)
  : option node :=
  match fuel with
  | 0 => None
  | S fuel' =>
      match d !! n with
      | None => None
      | Some e =>
          if String.eqb (tagName e) tag then Some n
          else match parentNode e with
               | Some p => closest_from fuel' tag d p
               | None => None
               end
      end
  end.

Definition closest (tag : string) (d : list Element) (n : node) : option node :=
  closest_from (length d) tag d n.

(** Lines 85 to 93. *)
Definition onClicked (el : node) (checked : bool) (d : list Element)
  : completion (list Element) :=
  let change :=
    if checked then classList_add "active" else classList_remove "active" in
  let d := alter change el d in
  match closest "li" d el with
  | Some li => Normal (alter change li d)
  | None => Throw TypeError d
  end.

(** Lines 64 to 98: the body of the [forEach]. *)
Definition decorate (checkbox : node) (d : list Element)
  : completion (list Element) :=
  match d !! checkbox with
  | None => Throw TypeError d
  | Some cb =>
      if attribute_truthy "toggleCheckbox" (Some (attributes cb)) then Normal d
      else
        let el := length d in
        let d := d ++ [toggler] in
        match parentNode cb with
        | None => Throw TypeError d
        | Some p =>
            let d := insertBefore p el (nextSibling d checkbox) d in
            let d := alter (addEventListener "click" (TogglerClick checkbox)) el d in
            let d := alter (addEventListener "change" (CheckboxChange checkbox el))
                       checkbox d in
            let d := alter (set_display "none") checkbox d in
            onClicked el (checked cb) d
            >>> λ d, Normal (alter (setAttribute "toggleCheckbox" "true") checkbox d)
        end
  end.

(** [Array.prototype.forEach.call(elements, ...)]. *)
Fixpoint toggleCheckbox (elements : list node) (d : list Element)
  : completion (list Element) :=
  match elements with
  | [] => Normal d
  | checkbox :: elements' => decorate checkbox d >>> toggleCheckbox elements'
  end.

(** The click listeners in the store that belong to the toggler of a
    checkbox. *)
Definition toggler_clicks (checkbox : node) (e : Element) : nat :=
  length (filter (λ l, l = ("click", TogglerClick checkbox)) (listeners e)).

Definition click_listeners (d : list Element) (checkbox : node) : nat :=
  sum_list_with (toggler_clicks checkbox) d.

(** The steps of [decorate] other than the [click] listener and the final
    [setAttribute], as changes of single elements. *)
Inductive neutral : (Element → Element) → Prop :=
| neutral_add : neutral (classList_add "active")
| neutral_remove : neutral (classList_remove "active")
| neutral_display v : neutral (set_display v)
| neutral_parent p : neutral (set_parentNode p)
| neutral_children h : neutral (λ e, set_childNodes (h (childNodes e)) e)
| neutral_change ck el : neutral (addEventListener "change" (CheckboxChange ck el)).

(** The elements that are the toggler of a checkbox: they have the class
    [toggler] and a click listener for the checkbox. *)
Definition is_toggler_of (checkbox : node) (e : Element) : nat :=
  if bool_decide ("toggler" ∈ classList e ∧ 0 < toggler_clicks checkbox e)
  then 1 else 0.

Definition toggler_elements (d : list Element) (checkbox : node) : nat :=
  sum_list_with (is_toggler_of checkbox) d.

(** A list with one checkbox in it: [ul > li > input]. *)
Definition scenario_page : list Element :=
  [ mkElement "ul" ∅ [] "" false None [1] [];
    mkElement "li" ∅ [] "" false (Some 0) [2] [];
    mkElement "input" {[ "type" := "checkbox" ]} [] "" true (Some 1) [] [] ].

(** The same page after [toggleCheckbox] has been called on the checkbox. *)
Definition scenario_page_decorated : list Element :=
  Eval vm_compute in final (toggleCheckbox [2; 2] scenario_page).

Definition removeAttribute (name : string) (e : Element) : Element :=
  mkElement (tagName e) (delete name (attributes e)) (classList e) (display e)
    (checked e) (parentNode e) (childNodes e) (listeners e).

(** The two changes [updateCheckbox] makes, to the element and to its [li].
    [setAttribute] and [removeAttribute] write the content attribute
    [checked]; the field [checked] of the record is the property, which
    [updateCheckbox] does not assign and which is kept apart from the
    attribute here. *)
Definition mark_checked (checked : value) : Element → Element :=
  if truthy checked then setAttribute "checked" "checked"
  else removeAttribute "checked".

Definition mark_active (checked : value) : Element → Element :=
  if truthy checked then classList_add "active" else classList_remove "active".

(** Lines 111 to 117: the body of the [forEach] of [updateCheckbox]. *)
Definition update_one (checked : value) (el : node) (d : list Element)
  : completion (list Element) :=
  match d !! el with
  | None => Throw TypeError d
  | Some _ =>
      let d := alter (mark_checked checked) el d in
      match closest "li" d el with
      | Some li => Normal (alter (mark_active checked) li d)
      | None => Throw TypeError d
      end
  end.

Fixpoint updateCheckbox (elements : list node) (checked : value)
    (d : list Element) : completion (list Element) :=
  match elements with
  | [] => Normal d
  | el :: elements' =>
      update_one checked el d >>> updateCheckbox elements' checked
  end.

(** The [checked] attribute of the element at [n]. *)
Definition checked_attribute (d : list Element) (n : node) : option string :=
  d !! n ≫= λ e, attributes e !! "checked".

(** The element at [n] has the class [c]. *)
Definition has_class (d : list Element) (n : node) (c : string) : Prop :=
  ∃ e, d !! n = Some e ∧ c ∈ classList e.

(** What [closest] looks at. *)
Definition skeleton (d : list Element) : list (string * option node) :=
  (λ e, (tagName e, parentNode e)) <$> d.

(** *** Clicks on the toggler: lines 73 to 83 *)

Definition set_checked (b : bool) (e : Element) : Element :=
  mkElement (tagName e) (attributes e) (classList e) (display e) b
    (parentNode e) (childNodes e) (listeners e).

(** Lines 81 to 83: the [change] listener of the checkbox. *)
Definition on_change (checkbox el : node) (d : list Element)
  : completion (list Element) :=
  match d !! checkbox with
  | None => Throw TypeError d
  | Some cb => onClicked el (checked cb) d
  end.

(** One listener called for a [change] event.  An exception thrown by a
    listener is reported by the platform and does not reach the code that
    dispatched the event: what the listener did before it is kept.  The
    listeners of other code of the page send messages to the main process and
    leave the elements as they are; the toggler's own listener is registered
    for [click] only. *)
Definition run_change_listener (d : list Element) (l : string * listener)
  : list Element :=
  if String.eqb l.1 "change" then
    match l.2 with
    | CheckboxChange checkbox el => final (on_change checkbox el d)
    | TogglerClick _ | Other _ => d
    end
  else d.

(** The path of a bubbling event: the target and its ancestors. *)
Fixpoint event_path (fuel : nat) (d : list Element) (n : node) : list node :=
  match fuel with
  | 0 => []
  | S fuel' =>
      match d !! n with
      | None => []
      | Some e =>
          n :: match parentNode e with
               | Some p => event_path fuel' d p
               | None => []
               end
      end
  end.

(** The listeners on the path, in the order in which a bubbling event
    reaches them. *)
Definition path_listeners (d : list Element) (target : node)
  : list (string * listener) :=
  n ← event_path (length d) d target;
  default [] (listeners <$> d !! n).

(** Lines 76 to 78: [initEvent('change', true, false)] makes the event
    bubble. *)
Definition dispatch_change (target : node) (d : list Element) : list Element :=
  foldl run_change_listener d (path_listeners d target).

(** Lines 73 to 79: the [click] listener of the toggler. *)
Definition on_toggler_click (checkbox : node) (d : list Element)
  : completion (list Element) :=
  match d !! checkbox with
  | None => Throw TypeError d
  | Some cb =>
      Normal (dispatch_change checkbox
                (alter (set_checked (negb (checked cb))) checkbox d))
  end.

(** A number of clicks on the toggler of a checkbox. *)
Fixpoint clicks (n : nat) (checkbox : node) (d : list Element)
  : completion (list Element) :=
  match n with
  | 0 => Normal d
  | S n' => on_toggler_click checkbox d >>> clicks n' checkbox
  end.

(** The checkbox has the [change] listener for the toggler [el], the [change]
    listeners of lines 81 to 83 that its events reach are all that one, and
    [li] is the list item around the toggler. *)
Definition wired (checkbox el li : node) (d : list Element) : Prop :=
  closest "li" d el = Some li
  ∧ (∃ cb, d !! checkbox = Some cb
           ∧ ("change", CheckboxChange checkbox el) ∈ listeners cb)
  ∧ ∀ c' el', ("change", CheckboxChange c' el') ∈ path_listeners d checkbox →
              c' = checkbox ∧ el' = el.

(** No element has a [change] listener of lines 81 to 83 yet. *)
Definition undecorated_page (d : list Element) : Prop :=
  ∀ e c' el', e ∈ d → ("change", CheckboxChange c' el') ∉ listeners e.

(** What the listeners of lines 73 to 83 leave as it is. *)
Definition frame (d : list Element)
  : list (string * option node * bool * list (string * listener)) :=
  (λ e, (tagName e, parentNode e, checked e, listeners e)) <$> d.

(** The element [n] has the class [active] exactly when [b] holds. *)
Definition mirrors (d : list Element) (n : node) (b : bool) : Prop :=
  ∃ x, d !! n = Some x ∧ ("active" ∈ classList x ↔ b = true).

End CheckboxUtils.

(** ** The reset popup: [PageController._onStatsReset]

    Timers are the platform's.  [setTimeout] hands out a fresh positive id
    and registers the callback to run once the delay has passed;
    [clearTimeout] removes the timer with the given id, if it is still
    pending.  Time is counted in milliseconds. *)

Module ResetPopup.

(** What a pending timer does when it fires: hide the popup (line 1376), or
    something else that other code of the page has scheduled. *)
Inductive action := HidePopup | OtherAction.

#[global] Instance action_eq_dec : EqDecision action.
Proof. solve_decision. Defined.

Record timer := mkTimer {
  timer_id : nat;
  due : nat;
  act : action
}.

(** The clock and the pending timers of the page, the display of
    [resetStatsPopup], and the field [closePopupTimeoutId] of the controller
    ([None] while it is [undefined]). *)
Record t := mk {
  now : nat;
  nextTimerId : nat;
  timers : list timer;
  display : string;
  closePopupTimeoutId : option nat
}.

Definition initial : t := mk 0 1 [] "none" None.

Definition setTimeout (a : action) (delay : nat) (s : t) : nat * t :=
  (nextTimerId s,
   mk (now s) (S (nextTimerId s))
      (timers s ++ [mkTimer (nextTimerId s) (now s + delay) a])
      (display s) (closePopupTimeoutId s)).

Definition clearTimeout (id : nat) (s : t) : t :=
  mk (now s) (nextTimerId s) (filter (λ tm, timer_id tm ≠ id) (timers s))
     (display s) (closePopupTimeoutId s).

Definition _onStatsReset (s : t) : t :=
  let s := mk (now s) (nextTimerId s) (timers s) "block" (closePopupTimeoutId s) in
  let s :=
    match closePopupTimeoutId s with
    | Some id => if negb (id =? 0) then clearTimeout id s else s
    | None => s
    end in
  let r := setTimeout HidePopup 4000 s in
  mk (now r.2) (nextTimerId r.2) (timers r.2) (display r.2) (Some r.1).

(** The callback of a timer. *)
Definition fire (s : t) (tm : timer) : t :=
  match act tm with
  | HidePopup =>
      mk (now s) (nextTimerId s) (timers s) "none" (closePopupTimeoutId s)
  | OtherAction => s
  end.

(** [dt] milliseconds pass, and the timers that are due by then fire. *)
Definition advance (dt : nat) (s : t) : t :=
  let now' := now s + dt in
  foldl fire
    (mk now' (nextTimerId s) (filter (λ tm, ¬ due tm ≤ now') (timers s))
        (display s) (closePopupTimeoutId s))
    (filter (λ tm, due tm ≤ now') (timers s)).

(** What happens on the page: the user resets the statistics, time passes, or
    other code schedules a timer. *)
Inductive event :=
| StatsReset
| Elapse (dt : nat)
| OtherTimeout (delay : nat).

Definition step (s : t) (e : event) : t :=
  match e with
  | StatsReset => _onStatsReset s
  | Elapse dt => advance dt s
  | OtherTimeout delay => (setTimeout OtherAction delay s).2
  end.

Definition run (s : t) (es : list event) : t := foldl step s es.

(** The pending timers that will hide the popup. *)
Definition hide_timers (s : t) : list timer :=
  filter (λ tm, act tm = HidePopup) (timers s).

(** At most one hide is pending, and it is the one [closePopupTimeoutId]
    names. *)
Definition one_hide (s : t) : Prop :=
  1 ≤ nextTimerId s
  ∧ (hide_timers s = []
     ∨ ∃ tm, hide_timers s = [tm] ∧ timer_id tm ≠ 0
             ∧ closePopupTimeoutId s = Some (timer_id tm)).

(** The popup is shown exactly while a hide is pending, and a pending hide is
    due within the next 4000 ms. *)
Definition shown_while_pending (s : t) : Prop :=
  (hide_timers s = [] ∧ display s ≠ "block")
  ∨ ∃ tm, hide_timers s = [tm] ∧ display s = "block"
          ∧ now s < due tm ≤ now s + 4000.

(** The ids of the pending timers have been handed out, and the id kept in
    [closePopupTimeoutId] is not the id of a timer of other code. *)
Definition own_timer_id (s : t) : Prop :=
  (∀ tm, tm ∈ timers s → timer_id tm < nextTimerId s)
  ∧ ∀ id, closePopupTimeoutId s = Some id →
          id < nextTimerId s
          ∧ ∀ tm, tm ∈ timers s → timer_id tm = id → act tm = HidePopup.

(** The pending timers of other code. *)
Definition other_timers (s : t) : list timer :=
  filter (λ tm, act tm = OtherAction) (timers s).

End ResetPopup.

(** ** The checkboxes of [Settings] *)

Module SettingsCheckbox.
Import Js CheckboxUtils.

(** The value a checkbox sends with [changeUserSetting] when the user has
    left it in the state [checked] (line 1123). *)
Definition sent_value (negate : bool) (checked : bool) : bool :=
  if negate then negb checked else checked.

(** [render], for the stored value of the setting: [negate] and [hidden] are
    the options of the checkbox, as [if] reads them. *)
Definition render (negate hidden : bool) (element : node) (stored : value)
    (d : list Element) : completion (list Element) :=
  if hidden then
    match closest "li" d element with
    | Some li => Normal (alter (set_display "none") li d)
    | None => Throw TypeError d
    end
  else
    updateCheckbox [element]
      (if negate then VBool (negb (truthy stored)) else stored) d.

End SettingsCheckbox.

(** ** Debouncing: [Utils.debounce]

    The function [debounce(func, wait)] returns keeps one variable,
    [timeout].  The model records the calls of [func] in [calls], with their
    arguments ([this] and [arguments] of the call that scheduled them).
    Timers are the platform's, as for the reset popup above; the ids it hands
    out are positive.  [timeout] is [None] while the variable is [undefined]
    or [null], for which [clearTimeout] does nothing. *)

Module Debounce.
Section debounce.
Variable A : Type.

(** What a pending timer does when it fires: [later] of line 24, with the
    arguments it has captured, or something that other code has scheduled. *)
Inductive callback := Later (args : A) | Foreign.

Record timer := mkTimer {
  timer_id : nat;
  due : nat;
  callback_of : callback
}.

Record t := mk {
  now : nat;
  nextTimerId : nat;
  timers : list timer;
  timeout : option nat;
  calls : list A
}.

Definition initial : t := mk 0 1 [] None [].

Definition setTimeout (cb : callback) (delay : nat) (s : t) : nat * t :=
  (nextTimerId s,
   mk (now s) (S (nextTimerId s))
      (timers s ++ [mkTimer (nextTimerId s) (now s + delay) cb])
      (timeout s) (calls s)).

Definition clearTimeout (id : option nat) (s : t) : t :=
  match id with
  | Some id =>
      mk (now s) (nextTimerId s) (filter (λ tm, timer_id tm ≠ id) (timers s))
         (timeout s) (calls s)
  | None => s
  end.

(** Lines 22 to 30: the function that [debounce(func, wait)] returns. *)
Definition debounced (wait : nat) (args : A) (s : t) : t :=
  let s := clearTimeout (timeout s) s in
  let r := setTimeout (Later args) wait s in
  mk (now r.2) (nextTimerId r.2) (timers r.2) (Some r.1) (calls r.2).

(** The callback of a timer; lines 24 to 27 for [later]. *)
Definition fire (s : t) (tm : timer) : t :=
  match callback_of tm with
  | Later args =>
      mk (now s) (nextTimerId s) (timers s) None (calls s ++ [args])
  | Foreign => s
  end.

(** [dt] milliseconds pass, and the timers that are due by then fire. *)
Definition advance (dt : nat) (s : t) : t :=
  let now' := now s + dt in
  foldl fire
    (mk now' (nextTimerId s) (filter (λ tm, ¬ due tm ≤ now') (timers s))
        (timeout s) (calls s))
    (filter (λ tm, due tm ≤ now') (timers s)).

(** What happens: the debounced function is called, time passes, or other
    code schedules a timer. *)
Inductive event :=
| Call (args : A)
| Elapse (dt : nat)
| OtherTimeout (delay : nat).

Definition step (wait : nat) (s : t) (e : event) : t :=
  match e with
  | Call args => debounced wait args s
  | Elapse dt => advance dt s
  | OtherTimeout delay => (setTimeout Foreign delay s).2
  end.

Definition run (wait : nat) (s : t) (es : list event) : t :=
  foldl (step wait) s es.

(** The arguments of a pending call of [func]. *)
Definition later_args (tm : timer) : option A :=
  match callback_of tm with
  | Later args => Some args
  | Foreign => None
  end.

Definition pending_args (s : t) : list A := omap later_args (timers s).

(** The pending timers of other code. *)
Definition foreign_timers (s : t) : list timer :=
  filter (λ tm, later_args tm = None) (timers s).

(** The arguments with which the debounced function has been called. *)
Definition call_args (es : list event) : list A :=
  omap (λ e, match e with Call args => Some args | _ => None end) es.

(** At most one call of [func] is pending, and [timeout] holds the id of its
    timer. *)
Definition one_pending (s : t) : Prop :=
  (∀ tm args, tm ∈ timers s → callback_of tm = Later args →
              timeout s = Some (timer_id tm))
  ∧ length (pending_args s) ≤ 1.

(** The ids of the pending timers have been handed out, and [timeout] does
    not hold the id of a timer of other code. *)
Definition own_timer_id (s : t) : Prop :=
  (∀ tm, tm ∈ timers s → timer_id tm < nextTimerId s)
  ∧ ∀ id, timeout s = Some id →
          id < nextTimerId s
          ∧ ∀ tm, tm ∈ timers s → timer_id tm = id → callback_of tm ≠ Foreign.

(** A burst: calls of the debounced function, each [dt] milliseconds after
    the one before. *)
Definition burst (first : A) (rest : list (nat * A)) : list event :=
  Call first :: (rest ≫= λ p, [Elapse p.1; Call p.2]).

Fixpoint last_args (first : A) (rest : list (nat * A)) : A :=
  match rest with
  | [] => first
  | p :: rest' => last_args p.2 rest'
  end.

End debounce.

Arguments Later {A} args.
Arguments Foreign {A}.
Arguments mkTimer {A} timer_id due callback_of.
Arguments timer_id {A} _.
Arguments due {A} _.
Arguments callback_of {A} _.
Arguments mk {A} now nextTimerId timers timeout calls.
Arguments now {A} _.
Arguments nextTimerId {A} _.
Arguments timers {A} _.
Arguments timeout {A} _.
Arguments calls {A} _.
Arguments initial {A}.
Arguments setTimeout {A} cb delay s.
Arguments clearTimeout {A} id s.
Arguments debounced {A} wait args s.
Arguments fire {A} s tm.
Arguments advance {A} dt s.
Arguments Call {A} args.
Arguments Elapse {A} dt.
Arguments OtherTimeout {A} delay.
Arguments step {A} wait s e.
Arguments run {A} wait s es.
Arguments later_args {A} tm.
Arguments pending_args {A} s.
Arguments foreign_timers {A} s.
Arguments call_args {A} es.
Arguments one_pending {A} s.
Arguments own_timer_id {A} s.
Arguments burst {A} first rest.
Arguments last_args {A} first rest.

(** A call of [func] with [args] is pending, due [wait] milliseconds from
    now. *)
Definition armed {A} (wait : nat) (args : A) (s : t A) : Prop :=
  one_pending s
  ∧ pending_args s = [args]
  ∧ ∀ tm args', tm ∈ timers s → callback_of tm = Later args' →
                due tm = now s + wait.

End Debounce.

(** ** The steps of the popup for custom filters: [renderCustomFilterPopup]

    The page is the list of elements of [TopMenu] above; the selectors used
    here are id selectors. *)

Module CustomFilterPopup.
Import Js TopMenu.

Definition POPUP_ACTIVE_CLASS : string := "option-popup__step--active".

Definition STEP_1 : string := "#add-custom-filter-step-1".
Definition STEP_2 : string := "#add-custom-filter-step-2".
Definition STEP_3 : string := "#add-custom-filter-step-3".
Definition STEP_4 : string := "#add-custom-filter-step-4".
Definition POPUP : string := "#add-custom-filter-popup".
Definition URL_INPUT : string := "#custom-filter-popup-url".

(** [document.querySelector(sel).classList.add(c)] and the like:
    [querySelector] gives [null] when nothing matches. *)
Definition on_selected (sel : string) (f : Element → Element) (d : list Element)
  : completion (list Element) :=
  match querySelector sel d with
  | Some n => Normal (alter f n d)
  | None => Throw TypeError d
  end.

(** [document.querySelector(sel).focus()]; which element has the focus is
    not part of the page as modelled. *)
Definition focus (sel : string) (d : list Element) : completion (list Element) :=
  match querySelector sel d with
  | Some _ => Normal d
  | None => Throw TypeError d
  end.

(** Lines 746 to 748. *)
Definition closePopup (d : list Element) : completion (list Element) :=
  on_selected POPUP (classList_remove "option-popup--active") d.

(** Lines 750 to 755. *)
Definition clearActiveStep (d : list Element) : completion (list Element) :=
  on_selected STEP_1 (classList_remove POPUP_ACTIVE_CLASS) d
  >>> on_selected STEP_2 (classList_remove POPUP_ACTIVE_CLASS)
  >>> on_selected STEP_3 (classList_remove POPUP_ACTIVE_CLASS)
  >>> on_selected STEP_4 (classList_remove POPUP_ACTIVE_CLASS).

(** Lines 757 to 762. *)
Definition renderStepOne (d : list Element) : completion (list Element) :=
  clearActiveStep d
  >>> on_selected STEP_1 (classList_add POPUP_ACTIVE_CLASS)
  >>> focus URL_INPUT.

(** Lines 764 to 767. *)
Definition renderStepTwo (d : list Element) : completion (list Element) :=
  clearActiveStep d
  >>> on_selected STEP_2 (classList_add POPUP_ACTIVE_CLASS).

(** Lines 769 to 772. *)
Definition renderStepThree (d : list Element) : completion (list Element) :=
  clearActiveStep d
  >>> on_selected STEP_3 (classList_add POPUP_ACTIVE_CLASS).

(** The three of them, as the listeners of the popup call them. *)
Inductive step := StepOne | StepTwo | StepThree.

Definition renderStep (k : step) : list Element → completion (list Element) :=
  match k with
  | StepOne => renderStepOne
  | StepTwo => renderStepTwo
  | StepThree => renderStepThree
  end.

Definition selector (k : step) : string :=
  match k with
  | StepOne => STEP_1
  | StepTwo => STEP_2
  | StepThree => STEP_3
  end.

Definition steps : list string := [STEP_1; STEP_2; STEP_3; STEP_4].

(** The element [sel] selects has the class of the active step. *)
Definition is_active (sel : string) (d : list Element) : bool :=
  match querySelector sel d ≫= (d !!.) with
  | Some e => bool_decide (POPUP_ACTIVE_CLASS ∈ classList e)
  | None => false
  end.

(** The steps that are shown. *)
Definition active_steps (d : list Element) : list string :=
  filter (λ sel, is_active sel d = true) steps.

(** A page with the popup on it. *)
Definition scenario_popup : list Element :=
  [ mkElement (Some "add-custom-filter-popup") None ["option-popup"] "";
    mkElement (Some "add-custom-filter-step-1") None
      ["option-popup__step"; POPUP_ACTIVE_CLASS] "";
    mkElement (Some "custom-filter-popup-url") None [] "";
    mkElement (Some "add-custom-filter-step-2") None ["option-popup__step"] "";
    mkElement (Some "add-custom-filter-step-3") None
      ["option-popup__step"; POPUP_ACTIVE_CLASS] "";
    mkElement (Some "add-custom-filter-step-4") None ["option-popup__step"] "" ].

End CustomFilterPopup.

(* ================================================================== *)
(** * Properties *)
(* ================================================================== *)

(** ** The filter metadata cache *)

Module FiltersCacheFacts.
Import Js FiltersCache.

Local Open Scope Z_scope.

(** *** The loop of [initLoadedFilters] *)

Lemma newer_max (t : option Z) (a : Z) :
  0 ≤ a →
  (if newer t a then default 0 t else a)
  = match t with Some v => Z.max a v | None => a end.
Proof.
  intros Ha. destruct t as [v|]; simpl; [|done].
  destruct (Z.eqb_spec v 0) as [->|Hv]; simpl; [lia|].
  destruct (Z.ltb_spec a v); lia.
Qed.

Lemma init_fold_time objs fs m a :
  0 ≤ a →
  (fold_left (init_step objs) fs (m, a)).2 = Z.max a (max_time objs fs).
Proof.
  revert m a. induction fs as [|r fs IH]; intros m a Ha.
  - unfold max_time. simpl. lia.
  - cbn [fold_left]. unfold init_step at 2. cbn [fst snd].
    rewrite newer_max by done. unfold max_time in *. cbn [omap list_omap].
    destruct (Filter.lastUpdateTime (objs r)) as [v|]; cbn [foldr].
    + rewrite IH by lia. lia.
    + by rewrite IH.
Qed.

Lemma init_fold_index objs fs m a k :
  (fold_left (init_step objs) fs (m, a)).1 !! k
  = match last_with_id objs k fs with
    | Some r => Some r
    | None => m !! k
    end.
Proof.
  revert m a. induction fs as [|r fs IH]; intros m a; [done|].
  cbn [fold_left]. unfold init_step at 2. cbn [fst snd]. rewrite IH.
  unfold last_with_id. rewrite filter_cons.
  destruct (decide (Filter.filterId (objs r) = k)) as [<-|Hne].
  - rewrite last_cons. destruct (list.last _); [done|].
    by rewrite lookup_insert_eq.
  - destruct (list.last _); [done|]. by rewrite lookup_insert_ne.
Qed.

Lemma max_time_upper objs fs r t :
  r ∈ fs → Filter.lastUpdateTime (objs r) = Some t → t ≤ max_time objs fs.
Proof.
  unfold max_time. induction fs as [|r' fs IH]; intros Hin Ht.
  - by apply elem_of_nil in Hin.
  - cbn [omap list_omap]. apply elem_of_cons in Hin as [<-|Hin].
    + rewrite Ht. simpl. lia.
    + specialize (IH Hin Ht).
      destruct (Filter.lastUpdateTime (objs r')); simpl; lia.
Qed.

Lemma max_time_attained objs fs :
  max_time objs fs = 0
  ∨ ∃ r, r ∈ fs ∧ Filter.lastUpdateTime (objs r) = Some (max_time objs fs).
Proof.
  unfold max_time. induction fs as [|r fs IH]; [by left|].
  cbn [omap list_omap].
  destruct (Filter.lastUpdateTime (objs r)) as [v|] eqn:Hv; cbn [foldr].
  - destruct (Z.max_spec v (foldr Z.max 0 (omap (λ r, Filter.lastUpdateTime (objs r)) fs)))
      as [[_ ->]|[_ ->]].
    + destruct IH as [IH|(r'&Hin&Hr')]; [by left|].
      right. exists r'. split; [by apply list_elem_of_further|done].
    + right. exists r. split; [apply list_elem_of_here|done].
  - destruct IH as [IH|(r'&Hin&Hr')]; [by left|].
    right. exists r'. split; [by apply list_elem_of_further|done].
Qed.

Lemma max_time_nonneg objs fs : 0 ≤ max_time objs fs.
Proof.
  unfold max_time.
  induction (omap (λ r, Filter.lastUpdateTime (objs r)) fs); simpl; lia.
Qed.

Lemma initLoadedFilters_time s fs cs :
  lastUpdateTime (initLoadedFilters s fs cs) = max_time (objects s) fs.
Proof.
  unfold initLoadedFilters. cbn [lastUpdateTime].
  rewrite init_fold_time by done. pose proof (max_time_nonneg (objects s) fs). lia.
Qed.

Lemma initLoadedFilters_index s fs cs k :
  filtersById (initLoadedFilters s fs cs) !! k = last_with_id (objects s) k fs.
Proof.
  unfold initLoadedFilters. cbn [filtersById]. rewrite init_fold_index.
  by destruct (last_with_id _ _ _).
Qed.

(** *** Consistency of the index *)

Lemma last_with_id_Some objs k l r :
  last_with_id objs k l = Some r →
  ∃ l1 l2, l = l1 ++ r :: l2 ∧ Filter.filterId (objs r) = k
           ∧ Forall (λ r', Filter.filterId (objs r') ≠ k) l2.
Proof.
  unfold last_with_id. intros Hlast.
  assert (r ∈ filter (λ r, Filter.filterId (objs r) = k) l) as Hin.
  { apply last_Some in Hlast as [l' ->]. apply elem_of_app. right.
    apply list_elem_of_here. }
  apply list_elem_of_filter in Hin as [Hk _].
  apply last_filter_Some in Hlast as (l1&l2&->&Hl2). by exists l1, l2.
Qed.

Lemma last_with_id_split objs k l1 r l2 :
  Filter.filterId (objs r) = k →
  Forall (λ r', Filter.filterId (objs r') ≠ k) l2 →
  last_with_id objs k (l1 ++ r :: l2) = Some r.
Proof.
  intros Hk Hl2. unfold last_with_id.
  rewrite list.filter_app, filter_cons_True by done.
  replace (filter _ l2) with (@nil ref); [apply last_snoc|].
  symmetry. induction Hl2 as [|r' l2 Hr' _ IH]; [done|].
  by rewrite filter_cons_False.
Qed.

Lemma last_with_id_None objs k l :
  last_with_id objs k l = None ↔ ∀ r, r ∈ l → Filter.filterId (objs r) ≠ k.
Proof.
  unfold last_with_id. rewrite last_None. split.
  - intros Hnil r Hin Hk.
    assert (r ∈ filter (λ r, Filter.filterId (objs r) = k) l) as Hr
      by (by apply list_elem_of_filter).
    rewrite Hnil in Hr. by apply elem_of_nil in Hr.
  - intros Hall. induction l as [|r l IH]; [done|].
    rewrite filter_cons_False.
    + apply IH. intros r' Hin. apply Hall. by apply list_elem_of_further.
    + apply Hall, list_elem_of_here.
Qed.

Lemma last_with_id_ext objs objs' k l :
  (∀ r, Filter.filterId (objs' r) = Filter.filterId (objs r)) →
  last_with_id objs' k l = last_with_id objs k l.
Proof.
  intros Hext. unfold last_with_id. f_equal.
  apply list_filter_iff. intros r. by rewrite Hext.
Qed.

Lemma last_with_id_snoc objs k l r :
  last_with_id objs k (l ++ [r])
  = if decide (Filter.filterId (objs r) = k) then Some r
    else last_with_id objs k l.
Proof.
  unfold last_with_id. rewrite list.filter_app, filter_cons, filter_nil.
  case_decide; [apply last_snoc|by rewrite app_nil_r].
Qed.

Lemma consistent_indexed_last s : consistent s ↔ indexed_last s.
Proof.
  split.
  - intros [Hkeys Hlast _] k.
    destruct (filtersById s !! k) as [r|] eqn:Hk.
    + destruct (Hlast k r Hk) as (l1&l2&->&Hid&Hl2).
      symmetry. by apply last_with_id_split.
    + symmetry. apply last_with_id_None. intros r Hin Hid.
      assert (is_Some (filtersById s !! k)) as [? ?]; [|congruence].
      apply Hkeys. by exists r.
  - intros Hs. split.
    + intros k. rewrite (Hs k). split.
      * intros [r Hr]. apply last_with_id_Some in Hr as (l1&l2&->&Hid&_).
        exists r. split; [|done]. apply elem_of_app. right. apply list_elem_of_here.
      * intros (r&Hin&Hid).
        destruct (last_with_id (objects s) k (filters s)) eqn:Hnone; [done|].
        rewrite last_with_id_None in Hnone. by destruct (Hnone r Hin).
    + intros k r. rewrite (Hs k). apply last_with_id_Some.
    + intros k r. rewrite (Hs k).
      intros (l1&l2&->&_)%last_with_id_Some.
      apply elem_of_app. right. apply list_elem_of_here.
Qed.

Lemma initLoadedFilters_consistent s fs cs :
  consistent (initLoadedFilters s fs cs).
Proof.
  apply consistent_indexed_last. intros k. by rewrite initLoadedFilters_index.
Qed.

Lemma updateEnabled_indexed_last s f e :
  indexed_last s → indexed_last (updateEnabled s f e).
Proof.
  intros Hs k. unfold updateEnabled.
  destruct (filtersById s !! Filter.filterId (objects s f)) as [info|] eqn:Hf;
    cbn [objects filters filtersById].
  - rewrite (Hs k). symmetry. apply last_with_id_ext. intros r.
    destruct (decide (info = r)) as [->|Hne].
    + by rewrite fn_lookup_insert.
    + by rewrite fn_lookup_insert_ne.
  - rewrite last_with_id_snoc. case_decide as Hk.
    + subst k. by rewrite lookup_insert_eq.
    + rewrite lookup_insert_ne by done. apply Hs.
Qed.

Lemma empty_consistent objs : consistent (empty objs).
Proof. apply consistent_indexed_last. intros k. done. Qed.

(** *** [updateEnabled] followed by [isEnabled] *)

Lemma isEnabled_lookup s k :
  isEnabled s k
  = Ret (match filtersById s !! k with
         | Some r => Filter.enabled (objects s r)
         | None => VUndefined
         end).
Proof.
  unfold isEnabled. destruct (filtersById s !! k) as [r|].
  - rewrite bool_decide_eq_true_2; [done|by eexists].
  - rewrite bool_decide_eq_false_2; [done|]. by intros [? ?].
Qed.

(** C1, as the code has it: [updateEnabled(f, e)] writes [e] only into a
    record that is already indexed under [f.filterId]; a filter that is not
    indexed is appended as it is, and [isEnabled] then returns the filter's
    own [enabled] field. *)
Theorem updateEnabled_then_isEnabled (s : t) (f : ref) (e : value) :
  isEnabled (updateEnabled s f e) (id_of s f)
  = Ret (if bool_decide (is_Some (filtersById s !! id_of s f))
         then e else Filter.enabled (objects s f))
  ∧ isEnabled (updateEnabled s f (Filter.enabled (objects s f))) (id_of s f)
    = Ret (Filter.enabled (objects s f)).
Proof.
  assert (∀ e', isEnabled (updateEnabled s f e') (id_of s f)
    = Ret (if bool_decide (is_Some (filtersById s !! id_of s f))
           then e' else Filter.enabled (objects s f))) as Hgen.
  { intros e'. rewrite isEnabled_lookup. unfold updateEnabled, id_of.
    destruct (filtersById s !! Filter.filterId (objects s f)) as [info|] eqn:Hf;
      cbn [objects filtersById].
    - rewrite Hf, fn_lookup_insert. done.
    - by rewrite lookup_insert_eq. }
  split; [apply Hgen|]. rewrite Hgen. by case_bool_decide.
Qed.

(** C1 fails as stated: scenario 2 of the specification.  Filter 2 is not in
    the cache and carries no [enabled] field; after [updateEnabled(f, true)]
    the call [isEnabled(2)] returns [undefined].  Likewise an enabled filter
    that is not in the cache stays enabled after [updateEnabled(f, false)]. *)
Lemma updateEnabled_unindexed_keeps_own_flag :
  isEnabled (updateEnabled (empty scenario_objects) 1%nat (VBool true)) 2
    = Ret VUndefined
  ∧ isEnabled (updateEnabled (empty scenario_objects) 1%nat (VBool true)) 2
    ≠ Ret (VBool true)
  ∧ isEnabled (updateEnabled (empty scenario_objects) 0%nat (VBool false)) 1
    ≠ Ret (VBool false).
Proof. repeat split; vm_compute; congruence. Qed.

(** *** [initLoadedFilters] and [lastUpdateTime] *)

(** C2, as the code has it: after [initLoadedFilters(filters, categories)]
    the cache's [lastUpdateTime] is the greatest [lastUpdateTime] field of
    the filters of that call (not their [timeUpdated]), a missing or zero
    field counting as absent and the result being 0 when there is none.  In
    the scenario of the specification [isEnabled(1)] is [true] and
    [lastUpdateTime] is 0; it is 100 for a record with
    [lastUpdateTime: 100]. *)
Theorem initLoadedFilters_lastUpdateTime (s : t) (fs : list ref) (cs : list Category) :
  let m := lastUpdateTime (initLoadedFilters s fs cs) in
  m = max_time (objects s) fs
  ∧ (∀ r v, r ∈ fs → Filter.lastUpdateTime (objects s r) = Some v → v ≤ m)
  ∧ (m = 0 ∨ ∃ r, r ∈ fs ∧ Filter.lastUpdateTime (objects s r) = Some m)
  ∧ (let s1 := initLoadedFilters (empty scenario_objects) [0%nat]
                 [mkCategory 10 [] [0%nat]] in
     isEnabled s1 1 = Ret (VBool true) ∧ lastUpdateTime s1 = 0)
  ∧ lastUpdateTime (initLoadedFilters (empty scenario_objects) [2%nat]
                      [mkCategory 10 [] [2%nat]]) = 100.
Proof.
  cbv zeta. rewrite initLoadedFilters_time. split_and!.
  - done.
  - intros r v. apply max_time_upper.
  - apply max_time_attained.
  - by vm_compute.
  - by vm_compute.
  - by vm_compute.
Qed.

Lemma initLoadedFilters_lastUpdateTime_witness :
  let s := empty scenario_objects in
  (0%nat ∈ [2%nat; 0%nat]) ∧ (2%nat ∈ [2%nat; 0%nat])
  ∧ (∀ v, Filter.lastUpdateTime (objects s 2%nat) = Some v →
          v ≤ lastUpdateTime (initLoadedFilters s [2%nat; 0%nat] [])).
Proof.
  cbv zeta. split_and!.
  - apply list_elem_of_further, list_elem_of_here.
  - apply list_elem_of_here.
  - intros v Hv.
    apply (proj1 (proj2 (initLoadedFilters_lastUpdateTime
                           (empty scenario_objects) [2%nat; 0%nat] [])) 2%nat v).
    + apply list_elem_of_here.
    + exact Hv.
Defined.

(** C2 fails as stated: in scenario 1 of the specification the filter has
    [timeUpdated: 100] and no [lastUpdateTime]; the cache's [lastUpdateTime]
    is 0 afterwards, not 100, and not the greatest [timeUpdated]. *)
Lemma initLoadedFilters_ignores_timeUpdated :
  let s1 := initLoadedFilters (empty scenario_objects) [0%nat]
              [mkCategory 10 [] [0%nat]] in
  lastUpdateTime s1 ≠ 100
  ∧ lastUpdateTime s1 ≠ max_timeUpdated (objects s1) (filters s1).
Proof. split; vm_compute; congruence. Qed.

(** *** Monotonicity of [lastUpdateTime] *)

Lemma step_lastUpdateTime s o :
  is_init o = false → lastUpdateTime s ≤ lastUpdateTime (step s o).
Proof.
  destruct o as [fs cs|f e|time]; intros Hinit; [done| |].
  - simpl. unfold updateEnabled. by destruct (filtersById s !! _).
  - simpl. unfold newer. destruct time as [v|]; simpl; [|lia].
    destruct (Z.eqb_spec v 0); simpl; [lia|].
    destruct (Z.ltb_spec (lastUpdateTime s) v); lia.
Qed.

(** C3, as the code has it: over every sequence of [setLastUpdatedTimeText]
    and [updateEnabled] operations the field [lastUpdateTime] never
    decreases, step by step and hence over the whole sequence.
    [initLoadedFilters] is left out: it recomputes the field from the
    filters of its own call. *)
Theorem lastUpdateTime_never_decreases_without_init (s : t) (ops : list op) :
  Forall (λ o, is_init o = false) ops →
  lastUpdateTime s ≤ lastUpdateTime (run s ops)
  ∧ ∀ ops1 o ops2, ops = ops1 ++ o :: ops2 →
      lastUpdateTime (run s ops1) ≤ lastUpdateTime (run s (ops1 ++ [o])).
Proof.
  intros Hops. split.
  - revert s. induction Hops as [|o ops Ho _ IH]; intros s; [done|].
    simpl. etrans; [by apply step_lastUpdateTime|apply IH].
  - intros ops1 o ops2 ->. unfold run. rewrite fold_left_app. simpl.
    apply step_lastUpdateTime.
    apply list.Forall_app in Hops as [_ Hops]. by apply list.Forall_cons in Hops as [? _].
Qed.

Lemma lastUpdateTime_never_decreases_without_init_witness :
  let s := initLoadedFilters (empty scenario_objects) [2%nat] [] in
  let ops := [SetLastUpdatedTimeText (Some 50); UpdateEnabled 1%nat (VBool true);
              SetLastUpdatedTimeText None; SetLastUpdatedTimeText (Some 170)] in
  lastUpdateTime s ≤ lastUpdateTime (run s ops)
  ∧ lastUpdateTime (run s ops) = 170.
Proof.
  cbv zeta. split; [|by vm_compute].
  apply lastUpdateTime_never_decreases_without_init.
  repeat constructor.
Defined.

(** C3 fails as stated: a second [initLoadedFilters] whose filters carry no
    timestamp lowers [lastUpdateTime] from 100 to 0. *)
Lemma initLoadedFilters_lowers_lastUpdateTime :
  let s := initLoadedFilters (empty scenario_objects) [2%nat] [] in
  lastUpdateTime s = 100
  ∧ lastUpdateTime (step s (InitLoadedFilters [0%nat] [])) = 0
  ∧ ¬ (lastUpdateTime s ≤ lastUpdateTime (step s (InitLoadedFilters [0%nat] []))).
Proof. cbv zeta. split_and!; vm_compute; congruence. Qed.

(** *** [isEnabled] *)

(** C4: [isEnabled] returns a value and never throws; for an id that is not
    in [filtersById] the value is falsy ([undefined]), and for an indexed id
    it is the [enabled] flag of the indexed filter. *)
Theorem isEnabled_total (s : t) (k : Z) :
  (∃ v, isEnabled s k = Ret v)
  ∧ (filtersById s !! k = None →
     isEnabled s k = Ret VUndefined ∧ falsy VUndefined = true)
  ∧ (∀ r, filtersById s !! k = Some r →
          isEnabled s k = Ret (Filter.enabled (objects s r))).
Proof.
  rewrite isEnabled_lookup. split_and!.
  - by eexists.
  - by intros ->.
  - by intros r ->.
Qed.

Lemma isEnabled_total_witness :
  let s := initLoadedFilters (empty scenario_objects) [0%nat; 1%nat] [] in
  isEnabled s 7 = Ret VUndefined
  ∧ isEnabled s 1 = Ret (VBool true)
  ∧ isEnabled s 2 = Ret VUndefined.
Proof.
  cbv zeta. split_and!.
  - apply (isEnabled_total
             (initLoadedFilters (empty scenario_objects) [0%nat; 1%nat] []) 7).
    by vm_compute.
  - apply (proj2 (proj2 (isEnabled_total
             (initLoadedFilters (empty scenario_objects) [0%nat; 1%nat] []) 1))
             0%nat).
    by vm_compute.
  - apply (proj2 (proj2 (isEnabled_total
             (initLoadedFilters (empty scenario_objects) [0%nat; 1%nat] []) 2))
             1%nat).
    by vm_compute.
Defined.

(** *** The invariant *)

(** C9: every operation of the cache preserves the consistency of
    [filtersById] with [filters]: the keys of the index are the ids that
    occur in the list, each entry is the last record of the list with that
    id, and each entry is a record of the list. *)
Theorem consistent_preserved (s : t) (o : op) :
  consistent s → consistent (step s o).
Proof.
  intros Hs. destruct o as [fs cs|f e|time]; simpl.
  - apply initLoadedFilters_consistent.
  - apply consistent_indexed_last, updateEnabled_indexed_last.
    by apply consistent_indexed_last.
  - destruct Hs as [H1 H2 H3]. by split.
Qed.

Lemma consistent_preserved_witness :
  consistent (step (step (empty scenario_objects)
                      (InitLoadedFilters [0%nat; 2%nat; 0%nat] []))
                (UpdateEnabled 1%nat (VBool true))).
Proof.
  apply consistent_preserved, consistent_preserved, empty_consistent.
Defined.

(** *** Counting the enabled filters of a category *)

Lemma count_enabled_from_length (s : t) (fs : list ref) (n : nat) :
  count_enabled_from s fs n
  = Ret (n + length (filter (λ r, counted s r = true) fs))%nat.
Proof.
  revert n. induction fs as [|r fs IH]; intros n; simpl.
  - by rewrite Nat.add_0_r.
  - rewrite isEnabled_lookup, IH, filter_cons.
    assert (truthy (match filtersById s !! id_of s r with
                    | Some r' => Filter.enabled (objects s r')
                    | None => VUndefined
                    end) = counted s r) as ->.
    { unfold counted. by destruct (filtersById s !! id_of s r). }
    destruct (counted s r).
    + rewrite decide_True by done. simpl. f_equal. lia.
    + by rewrite decide_False by done.
Qed.

Lemma filter_ext_elem {A} (P Q : A → Prop) `{!∀ x, Decision (P x)}
    `{!∀ x, Decision (Q x)} (l : list A) :
  (∀ x, x ∈ l → P x ↔ Q x) → filter P l = filter Q l.
Proof.
  induction l as [|x l IH]; intros Hext; [done|].
  rewrite !filter_cons.
  rewrite IH by (intros y Hy; by apply Hext, list_elem_of_further).
  destruct (decide (P x)) as [HP|HP], (decide (Q x)) as [HQ|HQ]; try done.
  - destruct HQ. by apply (Hext x), HP; apply list_elem_of_here.
  - destruct HP. by apply (Hext x), HQ; apply list_elem_of_here.
Qed.

Lemma unique_id_indexed (s : t) (r : ref) :
  consistent s → NoDup (id_of s <$> filters s) → r ∈ filters s →
  filtersById s !! id_of s r = Some r.
Proof.
  intros Hs Hnodup Hr.
  destruct (proj2 (index_keys s Hs (id_of s r))) as [r' Hr']; [by exists r|].
  rewrite Hr'. f_equal.
  destruct (index_last s Hs _ _ Hr') as (_&_&_&Hid&_).
  pose proof (index_present s Hs _ _ Hr') as Hin.
  apply list_elem_of_lookup in Hr as [i Hi].
  apply list_elem_of_lookup in Hin as [j Hj].
  assert (i = j) as ->; [|congruence].
  apply (NoDup_lookup _ i j (id_of s r) Hnodup).
  - by rewrite list_lookup_fmap, Hi.
  - by rewrite list_lookup_fmap, Hj, <-Hid.
Qed.

(** X1: [countEnabledFilters] never throws and counts at most every entry,
    whatever the cache and the list.  When the cache is consistent and the
    ids of its filters are pairwise different, the count of a part of the
    list is the number of its records whose own [enabled] flag is truthy. *)
Theorem countEnabledFilters_counts_own_flags (s : t) (fs : list ref) :
  (∃ n, countEnabledFilters s fs = Ret n ∧ (n ≤ length fs)%nat)
  ∧ (consistent s →
     NoDup (id_of s <$> filters s) →
     (∀ r, r ∈ fs → r ∈ filters s) →
     countEnabledFilters s fs = Ret (length (enabled_records s fs))).
Proof.
  unfold countEnabledFilters. rewrite count_enabled_from_length. simpl. split.
  - eexists. split; [done|]. apply length_filter.
  - intros Hs Hnodup Hsub. do 2 f_equal. apply filter_ext_elem.
    intros r Hr. unfold counted. by rewrite unique_id_indexed by auto.
Qed.

Lemma countEnabledFilters_counts_own_flags_witness :
  let s := initLoadedFilters (empty scenario_objects) [0%nat; 1%nat; 2%nat] [] in
  countEnabledFilters s [0%nat; 1%nat; 2%nat] = Ret 2%nat.
Proof.
  cbv zeta.
  apply (proj2 (countEnabledFilters_counts_own_flags
                  (initLoadedFilters (empty scenario_objects)
                     [0%nat; 1%nat; 2%nat] [])
                  [0%nat; 1%nat; 2%nat])).
  - apply initLoadedFilters_consistent.
  - apply (bool_decide_unpack _). by vm_compute.
  - done.
Defined.

(** X2: a filter listed twice under one id is counted twice, and by the flag
    of the record that was listed last. *)
Theorem countEnabledFilters_duplicate_id (s : t) (r1 r2 : ref) (cs : list Category) :
  id_of s r1 = id_of s r2 →
  countEnabledFilters (initLoadedFilters s [r1; r2] cs) [r1; r2]
  = Ret (if truthy (Filter.enabled (objects s r2)) then 2%nat else 0%nat).
Proof.
  intros Hid. unfold countEnabledFilters. rewrite count_enabled_from_length.
  assert (∀ r, r = r1 ∨ r = r2 →
               counted (initLoadedFilters s [r1; r2] cs) r
               = truthy (Filter.enabled (objects s r2))) as Hcounted.
  { intros r Hr. unfold counted. rewrite initLoadedFilters_index.
    replace (id_of (initLoadedFilters s [r1; r2] cs) r) with (id_of s r2)
      by (by destruct Hr as [->| ->]).
    unfold last_with_id, id_of in *.
    rewrite !filter_cons, filter_nil, !decide_True by done. done. }
  rewrite !filter_cons, filter_nil, !Hcounted by auto.
  destruct (truthy (Filter.enabled (objects s r2))).
  - by rewrite !decide_True by done.
  - by rewrite !decide_False by done.
Qed.

Lemma countEnabledFilters_duplicate_id_witness :
  countEnabledFilters
    (initLoadedFilters (empty (λ r, match r with
                                    | 0%nat => Filter.mk 5 1 (VBool true) None None
                                    | _ => Filter.mk 5 1 (VBool false) None None
                                    end)) [0%nat; 1%nat] [])
    [0%nat; 1%nat]
  = Ret 0%nat.
Proof.
  by apply (countEnabledFilters_duplicate_id
              (empty (λ r, match r with
                           | 0%nat => Filter.mk 5 1 (VBool true) None None
                           | _ => Filter.mk 5 1 (VBool false) None None
                           end)) 0%nat 1%nat []).
Defined.

(** *** Notifications *)

Lemma enabledFiltersCount_length (s : t) (g : Z) :
  enabledFiltersCount s g
  = Ret (length (filter (λ r, counted s r = true)
                   (getFiltersByGroupId s g (filters s)))).
Proof.
  unfold enabledFiltersCount, countEnabledFilters.
  by rewrite count_enabled_from_length.
Qed.

(** X3: when a filter that the consistent cache does not know yet is
    announced by [onFilterStateChanged], the number of enabled filters of its
    own category grows by one if the filter is enabled and stays as it is
    otherwise; the numbers of the other categories stay as they are. *)
Theorem onFilterStateChanged_new_filter_count (s : t) (f : ref) (g : Z) (n : nat) :
  consistent s →
  filtersById s !! id_of s f = None →
  enabledFiltersCount s g = Ret n →
  enabledFiltersCount (onFilterStateChanged s f) g
  = Ret (if bool_decide (Filter.groupId (objects s f) = g)
            && truthy (Filter.enabled (objects s f))
         then S n else n).
Proof.
  intros Hs Hnew. rewrite !enabledFiltersCount_length. intros [= <-].
  unfold onFilterStateChanged, updateEnabled. fold (id_of s f). rewrite Hnew.
  set (s' := mk _ _ _ _ _ _).
  assert (∀ r, r ∈ filters s → counted s' r = counted s r) as Hold.
  { intros r Hr. unfold counted, s', id_of. simpl.
    rewrite lookup_insert_ne; [done|]. intros Heq.
    assert (is_Some (filtersById s !! id_of s f)) as [? ?]; [|congruence].
    apply (index_keys s Hs). by exists r. }
  assert (counted s' f = truthy (Filter.enabled (objects s f))) as Hf.
  { unfold counted, s', id_of. simpl. by rewrite lookup_insert_eq. }
  unfold getFiltersByGroupId. simpl. rewrite !list.filter_app, length_app.
  rewrite (filter_ext_elem (λ r, counted s' r = true) (λ r, counted s r = true)).
  2: { intros r [_ Hr]%list_elem_of_filter. by rewrite Hold. }
  f_equal. rewrite !filter_cons, !filter_nil.
  destruct (decide (Filter.groupId (objects s f) = g)) as [Hg|Hg].
  - rewrite bool_decide_eq_true_2 by done. rewrite filter_cons, filter_nil, Hf.
    simpl. destruct (truthy (Filter.enabled (objects s f))).
    + rewrite decide_True by done. simpl. lia.
    + rewrite decide_False by done. simpl. lia.
  - rewrite bool_decide_eq_false_2 by done. rewrite filter_nil. simpl. lia.
Qed.

Lemma onFilterStateChanged_new_filter_count_witness :
  enabledFiltersCount
    (onFilterStateChanged (initLoadedFilters (empty scenario_objects) [1%nat] [])
       2%nat) 10
  = Ret 1%nat.
Proof.
  apply (onFilterStateChanged_new_filter_count
           (initLoadedFilters (empty scenario_objects) [1%nat] []) 2%nat 10 0%nat).
  - apply initLoadedFilters_consistent.
  - by vm_compute.
  - by vm_compute.
Defined.

(** X4: of two [updateEnabled] calls for the same filter id, the second
    always takes effect: afterwards [isEnabled] returns the flag of the
    second call, whether or not the id was indexed before and whether or not
    the two calls pass the same object. *)
Theorem updateEnabled_twice_second_wins (s : t) (f1 f2 : ref) (e1 e2 : value) :
  id_of s f1 = id_of s f2 →
  isEnabled (updateEnabled (updateEnabled s f1 e1) f2 e2) (id_of s f1) = Ret e2.
Proof.
  unfold id_of. intros Hid. rewrite isEnabled_lookup. unfold updateEnabled.
  destruct (filtersById s !! Filter.filterId (objects s f1)) as [info|] eqn:Hf;
    cbn [objects filtersById].
  - assert (Filter.filterId
              ((<[info := Filter.set_enabled e1 (objects s info)]> (objects s)) f2)
            = Filter.filterId (objects s f1)) as ->.
    { rewrite Hid. destruct (decide (info = f2)) as [->|Hne].
      - by rewrite fn_lookup_insert.
      - by rewrite fn_lookup_insert_ne. }
    rewrite Hf. cbn [objects filtersById]. by rewrite Hf, fn_lookup_insert.
  - rewrite <-Hid, lookup_insert_eq. cbn [objects filtersById].
    by rewrite lookup_insert_eq, fn_lookup_insert.
Qed.

Lemma updateEnabled_twice_second_wins_witness :
  isEnabled (updateEnabled (updateEnabled (empty scenario_objects) 1%nat
                              (VBool true)) 1%nat (VBool false)) 2
  = Ret (VBool false).
Proof.
  by apply (updateEnabled_twice_second_wins (empty scenario_objects)
              1%nat 1%nat (VBool true) (VBool false)).
Defined.

(** X5: [initLoadedFilters] forgets what the cache held before.  Afterwards
    [isEnabled] returns [undefined] for every id that does not occur among
    the filters of the call, also when it was indexed before, and for an id
    that occurs it returns the flag of the last filter of the call with that
    id. *)
Theorem initLoadedFilters_replaces_index (s : t) (fs : list ref)
    (cs : list Category) (k : Z) :
  ((∀ r, r ∈ fs → id_of s r ≠ k) →
   isEnabled (initLoadedFilters s fs cs) k = Ret VUndefined)
  ∧ (∀ l1 r l2,
       fs = l1 ++ r :: l2 →
       id_of s r = k →
       Forall (λ r', id_of s r' ≠ k) l2 →
       isEnabled (initLoadedFilters s fs cs) k
       = Ret (Filter.enabled (objects s r))).
Proof.
  split.
  - intros Hnone. rewrite isEnabled_lookup, initLoadedFilters_index.
    by rewrite (proj2 (last_with_id_None (objects s) k fs)).
  - intros l1 r l2 -> Hid Hl2.
    rewrite isEnabled_lookup, initLoadedFilters_index.
    by rewrite (last_with_id_split (objects s) k l1 r l2).
Qed.

Lemma initLoadedFilters_replaces_index_witness :
  let s := initLoadedFilters (empty scenario_objects) [0%nat; 1%nat] [] in
  isEnabled s 1 = Ret (VBool true)
  ∧ isEnabled (initLoadedFilters s [1%nat; 2%nat] []) 1 = Ret VUndefined
  ∧ isEnabled (initLoadedFilters s [1%nat; 2%nat] []) 3 = Ret (VBool true).
Proof.
  cbv zeta. split_and!.
  - by vm_compute.
  - apply (proj1 (initLoadedFilters_replaces_index
                    (initLoadedFilters (empty scenario_objects) [0%nat; 1%nat] [])
                    [1%nat; 2%nat] [] 1)).
    intros r Hr. apply elem_of_cons in Hr as [->|Hr]; [by vm_compute|].
    apply list_elem_of_singleton in Hr as ->. by vm_compute.
  - apply (proj2 (initLoadedFilters_replaces_index
                    (initLoadedFilters (empty scenario_objects) [0%nat; 1%nat] [])
                    [1%nat; 2%nat] [] 3) [1%nat] 2%nat []).
    + done.
    + by vm_compute.
    + constructor.
Defined.

(** *** The time of the last update *)

Lemma setLastUpdatedTimeText_time (s : t) (time : option Z) :
  lastUpdateTime (setLastUpdatedTimeText s time)
  = match time with
    | Some v => if (v =? 0) then lastUpdateTime s else Z.max (lastUpdateTime s) v
    | None => lastUpdateTime s
    end.
Proof.
  unfold setLastUpdatedTimeText, newer. simpl. destruct time as [v|]; [|done].
  simpl. destruct (Z.eqb_spec v 0); simpl; [done|].
  destruct (Z.ltb_spec (lastUpdateTime s) v); lia.
Qed.

Lemma setLastUpdatedTimeText_text (s : t) (time : option Z) :
  lastUpdateTimeText (setLastUpdatedTimeText s time)
  = if (lastUpdateTime (setLastUpdatedTimeText s time) =? 0) then None
    else Some (lastUpdateTime (setLastUpdatedTimeText s time)).
Proof.
  unfold setLastUpdatedTimeText. simpl.
  by destruct (_ =? 0).
Qed.

(** X6: after the handler of the filters metadata has filled the cache,
    [lastUpdateTime] is the greatest [lastUpdateTime] of the filters
    received, the text of [#lastUpdateTime] shows that time, or is empty when
    it is 0, and the index is consistent with the list. *)
Theorem onFiltersMetadata_shows_latest (s : t) (fs : list ref) (cs : list Category) :
  let s' := onFiltersMetadata s fs cs in
  lastUpdateTime s' = max_time (objects s) fs
  ∧ lastUpdateTimeText s'
    = (if (max_time (objects s) fs =? 0) then None
       else Some (max_time (objects s) fs))
  ∧ filters s' = fs
  ∧ consistent s'.
Proof.
  cbv zeta. unfold onFiltersMetadata.
  assert (lastUpdateTime
            (setLastUpdatedTimeText (initLoadedFilters s fs cs)
               (Some (lastUpdateTime (initLoadedFilters s fs cs))))
          = max_time (objects s) fs) as Htime.
  { rewrite setLastUpdatedTimeText_time, initLoadedFilters_time.
    destruct (_ =? 0); lia. }
  split_and!.
  - done.
  - by rewrite setLastUpdatedTimeText_text, Htime.
  - done.
  - pose proof (initLoadedFilters_consistent s fs cs) as [H1 H2 H3]. by split.
Qed.

(** X7: two [setLastUpdatedTimeText] calls, as made for two finished
    downloads, give the same cache in either order, and a call with a time
    that is missing, zero or not later than the cache's leaves
    [lastUpdateTime] as it is. *)
Theorem setLastUpdatedTimeText_order_irrelevant (s : t) (t1 t2 : option Z) :
  setLastUpdatedTimeText (setLastUpdatedTimeText s t1) t2
  = setLastUpdatedTimeText (setLastUpdatedTimeText s t2) t1
  ∧ (newer t1 (lastUpdateTime s) = false →
     lastUpdateTime (setLastUpdatedTimeText s t1) = lastUpdateTime s).
Proof.
  split.
  - assert (lastUpdateTime (setLastUpdatedTimeText (setLastUpdatedTimeText s t1) t2)
            = lastUpdateTime
                (setLastUpdatedTimeText (setLastUpdatedTimeText s t2) t1)) as Htime.
    { rewrite !setLastUpdatedTimeText_time.
      destruct t1 as [v1|], t2 as [v2|]; try done;
        repeat (match goal with |- context [(?v =? 0)] => destruct (v =? 0) end);
        lia. }
    pose proof (setLastUpdatedTimeText_text (setLastUpdatedTimeText s t1) t2) as Hx.
    pose proof (setLastUpdatedTimeText_text (setLastUpdatedTimeText s t2) t1) as Hy.
    rewrite Htime in Hx. rewrite <-Hy in Hx.
    destruct (setLastUpdatedTimeText (setLastUpdatedTimeText s t1) t2) eqn:H12,
             (setLastUpdatedTimeText (setLastUpdatedTimeText s t2) t1) eqn:H21.
    simpl in *. subst.
    apply (f_equal objects) in H12 as Ho1. apply (f_equal objects) in H21 as Ho2.
    apply (f_equal filters) in H12 as Hf1. apply (f_equal filters) in H21 as Hf2.
    apply (f_equal categories) in H12 as Hc1.
    apply (f_equal categories) in H21 as Hc2.
    apply (f_equal filtersById) in H12 as Hi1.
    apply (f_equal filtersById) in H21 as Hi2.
    simpl in *. congruence.
  - intros Hnewer. unfold setLastUpdatedTimeText. simpl. by rewrite Hnewer.
Qed.

Lemma setLastUpdatedTimeText_order_irrelevant_witness :
  let s := initLoadedFilters (empty scenario_objects) [2%nat] [] in
  lastUpdateTime (setLastUpdatedTimeText s (Some 50)) = 100.
Proof.
  cbv zeta.
  rewrite (proj2 (setLastUpdatedTimeText_order_irrelevant
                    (initLoadedFilters (empty scenario_objects) [2%nat] [])
                    (Some 50) None)); by vm_compute.
Defined.

End FiltersCacheFacts.

(** ** The editors *)

Module EditorsFacts.

Local Open Scope Z_scope.

Lemma whitelist_updates_reload (s : WhiteListFilter.t) (n : nat) :
  WhiteListFilter.omitRenderEventsCount s = 0 →
  let s' := Nat.iter n WhiteListFilter.updateWhiteListDomains s in
  WhiteListFilter.omitRenderEventsCount s' = 0
  ∧ WhiteListFilter.loadCalls s' = (WhiteListFilter.loadCalls s + n)%nat.
Proof.
  intros Hs. cbv zeta. induction n as [|n [IH1 IH2]].
  - simpl. by rewrite Nat.add_0_r.
  - rewrite Nat.iter_succ. unfold WhiteListFilter.updateWhiteListDomains at 1 3.
    rewrite IH1. simpl. split; [done|lia].
Qed.

Lemma user_updates_reload (s : UserFilter.t) (n : nat) :
  UserFilter.omitRenderEventsCount s = 0 →
  let s' := Nat.iter n UserFilter.updateUserFilterRules s in
  UserFilter.omitRenderEventsCount s' = 0
  ∧ UserFilter.loadCalls s' = (UserFilter.loadCalls s + n)%nat.
Proof.
  intros Hs. cbv zeta. induction n as [|n [IH1 IH2]].
  - simpl. by rewrite Nat.add_0_r.
  - rewrite Nat.iter_succ. unfold UserFilter.updateUserFilterRules at 1 3.
    rewrite IH1. simpl. split; [done|lia].
Qed.

Lemma whitelist_counter_range (s : WhiteListFilter.t) (ops : list WhiteListFilter.op) :
  0 ≤ WhiteListFilter.omitRenderEventsCount s ≤ 1 →
  0 ≤ WhiteListFilter.omitRenderEventsCount (WhiteListFilter.run s ops) ≤ 1.
Proof.
  revert s. induction ops as [|o ops IH]; intros s Hs; [done|].
  simpl. apply IH. destruct o; simpl; [lia|].
  unfold WhiteListFilter.updateWhiteListDomains.
  destruct (Z.ltb_spec 0 (WhiteListFilter.omitRenderEventsCount s)); simpl; lia.
Qed.

Lemma user_counter_range (s : UserFilter.t) (ops : list UserFilter.op) :
  0 ≤ UserFilter.omitRenderEventsCount s ≤ 1 →
  0 ≤ UserFilter.omitRenderEventsCount (UserFilter.run s ops) ≤ 1.
Proof.
  revert s. induction ops as [|o ops IH]; intros s Hs; [done|].
  simpl. apply IH. destruct o; simpl; [lia|].
  unfold UserFilter.updateUserFilterRules.
  destruct (Z.ltb_spec 0 (UserFilter.omitRenderEventsCount s)); simpl; lia.
Qed.

(** C10: after a save, the next update only decrements the counter and does
    not load; each of the updates that follow loads.  Over every sequence of
    saves and updates of a freshly created block the counter is never
    negative.  This holds for the whitelist editor and for the user-rules
    editor. *)
Theorem save_suppresses_exactly_next_update :
  (∀ (s : WhiteListFilter.t) (n : nat),
     let s1 := WhiteListFilter.updateWhiteListDomains
                 (WhiteListFilter.saveWhiteListDomains s) in
     let s2 := Nat.iter n WhiteListFilter.updateWhiteListDomains s1 in
     WhiteListFilter.loadCalls s1 = WhiteListFilter.loadCalls s
     ∧ WhiteListFilter.omitRenderEventsCount s1 = 0
     ∧ WhiteListFilter.loadCalls s2 = (WhiteListFilter.loadCalls s + n)%nat
     ∧ WhiteListFilter.omitRenderEventsCount s2 = 0)
  ∧ (∀ ops : list WhiteListFilter.op,
       0 ≤ WhiteListFilter.omitRenderEventsCount
             (WhiteListFilter.run WhiteListFilter.create ops))
  ∧ (∀ (s : UserFilter.t) (n : nat),
       let s1 := UserFilter.updateUserFilterRules (UserFilter.saveUserRules s) in
       let s2 := Nat.iter n UserFilter.updateUserFilterRules s1 in
       UserFilter.loadCalls s1 = UserFilter.loadCalls s
       ∧ UserFilter.omitRenderEventsCount s1 = 0
       ∧ UserFilter.loadCalls s2 = (UserFilter.loadCalls s + n)%nat
       ∧ UserFilter.omitRenderEventsCount s2 = 0)
  ∧ (∀ ops : list UserFilter.op,
       0 ≤ UserFilter.omitRenderEventsCount (UserFilter.run UserFilter.create ops)).
Proof.
  split_and!.
  - intros s n s1 s2.
    destruct (whitelist_updates_reload s1 n) as [H1 H2]; [done|].
    by split_and!.
  - intros ops. by apply whitelist_counter_range.
  - intros s n s1 s2.
    destruct (user_updates_reload s1 n) as [H1 H2]; [done|].
    by split_and!.
  - intros ops. by apply user_counter_range.
Qed.

(** *** Which updates load *)

Lemma whitelist_loads (s : WhiteListFilter.t) (ops : list WhiteListFilter.op) :
  0 ≤ WhiteListFilter.omitRenderEventsCount s ≤ 1 →
  WhiteListFilter.loadCalls (WhiteListFilter.run s ops)
  = (WhiteListFilter.loadCalls s
     + WhiteListFilter.loading_updates
         (0 <? WhiteListFilter.omitRenderEventsCount s)%Z ops)%nat.
Proof.
  revert s. induction ops as [|o ops IH]; intros s Hs; simpl; [lia|].
  destruct o; simpl.
  - rewrite IH by (simpl; lia). done.
  - unfold WhiteListFilter.updateWhiteListDomains.
    destruct (Z.ltb_spec 0 (WhiteListFilter.omitRenderEventsCount s)).
    + rewrite IH by (simpl; lia). simpl.
      replace (0 <? WhiteListFilter.omitRenderEventsCount s - 1) with false
        by (symmetry; apply Z.ltb_ge; lia).
      done.
    + rewrite IH by (simpl; lia). simpl.
      replace (0 <? WhiteListFilter.omitRenderEventsCount s) with false
        by (symmetry; apply Z.ltb_ge; lia).
      lia.
Qed.

Lemma user_loads (s : UserFilter.t) (ops : list UserFilter.op) :
  0 ≤ UserFilter.omitRenderEventsCount s ≤ 1 →
  UserFilter.loadCalls (UserFilter.run s ops)
  = (UserFilter.loadCalls s
     + UserFilter.loading_updates (0 <? UserFilter.omitRenderEventsCount s)%Z
         ops)%nat.
Proof.
  revert s. induction ops as [|o ops IH]; intros s Hs; simpl; [lia|].
  destruct o; simpl.
  - rewrite IH by (simpl; lia). done.
  - unfold UserFilter.updateUserFilterRules.
    destruct (Z.ltb_spec 0 (UserFilter.omitRenderEventsCount s)).
    + rewrite IH by (simpl; lia). simpl.
      replace (0 <? UserFilter.omitRenderEventsCount s - 1) with false
        by (symmetry; apply Z.ltb_ge; lia).
      done.
    + rewrite IH by (simpl; lia). simpl.
      replace (0 <? UserFilter.omitRenderEventsCount s) with false
        by (symmetry; apply Z.ltb_ge; lia).
      lia.
Qed.

(** X8: over every sequence of saves and updates of a freshly created editor
    block, the editor content is loaded once for each update that does not
    come directly after a save, and for no other.  Saves do not add up: after
    several saves in a row still only one update is skipped. *)
Theorem editor_loads_updates_not_after_save :
  (∀ ops : list WhiteListFilter.op,
     WhiteListFilter.loadCalls (WhiteListFilter.run WhiteListFilter.create ops)
     = WhiteListFilter.loading_updates false ops)
  ∧ (∀ ops : list UserFilter.op,
       UserFilter.loadCalls (UserFilter.run UserFilter.create ops)
       = UserFilter.loading_updates false ops)
  ∧ WhiteListFilter.loadCalls
      (WhiteListFilter.run WhiteListFilter.create
         [WhiteListFilter.Save; WhiteListFilter.Save; WhiteListFilter.Update;
          WhiteListFilter.Update]) = 1%nat.
Proof.
  split_and!.
  - intros ops. by rewrite whitelist_loads.
  - intros ops. by rewrite user_loads.
  - done.
Qed.

(** *** The editor after a save *)

Lemma whitelist_readOnly_kept (s : WhiteListFilter.t) (ops : list WhiteListFilter.op) :
  WhiteListFilter.readOnly s = true →
  WhiteListFilter.readOnly (WhiteListFilter.run s ops) = true.
Proof.
  revert s. induction ops as [|o ops IH]; intros s Hs; [done|].
  simpl. apply IH. destruct o; simpl; [done|].
  unfold WhiteListFilter.updateWhiteListDomains. by destruct (_ <? _).
Qed.

Lemma user_readOnly_kept (s : UserFilter.t) (ops : list UserFilter.op) :
  UserFilter.readOnly s = true →
  UserFilter.readOnly (UserFilter.run s ops) = true.
Proof.
  revert s. induction ops as [|o ops IH]; intros s Hs; [done|].
  simpl. apply IH. destruct o; simpl; [done|].
  unfold UserFilter.updateUserFilterRules. by destruct (_ <? _).
Qed.

(** X9: a save makes the editor read-only, and neither a later update nor a
    later save makes it writable again: once a sequence of saves and updates
    contains a save, the editor is read-only at its end. *)
Theorem editor_stays_read_only_after_save :
  (∀ (s : WhiteListFilter.t) (ops : list WhiteListFilter.op),
     WhiteListFilter.Save ∈ ops →
     WhiteListFilter.readOnly (WhiteListFilter.run s ops) = true)
  ∧ (∀ (s : UserFilter.t) (ops : list UserFilter.op),
       UserFilter.Save ∈ ops →
       UserFilter.readOnly (UserFilter.run s ops) = true).
Proof.
  split.
  - intros s ops Hin. apply list_elem_of_split in Hin as (l1&l2&->).
    unfold WhiteListFilter.run. rewrite fold_left_app. simpl.
    by apply whitelist_readOnly_kept.
  - intros s ops Hin. apply list_elem_of_split in Hin as (l1&l2&->).
    unfold UserFilter.run. rewrite fold_left_app. simpl.
    by apply user_readOnly_kept.
Qed.

Lemma editor_stays_read_only_after_save_witness :
  WhiteListFilter.readOnly
    (WhiteListFilter.run WhiteListFilter.create
       [WhiteListFilter.Update; WhiteListFilter.Save; WhiteListFilter.Update])
  = true.
Proof.
  apply (proj1 editor_stays_read_only_after_save).
  apply list_elem_of_further, list_elem_of_here.
Defined.

End EditorsFacts.

(** ** The tab router *)

Module TopMenuFacts.
Import Js TopMenu.

(** *** [indexOf] and prefixes *)

Lemma indexOf_zero (s sub : string) :
  indexOf s sub = 0%Z ↔ String.prefix sub s = true.
Proof.
  unfold indexOf. destruct s as [|b s'].
  - destruct sub; simpl; split; intros; (done || lia).
  - cbn [String.index].
    destruct (String.prefix sub (String b s')) eqn:Hp; [done|].
    destruct (String.index 0 sub s'); split; intros; (done || lia).
Qed.

Lemma is_antibanner_prefix (tabId : string) :
  is_antibanner tabId = true ↔ String.prefix ANTIBANNER tabId = true.
Proof. unfold is_antibanner. rewrite Z.eqb_eq. apply indexOf_zero. Qed.

(** *** Queries after a change of classes or display *)

Lemma classList_add_keeps c : keeps_attributes (classList_add c).
Proof. by intros e. Qed.
Lemma classList_remove_keeps c : keeps_attributes (classList_remove c).
Proof. by intros e. Qed.
Lemma set_display_keeps v : keeps_attributes (set_display v).
Proof. by intros e. Qed.

#[local] Hint Resolve classList_add_keeps classList_remove_keeps
  set_display_keeps : core.

Lemma list_find_alter_keep {A} (P : A → Prop) `{!∀ x, Decision (P x)}
    (f : A → A) (n : nat) (l : list A) :
  (∀ x, P (f x) ↔ P x) →
  fst <$> list_find P (alter f n l) = fst <$> list_find P l.
Proof.
  intros Hf. revert n. induction l as [|x l IH]; intros [|n]; simpl; try done.
  - destruct (decide (P (f x))) as [H1|H1], (decide (P x)) as [H2|H2];
      try done.
    + destruct H2. by apply Hf.
    + destruct H1. by apply Hf.
  - destruct (decide (P x)); [done|].
    assert (∀ o : option (nat * A),
              fst <$> (prod_map S Datatypes.id <$> o) = S <$> (fst <$> o)) as Hmap
      by (by intros [[??]|]).
    rewrite !Hmap. f_equal. apply IH.
Qed.

Lemma querySelector_alter sel f n d :
  keeps_attributes f → querySelector sel (alter f n d) = querySelector sel d.
Proof.
  intros Hf. unfold querySelector. destruct sel as [|c name]; [done|].
  destruct (Ascii.eqb c number_sign); [|done].
  apply list_find_alter_keep. intros e. by rewrite (proj1 (Hf e)).
Qed.

Lemma querySelectorDataTab_alter v f n d :
  keeps_attributes f →
  querySelectorDataTab v (alter f n d) = querySelectorDataTab v d.
Proof.
  intros Hf. unfold querySelectorDataTab.
  apply list_find_alter_keep. intros e. by rewrite (proj2 (Hf e)).
Qed.

Lemma querySelector_foldl sel f nodes d :
  keeps_attributes f →
  querySelector sel (foldl (λ d n, alter f n d) d nodes) = querySelector sel d.
Proof.
  intros Hf. revert d. induction nodes as [|n nodes IH]; intros d; [done|].
  simpl. by rewrite IH, querySelector_alter.
Qed.

Lemma querySelectorDataTab_foldl v f nodes d :
  keeps_attributes f →
  querySelectorDataTab v (foldl (λ d n, alter f n d) d nodes)
  = querySelectorDataTab v d.
Proof.
  intros Hf. revert d. induction nodes as [|n nodes IH]; intros d; [done|].
  simpl. by rewrite IH, querySelectorDataTab_alter.
Qed.

Lemma querySelector_Some sel (d : list Element) (n : nat) :
  querySelector sel d = Some n → is_Some (d !! n).
Proof.
  unfold querySelector. destruct sel as [|c name]; [done|].
  destruct (Ascii.eqb c number_sign); [|done].
  destruct (list_find _ d) as [[i e]|] eqn:Hfind; [|done].
  intros [= <-]. apply list_find_Some in Hfind as [? _]. by eexists.
Qed.

(** *** Displays after a change *)

Lemma display_alter_keep f (n : nat) (d : list Element) (m : nat) :
  (∀ e, display (f e) = display e) →
  display <$> alter f n d !! m = display <$> d !! m.
Proof.
  intros Hf. rewrite list_lookup_alter. case_decide as Heq; [subst m|done].
  destruct (d !! n); simpl; [by rewrite Hf|done].
Qed.

Lemma display_foldl_keep f (nodes : list nat) (d : list Element) (m : nat) :
  (∀ e, display (f e) = display e) →
  display <$> foldl (λ d n, alter f n d) d nodes !! m = display <$> d !! m.
Proof.
  intros Hf. revert d. induction nodes as [|n nodes IH]; intros d; [done|].
  simpl. by rewrite IH, display_alter_keep.
Qed.

Lemma display_set_eq v (n : nat) (d : list Element) :
  is_Some (d !! n) → display <$> alter (set_display v) n d !! n = Some v.
Proof. intros [e He]. by rewrite list_lookup_alter_eq, He. Qed.

Lemma display_set_ne v (n : nat) (d : list Element) (m : nat) :
  n ≠ m → display <$> alter (set_display v) n d !! m = display <$> d !! m.
Proof. intros Hne. by rewrite list_lookup_alter_ne. Qed.

(** *** Documents after changes of classes and displays *)

Lemma restyled_trans d1 d2 d3 : restyled d1 d2 → restyled d2 d3 → restyled d1 d3.
Proof. intros H12 H23. induction H23; [done|]. by constructor; auto. Qed.

Lemma restyled_foldl f (nodes : list nat) (d : list Element) :
  keeps_attributes f → restyled d (foldl (λ d n, alter f n d) d nodes).
Proof.
  intros Hf. revert d. induction nodes as [|n nodes IH]; intros d; [constructor|].
  simpl. eapply restyled_trans; [|apply IH].
  apply restyled_alter; [apply restyled_refl|done].
Qed.

Lemma restyled_querySelector d d' sel :
  restyled d d' → querySelector sel d' = querySelector sel d.
Proof. induction 1; [done|]. by rewrite querySelector_alter. Qed.

Lemma restyled_querySelectorDataTab d d' v :
  restyled d d' → querySelectorDataTab v d' = querySelectorDataTab v d.
Proof. induction 1; [done|]. by rewrite querySelectorDataTab_alter. Qed.

Lemma restyled_length d d' : restyled d d' → length d' = length d.
Proof. induction 1; [done|]. by rewrite length_alter. Qed.

Lemma restyled_is_Some (d d' : list Element) (n : nat) :
  restyled d d' → is_Some (d' !! n) ↔ is_Some (d !! n).
Proof. intros Hr. by rewrite !lookup_lt_is_Some, (restyled_length d d'). Qed.

(** *** Plain selectors *)

Lemma is_plain_hash (name : string) :
  identifier name = true → is_plain (String number_sign name) = true.
Proof.
  intros Hname. unfold is_plain, classify.
  by rewrite Ascii.eqb_refl, Hname.
Qed.

Lemma is_plain_nonempty (sel : string) : is_plain sel = true → sel ≠ "".
Proof. by intros Hsel ->. Qed.

Section deferral.
Variable css : engine.

Lemma document_querySelector_plain sel (d : list Element) :
  is_plain sel = true →
  document_querySelector css sel d = Ret (querySelector sel d).
Proof. unfold is_plain, document_querySelector. by destruct (classify sel). Qed.

Lemma document_querySelectorDataTab_plain v (d : list Element) :
  is_plain v = true →
  document_querySelectorDataTab css v d = Ret (querySelectorDataTab v d).
Proof. unfold document_querySelectorDataTab. by intros ->. Qed.

(** A plain id selects the same element whatever the styles. *)
Lemma selects_plain sel (d : list Element) (n : nat) :
  is_plain sel = true → querySelector sel d = Some n → selects css sel d n.
Proof.
  intros Hplain Hn. split; [by eapply querySelector_Some|].
  intros d' Hr. rewrite document_querySelector_plain by done.
  by rewrite (restyled_querySelector d d'), Hn.
Qed.

(** *** The closure is only written by [notify] *)

Lemma on_element_closure target f s :
  closure (final (on_element target f s)) = closure s.
Proof. by destruct target. Qed.

Lemma on_query_closure r f s :
  closure (final (on_query r f s)) = closure s.
Proof. destruct r; [apply on_element_closure|done]. Qed.

Lemma bind_closure (c : completion t) (k : t → completion t) :
  (∀ s, closure (final (k s)) = closure s) →
  closure (final (c >>> k)) = closure (final c).
Proof. intros Hk. destruct c; simpl; [apply Hk|done]. Qed.

Lemma leave_previous_closure tabs s :
  closure (final (leave_previous css tabs s)) = closure s.
Proof.
  unfold leave_previous. destruct (prevTabId s) as [prev|]; [|done].
  destruct (String.eqb prev ""); [done|].
  rewrite bind_closure by (intros; apply on_query_closure).
  destruct (is_antibanner prev); [done|apply on_query_closure].
Qed.

Lemma enter_closure tabs tabId s :
  closure (final (enter css tabs tabId s)) = closure s.
Proof.
  unfold enter. destruct (is_antibanner tabId); [done|].
  apply on_query_closure.
Qed.

Lemma toggleTab_callback_calls (s : t) :
  callbackCalls (final (toggleTab css s))
  = callbackCalls s ++
      (if completes (toggleTab css s)
          && bool_decide (resolved_tab css s = Some WHITELIST)
          && onHashUpdatedCallback s
       then [WHITELIST] else []).
Proof.
  unfold toggleTab, resolved_tab.
  destruct (resolve css s) as [[[tabId tab]|]|e]; simpl;
    [|by rewrite app_nil_r..].
  set (tabs := querySelectorAllDataTab ANTIBANNER (document s)).
  set (c := leave_previous css tabs s >>> enter css tabs tabId
            >>> on_element tab (set_display "block")).
  assert (closure (final c) = closure s) as Hc.
  { unfold c. rewrite bind_closure by apply on_element_closure.
    rewrite bind_closure by apply enter_closure.
    apply leave_previous_closure. }
  destruct c as [s'|e s']; simpl in *.
  - injection Hc as _ _ Hcb Hcalls. unfold notify. simpl.
    rewrite Hcb, Hcalls.
    destruct (String.eqb_spec tabId WHITELIST) as [->|Hne]; simpl.
    + destruct (onHashUpdatedCallback s); [done|by rewrite app_nil_r].
    + rewrite bool_decide_eq_false_2 by congruence.
      simpl. by rewrite app_nil_r.
  - injection Hc as _ _ _ Hcalls. by rewrite Hcalls, app_nil_r.
Qed.

(** *** Deferral *)

(** C6: when the hash starts with [#antibanner] and [document.querySelector]
    finds no element for it, [toggleTab] returns at once: it completes
    without an exception and the document, the current tab and the record of
    callback calls are what they were.  When [document.querySelector]
    throws on the hash, [toggleTab] throws the same exception, before it has
    changed anything. *)
Theorem toggleTab_defers_unrendered_filters_panel (s : t) :
  String.prefix ANTIBANNER (location_hash s) = true →
  (document_querySelector css (location_hash s) (document s) = Ret None →
   toggleTab css s = Normal s)
  ∧ (∀ e, document_querySelector css (location_hash s) (document s) = Raise e →
          toggleTab css s = Throw e s).
Proof.
  intros Hprefix. unfold toggleTab, resolve.
  destruct (String.eqb_spec (location_hash s) "") as [Hempty|_].
  { by rewrite Hempty in Hprefix. }
  split.
  - intros ->. rewrite (proj2 (is_antibanner_prefix _) Hprefix).
    by rewrite bool_decide_eq_true_2.
  - by intros e ->.
Qed.

End deferral.

Lemma toggleTab_defers_unrendered_filters_panel_witness :
  let s := mk scenario_document "antibanner5" (Some GENERAL_SETTINGS) true [] in
  location_hash s = "#antibanner5" ∧ toggleTab strict_engine s = Normal s.
Proof.
  cbv zeta. split; [by vm_compute|].
  apply toggleTab_defers_unrendered_filters_panel; by vm_compute.
Defined.

(** The hash [#antibanner/5] starts with [#antibanner] and no element has the
    id [antibanner/5], or any id with a solidus; yet [toggleTab] throws, with
    every engine: the string is no selector. *)
Lemma toggleTab_rejects_malformed_hash :
  let s := mk scenario_document "antibanner/5" (Some GENERAL_SETTINGS) true [] in
  String.prefix ANTIBANNER (location_hash s) = true
  ∧ Forall (λ e, id e ≠ Some "antibanner/5") (document s)
  ∧ ∀ css, toggleTab css s = Throw SyntaxError s
           ∧ toggleTab css s ≠ Normal s.
Proof.
  cbv zeta. split_and!.
  - by vm_compute.
  - simpl. repeat (apply list.Forall_cons; split; [done|]). apply Forall_nil.
  - intros css. split; [|done]. by vm_compute.
Qed.

Section whitelist.
Variable css : engine.

(** *** Switching to the whitelist tab *)

Lemma location_hash_fragment (s : t) (name : string) :
  fragment s = name → name ≠ "" → location_hash s = String number_sign name.
Proof.
  intros Hfrag Hne. unfold location_hash. rewrite Hfrag.
  by destruct (String.eqb_spec name "").
Qed.

(** What [leave_previous] does when the elements of the previous tab are in
    the document: it completes, hides the previous panel and leaves every
    other display, the attributes and the closure alone. *)
Lemma leave_previous_hides tabs (s : t) (prev : string) (p : nat) :
  prevTabId s = Some prev →
  prev ≠ "" →
  selects css prev (document s) p →
  is_antibanner prev = true
    ∨ (∃ nav, document_querySelectorDataTab css prev (document s)
              = Ret (Some nav)) →
  ∃ s', leave_previous css tabs s = Normal s'
        ∧ closure s' = closure s
        ∧ display_of s' p = Some "none"
        ∧ (∀ m, m ≠ p → display_of s' m = display_of s m)
        ∧ restyled (document s) (document s').
Proof.
  intros Hprev Hne [[e He] Hp] Hnav. unfold leave_previous. rewrite Hprev.
  destruct (String.eqb_spec prev "") as [|_]; [done|].
  destruct (is_antibanner prev) eqn:Hanti.
  - simpl. rewrite Hp by (by apply restyled_foldl). simpl.
    eexists. split; [done|]. split_and!.
    + done.
    + unfold display_of. simpl. apply display_set_eq.
      apply fmap_is_Some with (f := display).
      rewrite display_foldl_keep by done. rewrite He. by eexists.
    + intros m Hm. unfold display_of. simpl.
      rewrite display_set_ne by done. by apply display_foldl_keep.
    + simpl. apply restyled_alter; [by apply restyled_foldl|done].
  - destruct Hnav as [|[nav Hnav]]; [done|]. rewrite Hnav. simpl.
    rewrite Hp by (apply restyled_alter; [apply restyled_refl|done]). simpl.
    eexists. split; [done|]. split_and!.
    + done.
    + unfold display_of. simpl. apply display_set_eq.
      apply fmap_is_Some with (f := display).
      rewrite display_alter_keep by done. rewrite He. by eexists.
    + intros m Hm. unfold display_of. simpl.
      rewrite display_set_ne by done. by apply display_alter_keep.
    + simpl. apply restyled_alter; [|done].
      apply restyled_alter; [apply restyled_refl|done].
Qed.

(** Entering the whitelist tab from a state in which its panel [w] and its
    menu entry are in the document. *)
Lemma enter_whitelist tabs (s : t) (w : nat) :
  is_Some (querySelectorDataTab WHITELIST (document s)) →
  is_Some (document s !! w) →
  ∃ s', (enter css tabs WHITELIST s >>> on_element (Some w) (set_display "block")
         >>> λ s, Normal (notify WHITELIST s)) = Normal s'
        ∧ display_of s' w = Some "block"
        ∧ (∀ m, m ≠ w → display_of s' m = display_of s m)
        ∧ prevTabId s' = Some WHITELIST
        ∧ callbackCalls s'
          = callbackCalls s ++ (if onHashUpdatedCallback s then [WHITELIST] else []).
Proof.
  intros [nav Hnav] Hw. unfold enter.
  replace (is_antibanner WHITELIST) with false by (by vm_compute).
  rewrite document_querySelectorDataTab_plain by (by vm_compute).
  rewrite Hnav. simpl. eexists. split; [done|]. split_and!.
  - unfold display_of. simpl. apply display_set_eq.
    apply fmap_is_Some with (f := display).
    rewrite display_alter_keep by done. by apply fmap_is_Some.
  - intros m Hm. unfold display_of. simpl.
    rewrite display_set_ne by done. by apply display_alter_keep.
  - done.
  - simpl. destruct (onHashUpdatedCallback s); [done|by rewrite app_nil_r].
Qed.

Lemma resolve_whitelist (s : t) (w : nat) :
  fragment s = "whitelist" →
  querySelector WHITELIST (document s) = Some w →
  resolve css s = Ret (Some (WHITELIST, Some w)).
Proof.
  intros Hfrag Hw. unfold resolve.
  rewrite (location_hash_fragment s "whitelist") by done.
  change (if String.eqb (String number_sign "whitelist") ""
          then GENERAL_SETTINGS else String number_sign "whitelist")
    with WHITELIST.
  rewrite document_querySelector_plain by (by vm_compute).
  rewrite Hw. by vm_compute.
Qed.

(** C7: in one call of [toggleTab] the registered callback is called once,
    with the tab id, when the call completes on the tab [#whitelist], and is
    not called otherwise, whatever the engine does with the selectors that
    are its business.  With the hash [#whitelist], the whitelist panel and
    the elements of the previous tab being in the document, the call
    completes, the whitelist panel is shown, the panel of the previous tab is
    hidden and the callback is called once.  The previous tab id selects its
    panel whatever the styles, as every plain id that names an element
    does. *)
Theorem toggleTab_whitelist (s : t) :
  callbackCalls (final (toggleTab css s))
  = callbackCalls s ++
      (if completes (toggleTab css s)
          && bool_decide (resolved_tab css s = Some WHITELIST)
          && onHashUpdatedCallback s
       then [WHITELIST] else [])
  ∧ ∀ (w p : nat) (prev : string),
      fragment s = "whitelist" →
      onHashUpdatedCallback s = true →
      querySelector WHITELIST (document s) = Some w →
      is_Some (querySelectorDataTab WHITELIST (document s)) →
      prevTabId s = Some prev →
      prev ≠ "" →
      selects css prev (document s) p →
      is_antibanner prev = true
        ∨ (∃ nav, document_querySelectorDataTab css prev (document s)
                  = Ret (Some nav)) →
      p ≠ w →
      ∃ s', toggleTab css s = Normal s'
            ∧ resolved_tab css s = Some WHITELIST
            ∧ display_of s' w = Some "block"
            ∧ display_of s' p = Some "none"
            ∧ callbackCalls s' = callbackCalls s ++ [WHITELIST]
            ∧ prevTabId s' = Some WHITELIST.
Proof.
  split; [apply toggleTab_callback_calls|].
  intros w p prev Hfrag Hcb Hw Hnav Hprev Hne Hp Hpnav Hpw.
  unfold toggleTab, resolved_tab. rewrite (resolve_whitelist s w) by done.
  set (tabs := querySelectorAllDataTab ANTIBANNER (document s)).
  destruct (leave_previous_hides tabs s prev p) as (s1&->&Hcl&Hp1&Hother&Hattr);
    [done..|].
  injection Hcl as _ _ Hcb1 Hcalls1.
  destruct (enter_whitelist tabs s1 w) as (s2&Hs2&Hw2&Hother2&Hprev2&Hcalls2).
  { by rewrite (restyled_querySelectorDataTab _ _ _ Hattr). }
  { apply fmap_is_Some with (f := display).
    change (is_Some (display_of s1 w)). rewrite Hother by done.
    unfold display_of. apply fmap_is_Some. by eapply querySelector_Some. }
  exists s2. cbn [bind]. split; [exact Hs2|]. split_and!; try done.
  - by rewrite Hother2.
  - by rewrite Hcalls2, Hcb1, Hcb, Hcalls1.
Qed.

End whitelist.

Lemma toggleTab_whitelist_witness :
  let s := mk scenario_document "whitelist" (Some GENERAL_SETTINGS) true [] in
  ∃ s', toggleTab strict_engine s = Normal s'
        ∧ display_of s' 5 = Some "block"
        ∧ display_of s' 3 = Some "none"
        ∧ callbackCalls s' = [WHITELIST].
Proof.
  cbv zeta.
  destruct (proj2 (toggleTab_whitelist strict_engine
                     (mk scenario_document "whitelist" (Some GENERAL_SETTINGS) true []))
              5 3 GENERAL_SETTINGS) as (s'&H1&_&H2&H3&H4&_).
  - reflexivity.
  - reflexivity.
  - by vm_compute.
  - exists 2. by vm_compute.
  - reflexivity.
  - by vm_compute.
  - apply selects_plain; by vm_compute.
  - right. exists 0. by vm_compute.
  - lia.
  - exists s'. by split_and!.
Defined.

Section phases.
Variable css : engine.

(** *** The phases of a call that completes *)

Lemma on_element_Normal target f (s s' : t) :
  keeps_attributes f →
  on_element target f s = Normal s' →
  ∃ n, target = Some n ∧ closure s' = closure s
       ∧ document s' = alter f n (document s)
       ∧ restyled (document s) (document s').
Proof.
  intros Hf. destruct target as [n|]; [|done]. intros [= <-].
  exists n. split_and!; try done. simpl.
  apply restyled_alter; [apply restyled_refl|done].
Qed.

Lemma on_query_Normal r f (s s' : t) :
  keeps_attributes f →
  on_query r f s = Normal s' →
  ∃ n, r = Ret (Some n) ∧ closure s' = closure s
       ∧ document s' = alter f n (document s)
       ∧ restyled (document s) (document s').
Proof.
  intros Hf. destruct r as [target|e]; [|done]. simpl. intros Hs'.
  apply on_element_Normal in Hs' as (n&->&?&?&?); [|done]. by exists n.
Qed.

Lemma leave_previous_Normal tabs (s s1 : t) :
  leave_previous css tabs s = Normal s1 →
  closure s1 = closure s
  ∧ restyled (document s) (document s1)
  ∧ ((∀ m, display_of s1 m = display_of s m)
       ∧ (prevTabId s = None ∨ prevTabId s = Some "")
     ∨ ∃ prev p d0, prevTabId s = Some prev ∧ prev ≠ ""
                    ∧ restyled (document s) d0
                    ∧ document_querySelector css prev d0 = Ret (Some p)
                    ∧ (is_Some (document s !! p) → display_of s1 p = Some "none")
                    ∧ ∀ m, m ≠ p → display_of s1 m = display_of s m).
Proof.
  unfold leave_previous. destruct (prevTabId s) as [prev|] eqn:Hprev.
  2: { intros [= <-]. split_and!; [done|constructor|]. left. auto. }
  destruct (String.eqb_spec prev "") as [->|Hne].
  { intros [= <-]. split_and!; [done|constructor|]. left. auto. }
  intros Hs1.
  assert (∃ s0, restyled (document s) (document s0) ∧ closure s0 = closure s
                ∧ (∀ m, display_of s0 m = display_of s m)
                ∧ on_query (document_querySelector css prev (document s0))
                    (set_display "none") s0 = Normal s1) as (s0&Hr0&Hc0&Hd0&Hhide).
  { destruct (is_antibanner prev).
    - eexists. split_and!; [| | |exact Hs1]; simpl.
      + by apply restyled_foldl.
      + done.
      + intros m. by apply display_foldl_keep.
    - destruct (on_query (document_querySelectorDataTab css prev (document s))
                  (classList_remove "active") s) as [s0|] eqn:Hs0; [|done].
      apply on_query_Normal in Hs0 as (n&_&Hc&Hd&Hr); [|done].
      exists s0. split_and!; try done.
      intros m. unfold display_of. rewrite Hd. by apply display_alter_keep. }
  apply on_query_Normal in Hhide as (p&Hp&Hc1&Hd1&Hr1); [|done].
  split_and!.
  - congruence.
  - by eapply restyled_trans.
  - right. exists prev, p, (document s0). split_and!; try done.
    + intros Hsome. unfold display_of. rewrite Hd1. apply display_set_eq.
      by apply (restyled_is_Some _ _ _ Hr0).
    + intros m Hm. unfold display_of at 1. rewrite Hd1.
      rewrite display_set_ne by done. apply Hd0.
Qed.

Lemma enter_Normal tabs tabId (s s2 : t) :
  enter css tabs tabId s = Normal s2 →
  closure s2 = closure s
  ∧ restyled (document s) (document s2)
  ∧ ∀ m, display_of s2 m = display_of s m.
Proof.
  unfold enter. destruct (is_antibanner tabId).
  - intros [= <-]. split_and!; simpl.
    + done.
    + by apply restyled_foldl.
    + intros m. by apply display_foldl_keep.
  - intros Hs2. apply on_query_Normal in Hs2 as (n&_&Hc&Hd&Hr); [|done].
    split_and!; try done.
    intros m. unfold display_of. rewrite Hd. by apply display_alter_keep.
Qed.

Lemma show_Normal tab (s s3 : t) :
  on_element tab (set_display "block") s = Normal s3 →
  ∃ w, tab = Some w
       ∧ closure s3 = closure s
       ∧ restyled (document s) (document s3)
       ∧ (is_Some (document s !! w) → display_of s3 w = Some "block")
       ∧ ∀ m, m ≠ w → display_of s3 m = display_of s m.
Proof.
  intros Hs3. apply on_element_Normal in Hs3 as (w&->&Hc&Hd&Hr); [|done].
  exists w. split_and!; try done.
  - intros Hw. unfold display_of. rewrite Hd. by apply display_set_eq.
  - intros m Hm. unfold display_of. rewrite Hd. by apply display_set_ne.
Qed.

Lemma resolve_Some (s : t) (tabId : string) (tab : option nat) :
  resolve css s = Ret (Some (tabId, tab)) →
  tabId ≠ ""
  ∧ document_querySelector css tabId (document s) = Ret tab
  ∧ (tabId = GENERAL_SETTINGS ∨ tabId = location_hash s).
Proof.
  unfold resolve.
  set (hash := if String.eqb (location_hash s) "" then GENERAL_SETTINGS
               else location_hash s).
  assert (hash ≠ "" ∧ (hash = GENERAL_SETTINGS ∨ hash = location_hash s))
    as [Hhash Hcases].
  { unfold hash. destruct (String.eqb_spec (location_hash s) ""); auto. }
  destruct (document_querySelector css hash (document s)) as [tab0|e] eqn:Hq;
    [|done].
  destruct (is_antibanner hash && bool_decide (tab0 = None)); [done|].
  case_bool_decide.
  - destruct (document_querySelector css GENERAL_SETTINGS (document s))
      as [tab'|e] eqn:Hg; [|done].
    intros [= <- <-]. split_and!; [done|done|by left].
  - intros [= <- <-]. by split_and!.
Qed.

(** A call that completes and does not return at once, phase by phase. *)
Lemma toggleTab_Normal (s s' : t) :
  toggleTab css s = Normal s' →
  (resolve css s = Ret None ∧ s' = s)
  ∨ ∃ tabId tab s1 s2 s3,
      resolve css s = Ret (Some (tabId, tab))
      ∧ leave_previous css (querySelectorAllDataTab ANTIBANNER (document s)) s
        = Normal s1
      ∧ enter css (querySelectorAllDataTab ANTIBANNER (document s)) tabId s1
        = Normal s2
      ∧ on_element tab (set_display "block") s2 = Normal s3
      ∧ s' = notify tabId s3.
Proof.
  unfold toggleTab.
  destruct (resolve css s) as [[[tabId tab]|]|e]; [|intros [= <-]; by left|done].
  intros Hs'. right. exists tabId, tab.
  destruct (leave_previous _ _ s) as [s1|] eqn:H1; [|done]. simpl in Hs'.
  destruct (enter _ _ tabId s1) as [s2|] eqn:H2; [|done]. simpl in Hs'.
  destruct (on_element tab _ s2) as [s3|] eqn:H3; [|done]. simpl in Hs'.
  injection Hs' as <-. by exists s1, s2, s3.
Qed.

(** *** One panel at a time *)

Lemma plain_fragment_hash (s : t) :
  plain_fragment (fragment s) = true →
  location_hash s = "" ∨ is_plain (location_hash s) = true.
Proof.
  unfold plain_fragment, location_hash.
  destruct (String.eqb_spec (fragment s) "") as [|_]; [by left|].
  simpl. intros Hid. right. by apply is_plain_hash.
Qed.

Lemma one_panel_toggleTab (s s' : t) :
  one_panel s → plain_fragment (fragment s) = true →
  toggleTab css s = Normal s' → one_panel s'.
Proof.
  intros Hs Hplain Hs'.
  apply toggleTab_Normal in Hs' as [[_ ->]|(tabId&tab&s1&s2&s3&Hres&H1&H2&H3&->)];
    [done|].
  apply resolve_Some in Hres as (Hne&Htab&Hcases).
  assert (is_plain tabId = true) as Htabplain.
  { destruct Hcases as [->| ->]; [by vm_compute|].
    by destruct (plain_fragment_hash s Hplain). }
  rewrite document_querySelector_plain in Htab by done. injection Htab as <-.
  apply leave_previous_Normal in H1 as (Hc1&Hr1&Hd1).
  apply enter_Normal in H2 as (Hc2&Hr2&Hd2).
  apply show_Normal in H3 as (w&Hw&Hc3&Hr3&_&Hd3).
  assert (∀ m, ¬ shown s1 m) as Hnone.
  { intros m Hm. unfold shown in *.
    destruct Hd1 as [[Hsame Hprev]|(prev&p&d0&Hprev&Hprevne&Hr0&Hp&Hhidden&Hother)].
    - rewrite Hsame in Hm. destruct (Hs m Hm) as (tab'&Htab'&Hplain'&_).
      destruct Hprev as [Hprev|Hprev]; [congruence|].
      rewrite Hprev in Htab'. injection Htab' as <-. done.
    - destruct (decide (m = p)) as [->|Hmp].
      + rewrite Hhidden in Hm; [done|].
        apply (restyled_is_Some _ _ _ Hr1).
        apply fmap_is_Some with (f := display).
        change (is_Some (display_of s1 p)). by rewrite Hm.
      + rewrite Hother in Hm by done.
        destruct (Hs m Hm) as (tab'&Htab'&Hplain'&Hq).
        rewrite Hprev in Htab'. injection Htab' as <-.
        rewrite document_querySelector_plain in Hp by done.
        rewrite (restyled_querySelector _ _ _ Hr0) in Hp. congruence. }
  intros m Hm. unfold shown, display_of in Hm. simpl in Hm.
  exists tabId. split_and!; [done..|]. simpl.
  rewrite (restyled_querySelector (document s) (document s3)), Hw
    by eauto using restyled_trans.
  f_equal. destruct (decide (m = w)) as [->|Hmw]; [done|].
  destruct (Hnone m). unfold shown. rewrite <-Hd2, <-Hd3 by done. done.
Qed.

(** X12: when nothing is shown before [TopMenu] starts, then after every
    sequence of changes of the hash to plain ids (or to the empty hash)
    whose [toggleTab] calls complete, nothing is shown but the panel of the
    current tab: at most one panel of the page is visible at a time. *)
Theorem navigate_shows_one_panel (fragments : list string) (s s' : t) :
  (∀ n, ¬ shown s n) →
  Forall (λ f, plain_fragment f = true) fragments →
  navigate css fragments s = Normal s' →
  one_panel s' ∧ ∀ n m, shown s' n → shown s' m → n = m.
Proof.
  intros Hnone Hplain Hs'.
  assert (one_panel s') as Hone.
  { assert (one_panel s) as Hs by (intros n Hn; by destruct (Hnone n)).
    clear Hnone. revert s Hs Hs'.
    induction Hplain as [|f fragments Hf _ IH]; intros s Hs Hs'.
    - by injection Hs' as <-.
    - simpl in Hs'.
      destruct (toggleTab css (set_fragment f s)) as [s1|] eqn:H1; [|done].
      simpl in Hs'. apply (IH s1); [|done].
      by apply (one_panel_toggleTab (set_fragment f s)). }
  split; [done|]. intros n m Hn Hm.
  destruct (Hone n Hn) as (tab&Htab&_&Hqn), (Hone m Hm) as (tab'&Htab'&_&Hqm).
  congruence.
Qed.

End phases.

Lemma navigate_shows_one_panel_witness :
  let s := mk [ mkElement None (Some "#general-settings") [] "";
                mkElement None (Some "#whitelist") [] "";
                mkElement (Some "general-settings") None [] "";
                mkElement (Some "whitelist") None [] "" ] "" None true [] in
  ∃ s', navigate strict_engine [""; "whitelist"; "nowhere"; "whitelist"] s
        = Normal s'
        ∧ one_panel s' ∧ shown s' 3.
Proof.
  cbv zeta.
  match goal with |- context [navigate _ _ ?s] => set (s0 := s) end.
  assert (∀ n, ¬ shown s0 n) as Hnone.
  { intros n. unfold shown, display_of. simpl. by destruct n as [|[|[|[|n]]]]. }
  destruct (navigate _ _ s0) as [s'|e s'] eqn:Hnav; [|by vm_compute in Hnav].
  exists s'. split; [done|].
  destruct (navigate_shows_one_panel strict_engine
              [""; "whitelist"; "nowhere"; "whitelist"] s0 s' Hnone)
    as [Hone _]; [by repeat constructor|exact Hnav|].
  split; [done|]. revert Hnav. vm_compute. by intros [= <-].
Defined.

Section fallback.
Variable css : engine.

(** *** The default panel *)

Lemma resolve_general_settings (s : t) :
  is_antibanner (location_hash s) = false →
  location_hash s = ""
    ∨ document_querySelector css (location_hash s) (document s) = Ret None →
  resolve css s
  = Ret (Some (GENERAL_SETTINGS, querySelector GENERAL_SETTINGS (document s))).
Proof.
  intros Hanti Hnone. unfold resolve.
  assert (document_querySelector css GENERAL_SETTINGS (document s)
          = Ret (querySelector GENERAL_SETTINGS (document s))) as Hgeneral
    by (by apply document_querySelector_plain).
  destruct (String.eqb_spec (location_hash s) "") as [Hempty|Hne].
  - replace (is_antibanner GENERAL_SETTINGS) with false by (by vm_compute).
    rewrite Hgeneral. simpl. case_bool_decide as Hg; [by rewrite Hg|done].
  - destruct Hnone as [|Hnone]; [done|].
    by rewrite Hnone, Hanti, Hgeneral.
Qed.

(** X13: when the hash is empty, or names no element and does not start with
    [#antibanner], a call of [toggleTab] that completes has switched to
    [#general-settings]: that panel exists and is shown, it is the current
    tab, and the callback has not been called. *)
Theorem toggleTab_falls_back_to_general_settings (s s' : t) :
  is_antibanner (location_hash s) = false →
  location_hash s = ""
    ∨ document_querySelector css (location_hash s) (document s) = Ret None →
  toggleTab css s = Normal s' →
  resolved_tab css s = Some GENERAL_SETTINGS
  ∧ prevTabId s' = Some GENERAL_SETTINGS
  ∧ callbackCalls s' = callbackCalls s
  ∧ ∃ g, querySelector GENERAL_SETTINGS (document s) = Some g ∧ shown s' g.
Proof.
  intros Hanti Hnone Hs'.
  pose proof (resolve_general_settings s Hanti Hnone) as Hres.
  apply toggleTab_Normal in Hs' as [[Hdefer _]|(tabId&tab&s1&s2&s3&Hres'&H1&H2&H3&->)];
    [congruence|].
  rewrite Hres in Hres'. injection Hres' as <- <-.
  apply leave_previous_Normal in H1 as (Hc1&Hr1&_).
  apply enter_Normal in H2 as (Hc2&Hr2&_).
  apply show_Normal in H3 as (g&Hg&Hc3&Hr3&Hshown&_).
  injection Hc1 as _ _ _ Hcalls1. injection Hc2 as _ _ _ Hcalls2.
  injection Hc3 as _ _ _ Hcalls3.
  split_and!.
  - unfold resolved_tab. by rewrite Hres.
  - done.
  - simpl. congruence.
  - exists g. split; [done|]. unfold shown, display_of. simpl. apply Hshown.
    apply (restyled_is_Some (document s)); [by eapply restyled_trans|].
    apply (querySelector_Some GENERAL_SETTINGS). exact Hg.
Qed.

(** The exceptions of the phases when the tab ids are plain: a missing
    element, and nothing else. *)
Lemma on_element_Throw target f (s s' : t) (e : error) :
  on_element target f s = Throw e s' → e = TypeError.
Proof. destruct target; [done|]. by intros [= <- _]. Qed.

Lemma leave_previous_Throw tabs (s s' : t) (e : error) :
  (∀ prev, prevTabId s = Some prev → prev = "" ∨ is_plain prev = true) →
  leave_previous css tabs s = Throw e s' → e = TypeError.
Proof.
  intros Hplain. unfold leave_previous.
  destruct (prevTabId s) as [prev|]; [|done].
  destruct (Hplain prev eq_refl) as [->|Hprev]; [done|].
  destruct (String.eqb prev ""); [done|].
  rewrite document_querySelectorDataTab_plain by done.
  destruct (if is_antibanner prev then _ else _) as [s0|e0 s0] eqn:Hfirst; simpl.
  - rewrite document_querySelector_plain by done. apply on_element_Throw.
  - intros [= <- _]. destruct (is_antibanner prev); [done|].
    by apply on_element_Throw in Hfirst.
Qed.

Lemma enter_Throw tabs tabId (s s' : t) (e : error) :
  is_plain tabId = true →
  enter css tabs tabId s = Throw e s' → e = TypeError.
Proof.
  intros Hplain. unfold enter. destruct (is_antibanner tabId); [done|].
  rewrite document_querySelectorDataTab_plain by done. apply on_element_Throw.
Qed.

(** X14: when the hash is empty, or names no element and does not start with
    [#antibanner], and [#general-settings] names no element either,
    [toggleTab] throws; the current tab and the record of callback calls are
    what they were.  The exception is a [TypeError] when the id of the
    previous tab is plain. *)
Theorem toggleTab_throws_without_panel (s : t) :
  is_antibanner (location_hash s) = false →
  location_hash s = ""
    ∨ document_querySelector css (location_hash s) (document s) = Ret None →
  querySelector GENERAL_SETTINGS (document s) = None →
  ∃ e s', toggleTab css s = Throw e s'
          ∧ prevTabId s' = prevTabId s
          ∧ callbackCalls s' = callbackCalls s
          ∧ ((∀ prev, prevTabId s = Some prev → prev = "" ∨ is_plain prev = true) →
             e = TypeError).
Proof.
  intros Hanti Hnone Hgeneral.
  pose proof (resolve_general_settings s Hanti Hnone) as Hres.
  rewrite Hgeneral in Hres. unfold toggleTab. rewrite Hres.
  set (tabs := querySelectorAllDataTab ANTIBANNER (document s)).
  pose proof (leave_previous_closure css tabs s) as Hleave.
  destruct (leave_previous css tabs s) as [s1|e1 s1] eqn:H1; simpl in *.
  2: { exists e1, s1. injection Hleave as _ Hprev _ Hcalls.
       split_and!; [done..|]. intros Hplain.
       by eapply leave_previous_Throw. }
  pose proof (enter_closure css tabs GENERAL_SETTINGS s1) as Henter.
  destruct (enter css tabs GENERAL_SETTINGS s1) as [s2|e2 s2] eqn:H2; simpl in *.
  - exists TypeError, s2. injection Hleave as _ Hprev _ Hcalls.
    injection Henter as _ Hprev2 _ Hcalls2. split_and!; [done|congruence..|done].
  - exists e2, s2. injection Hleave as _ Hprev _ Hcalls.
    injection Henter as _ Hprev2 _ Hcalls2. split_and!; [done|congruence..|].
    intros _. by eapply (enter_Throw tabs GENERAL_SETTINGS s1).
Qed.

End fallback.

Lemma toggleTab_falls_back_to_general_settings_witness :
  let s := mk scenario_document "no-such-panel" (Some WHITELIST) true [] in
  ∃ s', toggleTab strict_engine s = Normal s'
        ∧ prevTabId s' = Some GENERAL_SETTINGS ∧ callbackCalls s' = [].
Proof.
  cbv zeta.
  set (s0 := mk scenario_document "no-such-panel" (Some WHITELIST) true []).
  assert (is_antibanner (location_hash s0) = false) as Hanti by (by vm_compute).
  assert (location_hash s0 = ""
          ∨ document_querySelector strict_engine (location_hash s0) (document s0)
            = Ret None) as Hnone by (right; by vm_compute).
  destruct (toggleTab strict_engine s0) as [s'|e s'] eqn:Hs'; [|by vm_compute in Hs'].
  exists s'. split; [done|].
  by destruct (toggleTab_falls_back_to_general_settings strict_engine s0 s'
                 Hanti Hnone Hs') as (_&Hprev&Hcalls&_).
Defined.

Lemma toggleTab_throws_without_panel_witness :
  ∃ s', toggleTab strict_engine (mk [] "whitelist" None true [])
        = Throw TypeError s'.
Proof.
  destruct (toggleTab_throws_without_panel strict_engine
              (mk [] "whitelist" None true []))
    as (e&s'&Hs'&_&_&He); [by vm_compute|right; by vm_compute|by vm_compute|].
  exists s'. rewrite Hs'. f_equal. by apply He.
Defined.

(** *** The highlight of the filters entry *)

Lemma foldl_alter_kept {A} (P : A → Prop) (f : A → A) (nodes : list nat)
    (d : list A) (n : nat) (e : A) :
  (∀ x, P x → P (f x)) →
  d !! n = Some e → P e →
  ∃ e', foldl (λ d n, alter f n d) d nodes !! n = Some e' ∧ P e'.
Proof.
  intros Hf. revert d e. induction nodes as [|x nodes IH]; intros d e Hn He.
  - by exists e.
  - simpl. destruct (decide (x = n)) as [->|Hne].
    + apply (IH _ (f e)); [|by apply Hf]. by rewrite list_lookup_alter_eq, Hn.
    + apply (IH _ e); [|done]. by rewrite list_lookup_alter_ne.
Qed.

Lemma foldl_alter_reached {A} (P : A → Prop) (f : A → A) (nodes : list nat)
    (d : list A) (n : nat) :
  (∀ x, P (f x)) →
  n ∈ nodes → is_Some (d !! n) →
  ∃ e', foldl (λ d n, alter f n d) d nodes !! n = Some e' ∧ P e'.
Proof.
  intros Hf. revert d. induction nodes as [|x nodes IH]; intros d Hin [e He].
  - by apply elem_of_nil in Hin.
  - simpl. destruct (decide (x = n)) as [->|Hne].
    + apply (foldl_alter_kept P f nodes _ n (f e)); [by intros|..|done].
      by rewrite list_lookup_alter_eq, He.
    + apply elem_of_cons in Hin as [->|Hin]; [done|].
      apply IH; [done|]. rewrite list_lookup_alter_ne by done. by exists e.
Qed.

Lemma restyled_dataTab (d d' : list Element) (n : nat) :
  restyled d d' → d' !! n ≫= dataTab = d !! n ≫= dataTab.
Proof.
  induction 1 as [|d d' f m _ IH Hf]; [done|]. rewrite <-IH.
  rewrite list_lookup_alter. case_decide as Hnm; [subst m|done].
  destruct (d' !! n) as [e|]; [|done]. simpl. apply Hf.
Qed.

Lemma restyled_querySelectorAllDataTab (d d' : list Element) (v : string) :
  restyled d d' → querySelectorAllDataTab v d' = querySelectorAllDataTab v d.
Proof.
  intros Hr. unfold querySelectorAllDataTab. rewrite (restyled_length d d') by done.
  apply list_filter_iff. intros n. by rewrite (restyled_dataTab d d').
Qed.

Lemma querySelectorAllDataTab_elem (d : list Element) (v : string) (n : nat) :
  n ∈ querySelectorAllDataTab v d ↔ d !! n ≫= dataTab = Some v.
Proof.
  unfold querySelectorAllDataTab. rewrite list_elem_of_filter, elem_of_seq.
  split; [by intros [? _]|]. intros Hn. split; [done|].
  destruct (d !! n) as [e|] eqn:He; [|done].
  apply lookup_lt_Some in He. lia.
Qed.

Lemma querySelectorDataTab_Some (d : list Element) (v : string) (n : nat) :
  querySelectorDataTab v d = Some n → d !! n ≫= dataTab = Some v.
Proof.
  unfold querySelectorDataTab.
  destruct (list_find _ d) as [[i e]|] eqn:Hfind; [|done].
  intros [= <-]. apply list_find_Some in Hfind as (He&Hv&_). by rewrite He.
Qed.

Lemma classList_add_has c e : c ∈ classList (classList_add c e).
Proof.
  simpl. case_bool_decide; [done|]. apply elem_of_app. right.
  apply list_elem_of_here.
Qed.

Lemma classList_remove_lacks c e : c ∉ classList (classList_remove c e).
Proof. simpl. rewrite list_elem_of_filter. by intros [? _]. Qed.

Section highlight.
Variable css : engine.

(** X15: a call of [toggleTab] that completes on a tab whose id starts with
    [#antibanner] leaves every menu entry for [#antibanner] highlighted, for
    the filters page and for each of its category panels alike; a call that
    leaves such a tab for a tab with a plain id that does not start with
    [#antibanner] leaves none of them highlighted. *)
Theorem toggleTab_filters_entry_highlight (s s' : t) (tabId : string) :
  toggleTab css s = Normal s' →
  resolved_tab css s = Some tabId →
  (is_antibanner tabId = true →
   ∀ n, n ∈ querySelectorAllDataTab ANTIBANNER (document s') →
        has_class s' n "active")
  ∧ (is_antibanner tabId = false → is_plain tabId = true →
     ∀ prev, prevTabId s = Some prev → is_antibanner prev = true →
     ∀ n, n ∈ querySelectorAllDataTab ANTIBANNER (document s') →
          ¬ has_class s' n "active").
Proof.
  intros Hs' Hres. unfold resolved_tab in Hres.
  apply (toggleTab_Normal css) in Hs'
    as [[Hdefer _]|(tabId'&tab&s1&s2&s3&Hres'&H1&H2&H3&->)].
  { by rewrite Hdefer in Hres. }
  rewrite Hres' in Hres. injection Hres as ->.
  set (tabs := querySelectorAllDataTab ANTIBANNER (document s)) in *.
  pose proof H1 as H1'. apply leave_previous_Normal in H1' as (_&Hr1&_).
  pose proof H2 as H2'. apply enter_Normal in H2' as (_&Hr2&_).
  apply on_element_Normal in H3 as (w&_&_&Hd3&Hr3); [|done].
  assert (restyled (document s) (document s3)) as Hr
    by eauto using restyled_trans.
  unfold has_class. simpl. rewrite (restyled_querySelectorAllDataTab _ _ _ Hr).
  fold tabs. split.
  - intros Hanti n Hn. unfold enter in H2. rewrite Hanti in H2.
    injection H2 as <-. rewrite Hd3. simpl.
    destruct (foldl_alter_reached (λ e, "active" ∈ classList e)
                (classList_add "active") tabs (document s1) n) as (e&He&Hactive).
    + intros e. apply classList_add_has.
    + done.
    + apply (restyled_is_Some (document s)); [done|].
      apply querySelectorAllDataTab_elem in Hn. by destruct (document s !! n).
    + destruct (decide (w = n)) as [->|Hwn].
      * exists (set_display "block" e). by rewrite list_lookup_alter_eq, He.
      * exists e. by rewrite list_lookup_alter_ne.
  - intros Hanti Hplain prev Hprev Hprevanti n Hn (e&He&Hactive).
    assert (prev ≠ "") as Hne by (by intros ->).
    unfold leave_previous in H1. rewrite Hprev, Hprevanti in H1.
    destruct (String.eqb_spec prev "") as [|_]; [done|]. simpl in H1.
    apply on_query_Normal in H1 as (p&_&_&Hd1&_); [|done]. simpl in Hd1.
    unfold enter in H2. rewrite Hanti in H2.
    rewrite document_querySelectorDataTab_plain in H2 by done.
    apply on_element_Normal in H2 as (nav&Hnav&_&Hd2&_); [|done].
    apply querySelectorDataTab_Some in Hnav.
    rewrite (restyled_dataTab (document s) (document s1)) in Hnav by done.
    apply querySelectorAllDataTab_elem in Hn as Hn'.
    assert (nav ≠ n) as Hnavn.
    { intros ->. rewrite Hn' in Hnav. injection Hnav as <-. by vm_compute in Hanti. }
    destruct (foldl_alter_reached (λ e, "active" ∉ classList e)
                (classList_remove "active") tabs (document s) n) as (e0&He0&Hlacks).
    + intros e'. apply classList_remove_lacks.
    + done.
    + by destruct (document s !! n).
    + rewrite Hd3, Hd2, Hd1 in He.
      assert (classList <$> Some e = classList <$> Some e0) as [= Heq]; [|congruence].
      rewrite <-He0, <-He.
      rewrite !list_lookup_alter. rewrite (decide_False (P := nav = n)) by done.
      repeat case_decide; subst; try done;
        by destruct (foldl _ _ _ !! n).
Qed.

End highlight.

Lemma toggleTab_filters_entry_highlight_witness :
  let s := mk scenario_document "antibanner" (Some WHITELIST) true [] in
  has_class (final (toggleTab strict_engine s)) 1 "active".
Proof.
  cbv zeta.
  set (s0 := mk scenario_document "antibanner" (Some WHITELIST) true []).
  destruct (toggleTab strict_engine s0) as [s'|e s'] eqn:Hs'; [|by vm_compute in Hs'].
  destruct (toggleTab_filters_entry_highlight strict_engine s0 s' ANTIBANNER Hs')
    as [Hon _]; [by vm_compute|].
  apply Hon; [by vm_compute|].
  apply querySelectorAllDataTab_elem. revert Hs'. vm_compute. by intros [= <-].
Defined.

End TopMenuFacts.

(** ** The checkbox decoration *)

Module CheckboxUtilsFacts.
Import Js CheckboxUtils.

(** *** Changes of one element and what they leave alone *)

Lemma fmap_alter_keep {A B} (g : A → B) (f : A → A) (i : nat) (l : list A) :
  (∀ x, g (f x) = g x) → g <$> alter f i l = g <$> l.
Proof.
  intros Hf. revert i. induction l as [|x l IH]; intros [|i]; simpl; [done..| |].
  - by rewrite Hf.
  - f_equal. apply IH.
Qed.

Lemma sum_alter_keep {A} (g : A → nat) (f : A → A) (i : nat) (l : list A) :
  (∀ x, g (f x) = g x) → sum_list_with g (alter f i l) = sum_list_with g l.
Proof.
  intros Hf. revert i. induction l as [|x l IH]; intros [|i]; simpl; [done..| |].
  - by rewrite Hf.
  - f_equal. apply IH.
Qed.

Lemma sum_alter {A} (g : A → nat) (f : A → A) (i : nat) (l : list A) (x : A) :
  l !! i = Some x →
  sum_list_with g (alter f i l) + g x = sum_list_with g l + g (f x).
Proof.
  revert i. induction l as [|y l IH]; intros [|i] Hi; simplify_eq/=; [lia|].
  specialize (IH i Hi). lia.
Qed.

#[local] Hint Constructors neutral : core.

Lemma neutral_attributes f e : neutral f → attributes (f e) = attributes e.
Proof. by intros []. Qed.

Lemma neutral_toggler_class f e :
  neutral f → "toggler" ∈ classList (f e) ↔ "toggler" ∈ classList e.
Proof.
  intros []; simpl; try done.
  - case_bool_decide; [done|]. rewrite elem_of_app, list_elem_of_singleton.
    split; [|by left]. by intros [?|?].
  - rewrite list_elem_of_filter. split; [by intros [_ ?]|]. by intros Hin.
Qed.

Lemma neutral_toggler_clicks f c e :
  neutral f → toggler_clicks c (f e) = toggler_clicks c e.
Proof.
  intros []; try done. unfold toggler_clicks. simpl.
  rewrite list.filter_app, length_app, filter_cons_False by done. simpl. lia.
Qed.

Lemma onClicked_Normal el b d d' :
  onClicked el b d = Normal d' →
  ∃ f li, neutral f ∧ d' = alter f li (alter f el d).
Proof.
  unfold onClicked. destruct (closest _ _ _) as [li|]; [|done].
  intros [= <-]. eexists _, li. split; [|done]. destruct b; constructor.
Qed.

(** *** One decoration *)

(** The store after a decoration that took place, step by step. *)
Lemma decorate_Normal (c : node) (d d' : list Element) :
  is_decorated d c = false →
  decorate c d = Normal d' →
  ∃ cb p f li ref,
    d !! c = Some cb ∧ parentNode cb = Some p ∧ neutral f ∧
    d' = alter (setAttribute "toggleCheckbox" "true") c
           (alter f li (alter f (length d)
             (alter (set_display "none") c
               (alter (addEventListener "change" (CheckboxChange c (length d))) c
                 (alter (addEventListener "click" (TogglerClick c)) (length d)
                   (insertBefore p (length d) ref (d ++ [toggler]))))))).
Proof.
  unfold is_decorated, decorate. intros Hdec.
  destruct (d !! c) as [cb|] eqn:Hc; [|done].
  change (attributes <$> Some cb) with (Some (attributes cb)) in Hdec.
  rewrite Hdec.
  destruct (parentNode cb) as [p|] eqn:Hp; [|done]. intros Hd'.
  destruct (onClicked _ _ _) as [d6|] eqn:Hclicked; [|done].
  apply onClicked_Normal in Hclicked as (f&li&Hf&->).
  injection Hd' as <-. by eexists cb, p, f, li, _.
Qed.

Lemma decorate_decorated (c : node) (d : list Element) :
  is_decorated d c = true → decorate c d = Normal d.
Proof.
  unfold is_decorated, decorate. destruct (d !! c) as [cb|]; [|done].
  change (attributes <$> Some cb) with (Some (attributes cb)). by intros ->.
Qed.

Lemma attributes_pipeline (c : node) (d d' : list Element) :
  is_decorated d c = false →
  decorate c d = Normal d' →
  attributes <$> d'
  = alter (<["toggleCheckbox" := "true"]>) c ((attributes <$> d) ++ [∅]).
Proof.
  intros Hdec Hd'.
  destruct (decorate_Normal c d d' Hdec Hd') as (cb&p&f&li&ref&Hc&Hp&Hf&->).
  rewrite (list_fmap_alter attributes _ (<["toggleCheckbox" := "true"]>))
    by (by apply Forall_true).
  f_equal. unfold insertBefore.
  rewrite !fmap_alter_keep by (intros; first [done|by apply neutral_attributes]).
  by rewrite fmap_app.
Qed.

Lemma decorate_marks (c : node) (d d' : list Element) (c' : node) :
  decorate c d = Normal d' →
  is_decorated d' c' = is_decorated d c' || bool_decide (c' = c).
Proof.
  intros Hd'. destruct (is_decorated d c) eqn:Hdec.
  - rewrite decorate_decorated in Hd' by done. injection Hd' as <-.
    case_bool_decide; [subst c'; by rewrite Hdec|by rewrite orb_false_r].
  - pose proof (attributes_pipeline c d d' Hdec Hd') as Hattrs.
    destruct (decorate_Normal c d d' Hdec Hd') as (cb&p&_&_&_&Hc&_).
    clear Hd'. unfold is_decorated in *.
    rewrite <-!list_lookup_fmap, Hattrs.
    assert (c < length (attributes <$> d)) as Hlt.
    { rewrite length_fmap. by eapply lookup_lt_Some. }
    case_bool_decide as Hcc.
    + subst c'. rewrite orb_true_r, list_lookup_alter_eq.
      rewrite lookup_app_l by done.
      rewrite list_lookup_fmap, Hc. unfold attribute_truthy. simpl.
      by rewrite lookup_insert_eq.
    + rewrite orb_false_r, list_lookup_alter_ne by done.
      destruct (decide (c' < length (attributes <$> d))) as [Hc'|Hc'].
      * by rewrite lookup_app_l.
      * rewrite lookup_app_r by lia.
        rewrite (lookup_ge_None_2 (attributes <$> d)) by lia.
        by destruct (c' - length (attributes <$> d)) as [|[|?]].
Qed.

(** *** Counting what a decoration adds *)

Section measure.
Variable g : node → Element → nat.
Hypothesis g_neutral : ∀ c f e, neutral f → g c (f e) = g c e.
Hypothesis g_attribute : ∀ c n v e, g c (setAttribute n v e) = g c e.
Hypothesis g_toggler : ∀ c, g c toggler = 0.
Hypothesis g_click : ∀ c c' e,
  "toggler" ∈ classList e →
  listeners e = [] →
  g c (addEventListener "click" (TogglerClick c') e)
  = g c e + (if bool_decide (c = c') then 1 else 0).

Lemma decorate_measure (c : node) (d d' : list Element) (c' : node) :
  is_decorated d c = false →
  decorate c d = Normal d' →
  sum_list_with (g c') d'
  = sum_list_with (g c') d + (if bool_decide (c' = c) then 1 else 0).
Proof.
  intros Hdec Hd'.
  destruct (decorate_Normal c d d' Hdec Hd') as (cb&p&f&li&ref&Hc&Hp&Hf&->).
  rewrite sum_alter_keep by apply g_attribute.
  rewrite !sum_alter_keep by (intros; by apply g_neutral).
  set (d1 := insertBefore p (length d) ref (d ++ [toggler])).
  assert (sum_list_with (g c') d1 = sum_list_with (g c') d) as Hd1.
  { unfold d1, insertBefore.
    rewrite sum_alter_keep by (intros; by apply g_neutral).
    rewrite sum_alter_keep
      by (intros x;
          apply (g_neutral c' (λ pe, set_childNodes
                   (insert_before (length d) ref (childNodes pe)) pe) x
                   (neutral_children _))).
    rewrite sum_list_with_app. simpl. rewrite g_toggler. lia. }
  assert (classList <$> d1 !! length d = Some ["toggler"]) as Hclass.
  { rewrite <-list_lookup_fmap. unfold d1, insertBefore.
    rewrite !fmap_alter_keep by done.
    rewrite list_lookup_fmap, lookup_app_r by done.
    by rewrite Nat.sub_diag. }
  assert (listeners <$> d1 !! length d = Some []) as Hnone.
  { rewrite <-list_lookup_fmap. unfold d1, insertBefore.
    rewrite !fmap_alter_keep by done.
    rewrite list_lookup_fmap, lookup_app_r by done.
    by rewrite Nat.sub_diag. }
  destruct (d1 !! length d) as [x|] eqn:Hx; [|done].
  injection Hclass as Hclass. injection Hnone as Hnone.
  pose proof (sum_alter (g c') (addEventListener "click" (TogglerClick c))
                (length d) d1 x Hx) as Hsum.
  rewrite g_click in Hsum by (done || rewrite Hclass; apply list_elem_of_here).
  lia.
Qed.

Lemma toggleCheckbox_measure (elements : list node) (d d' : list Element) (c : node) :
  toggleCheckbox elements d = Normal d' →
  sum_list_with (g c) d'
  = sum_list_with (g c) d
    + (if is_decorated d c then 0
       else if bool_decide (c ∈ elements) then 1 else 0).
Proof.
  revert d. induction elements as [|x elements IH]; intros d Hd'.
  - injection Hd' as <-.
    rewrite (bool_decide_eq_false_2 (c ∈ [])) by apply not_elem_of_nil.
    destruct (is_decorated d c); lia.
  - simpl in Hd'. destruct (decorate x d) as [d1|] eqn:Hx; [|done].
    simpl in Hd'. rewrite (IH d1 Hd'), (decorate_marks x d d1 c Hx).
    destruct (is_decorated d x) eqn:Hdx.
    + rewrite decorate_decorated in Hx by done. injection Hx as <-.
      destruct (is_decorated d c) eqn:Hdc; [done|].
      destruct (decide (c = x)) as [->|Hcx]; [congruence|].
      rewrite (bool_decide_eq_false_2 (c = x)) by done. simpl.
      rewrite (bool_decide_ext (c ∈ x :: elements) (c ∈ elements)); [done|].
      rewrite elem_of_cons. split; [by intros [?|?]|by right].
    + rewrite (decorate_measure x d d1 c Hdx Hx).
      destruct (decide (c = x)) as [->|Hcx].
      * rewrite Hdx, (bool_decide_eq_true_2 (x = x)) by done.
        rewrite (bool_decide_eq_true_2 (x ∈ x :: elements))
          by apply list_elem_of_here.
        simpl. lia.
      * rewrite (bool_decide_eq_false_2 (c = x)) by done.
        rewrite orb_false_r, Nat.add_0_r.
        rewrite (bool_decide_ext (c ∈ x :: elements) (c ∈ elements)); [done|].
        rewrite elem_of_cons. split; [by intros [?|?]|by right].
Qed.
End measure.

(** *** The two measures *)

Lemma toggler_clicks_click (c c' : node) (e : Element) :
  toggler_clicks c (addEventListener "click" (TogglerClick c') e)
  = toggler_clicks c e + (if bool_decide (c = c') then 1 else 0).
Proof.
  unfold toggler_clicks. simpl. rewrite list.filter_app, length_app. f_equal.
  rewrite filter_cons, filter_nil.
  destruct (decide (c = c')) as [->|Hne].
  - rewrite bool_decide_eq_true_2 by done. by rewrite decide_True.
  - rewrite bool_decide_eq_false_2 by done. rewrite decide_False; [done|].
    congruence.
Qed.

Lemma click_listeners_toggleCheckbox (elements : list node) (d d' : list Element)
    (c : node) :
  toggleCheckbox elements d = Normal d' →
  click_listeners d' c
  = click_listeners d c
    + (if is_decorated d c then 0 else if bool_decide (c ∈ elements) then 1 else 0).
Proof.
  apply (toggleCheckbox_measure toggler_clicks).
  - intros. by apply neutral_toggler_clicks.
  - done.
  - done.
  - intros. apply toggler_clicks_click.
Qed.

Lemma is_toggler_of_neutral c f e :
  neutral f → is_toggler_of c (f e) = is_toggler_of c e.
Proof.
  intros Hf. unfold is_toggler_of. rewrite neutral_toggler_clicks by done.
  rewrite (bool_decide_ext _ ("toggler" ∈ classList e ∧ 0 < toggler_clicks c e));
    [done|].
  by rewrite neutral_toggler_class.
Qed.

Lemma toggler_elements_toggleCheckbox (elements : list node) (d d' : list Element)
    (c : node) :
  toggleCheckbox elements d = Normal d' →
  toggler_elements d' c
  = toggler_elements d c
    + (if is_decorated d c then 0 else if bool_decide (c ∈ elements) then 1 else 0).
Proof.
  apply (toggleCheckbox_measure is_toggler_of).
  - intros. by apply is_toggler_of_neutral.
  - done.
  - done.
  - intros c1 c2 e Hclass Hnone. unfold is_toggler_of.
    rewrite toggler_clicks_click. unfold toggler_clicks. rewrite Hnone. simpl.
    rewrite (bool_decide_eq_false_2 (_ ∧ 0 < 0)) by lia.
    destruct (decide (c1 = c2)) as [->|Hne].
    + rewrite (bool_decide_eq_true_2 (c2 = c2)) by done.
      by rewrite bool_decide_eq_true_2 by (split; [done|lia]).
    + rewrite (bool_decide_eq_false_2 (c1 = c2)) by done.
      by rewrite bool_decide_eq_false_2 by lia.
Qed.

Lemma toggler_elements_le (d : list Element) (c : node) :
  toggler_elements d c ≤ click_listeners d c.
Proof.
  unfold toggler_elements, click_listeners.
  induction d as [|e d IH]; simpl; [done|].
  unfold is_toggler_of at 1. case_bool_decide; lia.
Qed.

(** *** Idempotence *)

Lemma toggleCheckbox_marks (elements : list node) (d d' : list Element) (c : node) :
  toggleCheckbox elements d = Normal d' →
  is_decorated d' c = is_decorated d c || bool_decide (c ∈ elements).
Proof.
  revert d. induction elements as [|x elements IH]; intros d Hd'.
  - injection Hd' as <-.
    rewrite (bool_decide_eq_false_2 (c ∈ [])) by apply not_elem_of_nil.
    by rewrite orb_false_r.
  - simpl in Hd'. destruct (decorate x d) as [d1|] eqn:Hx; [|done].
    simpl in Hd'. rewrite (IH d1 Hd'), (decorate_marks x d d1 c Hx).
    rewrite <-orb_assoc. f_equal.
    rewrite (bool_decide_ext (c ∈ x :: elements) (c = x ∨ c ∈ elements))
      by apply elem_of_cons.
    by rewrite bool_decide_or.
Qed.

Lemma toggleCheckbox_decorated (elements : list node) (d : list Element) :
  (∀ c, c ∈ elements → is_decorated d c = true) →
  toggleCheckbox elements d = Normal d.
Proof.
  induction elements as [|x elements IH]; intros Hall; [done|].
  simpl. rewrite decorate_decorated by apply Hall, list_elem_of_here.
  simpl. apply IH. intros c Hc. by apply Hall, list_elem_of_further.
Qed.

(** C5: after [toggleCheckbox] has decorated a collection of checkboxes,
    calling it again on the collection, or on any part of it, completes and
    returns the page as it is.  A checkbox of the collection that had no mark
    and no toggler before has one toggler element afterwards, with one click
    listener. *)
Theorem toggleCheckbox_idempotent (elements : list node) (d d' : list Element) :
  toggleCheckbox elements d = Normal d' →
  toggleCheckbox elements d' = Normal d'
  ∧ (∀ again, (∀ c, c ∈ again → c ∈ elements) →
              toggleCheckbox again d' = Normal d')
  ∧ (∀ c, c ∈ elements →
          is_decorated d c = false →
          click_listeners d c = 0 →
          click_listeners d' c = 1 ∧ toggler_elements d' c = 1).
Proof.
  intros Hd'.
  assert (∀ again, (∀ c, c ∈ again → c ∈ elements) →
                   toggleCheckbox again d' = Normal d') as Hagain.
  { intros again Hsub. apply toggleCheckbox_decorated. intros c Hc.
    rewrite (toggleCheckbox_marks elements d d' c Hd').
    rewrite (bool_decide_eq_true_2 (c ∈ elements)) by by apply Hsub.
    apply orb_true_r. }
  split_and!; [by apply Hagain|done|].
  intros c Hc Hdec Hnone.
  rewrite (click_listeners_toggleCheckbox elements d d' c Hd').
  rewrite (toggler_elements_toggleCheckbox elements d d' c Hd').
  rewrite Hdec, bool_decide_eq_true_2 by done.
  pose proof (toggler_elements_le d c). lia.
Qed.

Lemma toggleCheckbox_idempotent_witness :
  toggleCheckbox [2; 2] scenario_page = Normal scenario_page_decorated
  ∧ toggleCheckbox [2; 2] scenario_page_decorated = Normal scenario_page_decorated
  ∧ toggleCheckbox [2] scenario_page_decorated = Normal scenario_page_decorated
  ∧ length scenario_page_decorated = 4
  ∧ click_listeners scenario_page_decorated 2 = 1
  ∧ toggler_elements scenario_page_decorated 2 = 1.
Proof.
  assert (toggleCheckbox [2; 2] scenario_page = Normal scenario_page_decorated)
    as Hfirst by (by vm_compute).
  destruct (toggleCheckbox_idempotent [2; 2] scenario_page
              scenario_page_decorated Hfirst) as (Hagain&Hpart&Hone).
  destruct (Hone 2) as [Hclicks Htogglers].
  - apply list_elem_of_here.
  - by vm_compute.
  - by vm_compute.
  - assert (toggleCheckbox [2] scenario_page_decorated
            = Normal scenario_page_decorated) as Hsingle.
    { apply Hpart. intros c ->%list_elem_of_singleton. apply list_elem_of_here. }
    by split_and!.
Defined.

(** *** [updateCheckbox] *)

Lemma mark_checked_attribute (c : value) (e : Element) :
  attributes (mark_checked c e) !! "checked"
  = if truthy c then Some "checked" else None.
Proof.
  unfold mark_checked. destruct (truthy c); simpl.
  - by rewrite lookup_insert_eq.
  - by rewrite lookup_delete_eq.
Qed.

Lemma mark_checked_other (c : value) (name : string) (e : Element) :
  name ≠ "checked" →
  attributes (mark_checked c e) !! name = attributes e !! name.
Proof.
  intros Hne. unfold mark_checked. destruct (truthy c); simpl.
  - by rewrite lookup_insert_ne.
  - by rewrite lookup_delete_ne.
Qed.

Lemma mark_checked_rest (c : value) (e : Element) :
  tagName (mark_checked c e) = tagName e
  ∧ classList (mark_checked c e) = classList e
  ∧ parentNode (mark_checked c e) = parentNode e
  ∧ listeners (mark_checked c e) = listeners e.
Proof. unfold mark_checked. by destruct (truthy c). Qed.

Lemma mark_active_rest (c : value) (e : Element) :
  tagName (mark_active c e) = tagName e
  ∧ attributes (mark_active c e) = attributes e
  ∧ parentNode (mark_active c e) = parentNode e
  ∧ listeners (mark_active c e) = listeners e.
Proof. unfold mark_active. by destruct (truthy c). Qed.

Lemma mark_active_class (c : value) (e : Element) :
  "active" ∈ classList (mark_active c e) ↔ truthy c = true.
Proof.
  unfold mark_active. destruct (truthy c); simpl.
  - split; [done|]. intros _. case_bool_decide; [done|].
    apply elem_of_app. right. apply list_elem_of_here.
  - rewrite list_elem_of_filter. split; [by intros [? _]|done].
Qed.

Lemma mark_active_toggler (c : value) (e : Element) :
  "toggler" ∈ classList (mark_active c e) ↔ "toggler" ∈ classList e.
Proof.
  unfold mark_active. destruct (truthy c).
  - apply (neutral_toggler_class (classList_add "active")). constructor.
  - apply (neutral_toggler_class (classList_remove "active")). constructor.
Qed.

(** Where a call of [update_one] can stop. *)
Lemma update_one_final (c : value) (el : node) (d : list Element) :
  ∃ li, final (update_one c el d)
        = alter (mark_active c) li (alter (mark_checked c) el d)
        ∨ final (update_one c el d) = alter (mark_checked c) el d
        ∨ final (update_one c el d) = d.
Proof.
  unfold update_one. destruct (d !! el); [|exists 0; auto].
  destruct (closest _ _ _) as [li|]; [exists li|exists 0]; auto.
Qed.

Lemma bind_final_updateCheckbox (c : value) (el : node) (els : list node)
    (d : list Element) :
  final (updateCheckbox (el :: els) c d) = final (update_one c el d)
  ∨ final (updateCheckbox (el :: els) c d)
    = final (updateCheckbox els c (final (update_one c el d))).
Proof. simpl. destruct (update_one c el d); simpl; auto. Qed.

Lemma updateCheckbox_keeps {B} (g : Element → B) (c : value) (els : list node)
    (d : list Element) :
  (∀ e, g (mark_checked c e) = g e) →
  (∀ e, g (mark_active c e) = g e) →
  g <$> final (updateCheckbox els c d) = g <$> d.
Proof.
  intros Hc Ha. revert d. induction els as [|el els IH]; intros d; [done|].
  assert (g <$> final (update_one c el d) = g <$> d) as Hone.
  { destruct (update_one_final c el d) as [li [-> | [-> | ->]]];
      by rewrite ?fmap_alter_keep. }
  destruct (bind_final_updateCheckbox c el els d) as [-> | ->]; [done|].
  by rewrite IH.
Qed.

Lemma updateCheckbox_kept (P : Element → Prop) (c : value) (els : list node)
    (d : list Element) (n : node) (e : Element) :
  (∀ e, P e → P (mark_checked c e)) →
  (∀ e, P e → P (mark_active c e)) →
  d !! n = Some e → P e →
  ∃ e', final (updateCheckbox els c d) !! n = Some e' ∧ P e'.
Proof.
  intros Hc Ha. revert d e. induction els as [|el els IH]; intros d e Hn He.
  { by exists e. }
  assert (∃ e', final (update_one c el d) !! n = Some e' ∧ P e') as (e1&Hn1&He1).
  { assert (∀ f m (l : list Element) x, (∀ y, P y → P (f y)) →
              l !! n = Some x → P x → ∃ x', alter f m l !! n = Some x' ∧ P x')
      as Halter.
    { intros f m l x Hf Hl Hx. rewrite list_lookup_alter.
      case_decide; subst; rewrite Hl; eauto. }
    destruct (update_one_final c el d) as [li [-> | [-> | ->]]]; [| |eauto].
    - destruct (Halter (mark_checked c) el d e) as (x&?&?); eauto.
    - eauto. }
  destruct (bind_final_updateCheckbox c el els d) as [-> | ->]; eauto.
Qed.

Lemma closest_from_skeleton (fuel : nat) (tag : string) (d d' : list Element)
    (n : node) :
  skeleton d = skeleton d' →
  closest_from fuel tag d n = closest_from fuel tag d' n.
Proof.
  intros Hsk. revert n. induction fuel as [|fuel IH]; intros n; [done|].
  simpl. apply (f_equal (λ l, l !! n)) in Hsk as Hn.
  unfold skeleton in Hn. rewrite !list_lookup_fmap in Hn.
  destruct (d !! n) as [e|], (d' !! n) as [e'|]; try done.
  injection Hn as -> ->. destruct (String.eqb _ _); [done|].
  destruct (parentNode e'); [apply IH|done].
Qed.

Lemma closest_skeleton (tag : string) (d d' : list Element) (n : node) :
  skeleton d = skeleton d' → closest tag d n = closest tag d' n.
Proof.
  intros Hsk. unfold closest.
  assert (length d = length d') as ->.
  { apply (f_equal length) in Hsk. unfold skeleton in Hsk.
    by rewrite !length_fmap in Hsk. }
  by apply closest_from_skeleton.
Qed.

Lemma closest_from_Some (fuel : nat) (tag : string) (d : list Element)
    (n m : node) :
  closest_from fuel tag d n = Some m → is_Some (d !! m).
Proof.
  revert n. induction fuel as [|fuel IH]; intros n; [done|].
  simpl. destruct (d !! n) as [e|] eqn:Hn; [|done].
  destruct (String.eqb _ _); [intros [= <-]; by eexists|].
  destruct (parentNode e); [apply IH|done].
Qed.

Lemma closest_Some_start (tag : string) (d : list Element) (n m : node) :
  closest tag d n = Some m → is_Some (d !! n).
Proof.
  unfold closest. destruct (length d) as [|fuel]; [done|]. simpl.
  by destruct (d !! n).
Qed.

Lemma skeleton_updateCheckbox (c : value) (els : list node) (d : list Element) :
  skeleton (final (updateCheckbox els c d)) = skeleton d.
Proof.
  apply updateCheckbox_keeps; intros e.
  - by destruct (mark_checked_rest c e) as (->&_&->&_).
  - by destruct (mark_active_rest c e) as (->&_&->&_).
Qed.

Lemma update_one_Normal (c : value) (el : node) (d d1 : list Element) :
  update_one c el d = Normal d1 →
  ∃ e li, d !! el = Some e
          ∧ closest "li" d el = Some li
          ∧ d1 = alter (mark_active c) li (alter (mark_checked c) el d).
Proof.
  unfold update_one. destruct (d !! el) as [e|]; [|done].
  destruct (closest _ _ _) as [li|] eqn:Hli; [|done]. intros [= <-].
  exists e, li. split_and!; [done| |done]. rewrite <-Hli.
  apply closest_skeleton. unfold skeleton. symmetry. apply fmap_alter_keep.
  intros x. by destruct (mark_checked_rest c x) as (->&_&->&_).
Qed.

Lemma updateCheckbox_marked (c : value) (els : list node) (d d' : list Element)
    (el : node) :
  updateCheckbox els c d = Normal d' →
  el ∈ els →
  checked_attribute d' el = (if truthy c then Some "checked" else None)
  ∧ ∃ li, closest "li" d' el = Some li
          ∧ (has_class d' li "active" ↔ truthy c = true)
          ∧ is_Some (d' !! li).
Proof.
  revert d. induction els as [|x els IH]; intros d Hd' Hel.
  { by apply elem_of_nil in Hel. }
  simpl in Hd'. destruct (update_one c x d) as [d1|] eqn:Hx; [|done].
  simpl in Hd'.
  destruct (decide (el = x)) as [->|Hne].
  2: { apply elem_of_cons in Hel as [?|Hel]; [done|]. by apply (IH d1). }
  clear IH Hel. apply update_one_Normal in Hx as (e&li&He&Hli&->).
  set (d1 := alter (mark_active c) li (alter (mark_checked c) x d)) in *.
  assert (d' = final (updateCheckbox els c d1)) as -> by (by rewrite Hd').
  assert (skeleton (final (updateCheckbox els c d1)) = skeleton d) as Hsk.
  { rewrite skeleton_updateCheckbox. unfold d1, skeleton.
    rewrite !fmap_alter_keep; [done|..]; intros y.
    - by destruct (mark_checked_rest c y) as (->&_&->&_).
    - by destruct (mark_active_rest c y) as (->&_&->&_). }
  destruct (closest_from_Some _ _ _ _ _ Hli) as [eli Heli].
  split.
  - destruct (updateCheckbox_kept
                (λ y, attributes y !! "checked"
                      = if truthy c then Some "checked" else None)
                c els d1 x
                (if decide (li = x) then mark_active c (mark_checked c e)
                 else mark_checked c e)) as (e'&He'&Hattr).
    + intros y _. apply mark_checked_attribute.
    + intros y Hy. by destruct (mark_active_rest c y) as (_&->&_).
    + unfold d1. rewrite list_lookup_alter. case_decide as Hlx.
      * subst li. by rewrite list_lookup_alter_eq, He.
      * by rewrite list_lookup_alter_eq, He.
    + case_decide.
      * destruct (mark_active_rest c (mark_checked c e)) as (_&->&_).
        apply mark_checked_attribute.
      * apply mark_checked_attribute.
    + unfold checked_attribute. by rewrite He'.
  - exists li. rewrite (closest_skeleton _ _ d) by done. split; [done|].
    destruct (updateCheckbox_kept
                (λ y, "active" ∈ classList y ↔ truthy c = true)
                c els d1 li
                (mark_active c (if decide (x = li) then mark_checked c eli
                                else eli))) as (e'&He'&Hclass).
    + intros y Hy. by destruct (mark_checked_rest c y) as (_&->&_).
    + intros y _. apply mark_active_class.
    + unfold d1. rewrite list_lookup_alter_eq, list_lookup_alter.
      case_decide; subst; by rewrite Heli.
    + apply mark_active_class.
    + split; [|by eexists]. unfold has_class. rewrite He'. split.
      * intros (y&[= <-]&Hy). by apply Hclass.
      * intros Hc. exists e'. split; [done|]. by apply Hclass.
Qed.

(** X16: after a call of [updateCheckbox] that completed, every element of
    the collection carries the attribute [checked="checked"] when the flag is
    truthy and no [checked] attribute when it is not, and the [li] around it
    has the class [active] exactly when the flag is truthy. *)
Theorem updateCheckbox_marks_elements (c : value) (els : list node)
    (d d' : list Element) :
  updateCheckbox els c d = Normal d' →
  ∀ el, el ∈ els →
    checked_attribute d' el = (if truthy c then Some "checked" else None)
    ∧ ∃ li, closest "li" d' el = Some li
            ∧ (has_class d' li "active" ↔ truthy c = true).
Proof.
  intros Hd' el Hel.
  destruct (updateCheckbox_marked c els d d' el Hd' Hel) as (Hattr&li&Hli&Hclass&_).
  split; [done|]. by exists li.
Qed.

Lemma updateCheckbox_marks_elements_witness :
  ∃ d', updateCheckbox [2] (VBool false) scenario_page_decorated = Normal d'
        ∧ checked_attribute d' 2 = None
        ∧ closest "li" d' 2 = Some 1
        ∧ ¬ has_class d' 1 "active".
Proof.
  destruct (updateCheckbox [2] (VBool false) scenario_page_decorated)
    as [d'|e d'] eqn:Hd'; [|by vm_compute in Hd'].
  exists d'. split; [done|].
  destruct (updateCheckbox_marks_elements _ _ _ d' Hd' 2) as (Hattr&li&Hli&Hclass).
  { apply list_elem_of_here. }
  assert (closest "li" d' 2 = Some 1) as Hone.
  { revert Hd'. vm_compute. by intros [= <-]. }
  split_and!; [done..|]. rewrite Hone in Hli. injection Hli as <-.
  intros Hactive. by apply Hclass in Hactive.
Defined.

(** X17: [updateCheckbox] throws when it meets [null] in the collection, and
    the page is then as the elements before have left it; it throws as well
    for an element that is in no [li], after it has written the [checked]
    attribute of that element.  The elements that follow are not reached. *)
Theorem updateCheckbox_throws (c : value) (el : node) (els : list node)
    (d : list Element) :
  (d !! el = None → updateCheckbox (el :: els) c d = Throw TypeError d)
  ∧ (is_Some (d !! el) → closest "li" d el = None →
     updateCheckbox (el :: els) c d
     = Throw TypeError (alter (mark_checked c) el d)
     ∧ checked_attribute (alter (mark_checked c) el d) el
       = (if truthy c then Some "checked" else None)).
Proof.
  split.
  - intros Hnull. simpl. unfold update_one. by rewrite Hnull.
  - intros [e He] Hli. simpl. unfold update_one. rewrite He.
    replace (closest "li" (alter (mark_checked c) el d) el) with (@None node).
    + split; [done|]. unfold checked_attribute.
      rewrite list_lookup_alter_eq, He. simpl. apply mark_checked_attribute.
    + rewrite <-Hli. apply closest_skeleton. unfold skeleton. symmetry.
      apply fmap_alter_keep. intros x.
      by destruct (mark_checked_rest c x) as (->&_&->&_).
Qed.

Lemma updateCheckbox_throws_witness :
  updateCheckbox [7; 2] (VBool true) scenario_page = Throw TypeError scenario_page
  ∧ checked_attribute
      (final (updateCheckbox [0; 2] (VBool true) scenario_page)) 0
    = Some "checked"
  ∧ checked_attribute
      (final (updateCheckbox [0; 2] (VBool true) scenario_page)) 2
    = None.
Proof.
  split_and!.
  - by apply (proj1 (updateCheckbox_throws (VBool true) 7 [2] scenario_page)).
  - destruct (proj2 (updateCheckbox_throws (VBool true) 0 [2] scenario_page))
      as [-> Hattr]; [by eexists|by vm_compute|done].
  - by vm_compute.
Defined.

(** *** [updateCheckbox] and the decoration *)

Lemma is_decorated_mark (d d' : list Element) (n : node) :
  (λ e, attributes e !! "toggleCheckbox") <$> d'
  = (λ e, attributes e !! "toggleCheckbox") <$> d →
  is_decorated d' n = is_decorated d n.
Proof.
  intros Hmark. apply (f_equal (λ l, l !! n)) in Hmark.
  rewrite !list_lookup_fmap in Hmark. unfold is_decorated, attribute_truthy.
  destruct (d' !! n) as [e'|], (d !! n) as [e|]; simplify_eq/=; try done.
  by rewrite Hmark.
Qed.

Lemma sum_list_with_fmap {A} (g : A → nat) (l : list A) :
  sum_list_with g l = sum_list (g <$> l).
Proof. induction l as [|x l IH]; simpl; [done|]. by rewrite IH. Qed.

(** X18: [updateCheckbox] leaves the decoration alone, however it ends: the
    page has as many elements as before, the checkboxes marked as decorated
    are the same, and so are the togglers and their click listeners.  So
    [toggleCheckbox] still does nothing on checkboxes that were decorated
    before. *)
Theorem updateCheckbox_keeps_decoration (c : value) (els : list node)
    (d : list Element) :
  let d' := final (updateCheckbox els c d) in
  length d' = length d
  ∧ (∀ n, is_decorated d' n = is_decorated d n
          ∧ click_listeners d' n = click_listeners d n
          ∧ toggler_elements d' n = toggler_elements d n)
  ∧ (∀ again, (∀ n, n ∈ again → is_decorated d n = true) →
              toggleCheckbox again d' = Normal d').
Proof.
  intros d'.
  assert (∀ n, is_decorated d' n = is_decorated d n) as Hdec.
  { intros n. apply is_decorated_mark. apply updateCheckbox_keeps; intros e.
    - by apply mark_checked_other.
    - by destruct (mark_active_rest c e) as (_&->&_). }
  split_and!.
  - pose proof (skeleton_updateCheckbox c els d) as Hsk.
    apply (f_equal length) in Hsk. unfold skeleton in Hsk.
    by rewrite !length_fmap in Hsk.
  - intros n. split_and!; [done|..].
    + unfold click_listeners.
      rewrite (sum_list_with_fmap (toggler_clicks n) d'),
        (sum_list_with_fmap (toggler_clicks n) d).
      f_equal.
      apply updateCheckbox_keeps; intros e; unfold toggler_clicks.
      * by destruct (mark_checked_rest c e) as (_&_&_&->).
      * by destruct (mark_active_rest c e) as (_&_&_&->).
    + unfold toggler_elements.
      rewrite (sum_list_with_fmap (is_toggler_of n) d'),
        (sum_list_with_fmap (is_toggler_of n) d).
      f_equal.
      apply updateCheckbox_keeps; intros e; unfold is_toggler_of, toggler_clicks.
      * by destruct (mark_checked_rest c e) as (_&->&_&->).
      * destruct (mark_active_rest c e) as (_&_&_&->).
        rewrite (bool_decide_ext _ ("toggler" ∈ classList e
                                   ∧ 0 < length (filter
                                       (λ l, l = ("click", TogglerClick n))
                                       (listeners e)))); [done|].
        by rewrite mark_active_toggler.
  - intros again Hagain. apply toggleCheckbox_decorated.
    intros n Hn. rewrite Hdec. by apply Hagain.
Qed.

(** X19: [updateCheckbox] is idempotent: after a call that completed, the
    same call again completes and leaves the page as it is. *)
Theorem updateCheckbox_idempotent (c : value) (els : list node)
    (d d' : list Element) :
  updateCheckbox els c d = Normal d' →
  updateCheckbox els c d' = Normal d'.
Proof.
  intros Hd'.
  assert (∀ el, el ∈ els → update_one c el d' = Normal d') as Hone.
  { intros el Hel.
    destruct (updateCheckbox_marked c els d d' el Hd' Hel)
      as (Hattr&li&Hli&Hclass&[eli Heli]).
    unfold checked_attribute in Hattr. unfold update_one.
    destruct (closest_Some_start _ _ _ _ Hli) as [e He].
    rewrite He in Hattr |- *. simpl in Hattr.
    assert (alter (mark_checked c) el d' = d') as ->.
    { apply list_eq. intros i. rewrite list_lookup_alter.
      case_decide; [subst i|done]. rewrite He. simpl. f_equal.
      unfold mark_checked. destruct e. simpl in *. destruct (truthy c).
      - unfold setAttribute. simpl. f_equal. by apply insert_id.
      - unfold removeAttribute. simpl. f_equal. by apply delete_id. }
    rewrite Hli. f_equal.
    apply list_eq. intros i. rewrite list_lookup_alter.
    case_decide; [subst i|done]. rewrite Heli. simpl. f_equal.
    assert ("active" ∈ classList eli ↔ truthy c = true) as Hactive.
    { rewrite <-Hclass. unfold has_class. rewrite Heli. split.
      - intros ?. by exists eli.
      - by intros (y&[= <-]&?). }
    unfold mark_active. destruct eli. simpl in *.
    destruct (truthy c); unfold classList_add, classList_remove; simpl; f_equal.
    - rewrite bool_decide_eq_true_2; [done|]. by apply Hactive.
    - assert ("active" ∉ classList0) as Hnot by (intros ?%Hactive; done).
      clear -Hnot. induction classList0 as [|x l IH]; [done|].
      rewrite filter_cons_True.
      + f_equal. apply IH. intros ?. apply Hnot. by apply list_elem_of_further.
      + intros ->. apply Hnot, list_elem_of_here. }
  clear Hd'. induction els as [|x els IH]; [done|].
  simpl. rewrite Hone by apply list_elem_of_here. simpl.
  apply IH. intros el Hel. by apply Hone, list_elem_of_further.
Qed.

Lemma updateCheckbox_idempotent_witness :
  ∃ d', updateCheckbox [2] (VBool true) scenario_page = Normal d'
        ∧ updateCheckbox [2] (VBool true) d' = Normal d'.
Proof.
  destruct (updateCheckbox [2] (VBool true) scenario_page)
    as [d'|e d'] eqn:Hd'; [|by vm_compute in Hd'].
  exists d'. split; [done|]. by apply (updateCheckbox_idempotent _ _ scenario_page).
Defined.

(** *** What a decoration shows *)

Lemma closest_from_tag (fuel : nat) (tag : string) (d : list Element) (n m : node) :
  closest_from fuel tag d n = Some m →
  ∃ e, d !! m = Some e ∧ tagName e = tag.
Proof.
  revert n. induction fuel as [|fuel IH]; intros n; [done|].
  simpl. destruct (d !! n) as [e|] eqn:Hn; [|done].
  destruct (String.eqb_spec (tagName e) tag) as [Htag|_].
  - intros [= <-]. by exists e.
  - destruct (parentNode e); [apply IH|done].
Qed.

(** The store after a decoration that took place, with the change of classes
    that [onClicked] makes. *)
Lemma decorate_Normal_checked (c : node) (d d' : list Element) :
  is_decorated d c = false →
  decorate c d = Normal d' →
  ∃ cb p li ref,
    d !! c = Some cb ∧ parentNode cb = Some p
    ∧ closest "li"
        (alter (mark_active (VBool (checked cb))) (length d)
           (alter (set_display "none") c
              (alter (addEventListener "change" (CheckboxChange c (length d))) c
                 (alter (addEventListener "click" (TogglerClick c)) (length d)
                    (insertBefore p (length d) ref (d ++ [toggler]))))))
        (length d) = Some li
    ∧ d' = alter (setAttribute "toggleCheckbox" "true") c
             (alter (mark_active (VBool (checked cb))) li
                (alter (mark_active (VBool (checked cb))) (length d)
                   (alter (set_display "none") c
                      (alter (addEventListener "change"
                                (CheckboxChange c (length d))) c
                         (alter (addEventListener "click" (TogglerClick c))
                            (length d)
                            (insertBefore p (length d) ref (d ++ [toggler]))))))).
Proof.
  unfold is_decorated, decorate. intros Hdec.
  destruct (d !! c) as [cb|] eqn:Hc; [|done].
  change (attributes <$> Some cb) with (Some (attributes cb)) in Hdec.
  rewrite Hdec.
  destruct (parentNode cb) as [p|] eqn:Hp; [|done]. unfold onClicked.
  change (if checked cb then classList_add "active" else classList_remove "active")
    with (mark_active (VBool (checked cb))).
  destruct (closest _ _ _) as [li|] eqn:Hli; [|done]. intros [= <-].
  by eexists cb, p, li, _.
Qed.

(** What one decoration leaves behind. *)
Lemma decorate_shows (c : node) (cb : Element) (d d' : list Element) :
  d !! c = Some cb →
  is_decorated d c = false →
  decorate c d = Normal d' →
  length d' = S (length d)
  ∧ (∃ z, d' !! c = Some z ∧ display z = "none" ∧ checked z = checked cb
          ∧ listeners z
            = listeners cb ++ [("change", CheckboxChange c (length d))])
  ∧ has_class d' (length d) "toggler"
  ∧ (has_class d' (length d) "active" ↔ checked cb = true)
  ∧ ∃ li, closest "li" d' (length d) = Some li
          ∧ (has_class d' li "active" ↔ checked cb = true).
Proof.
  intros Hc Hdec Hd1.
  destruct (decorate_Normal_checked c d d' Hdec Hd1) as (cb'&p&li&ref&Hc'&Hp&Hli&->).
  rewrite Hc in Hc'. injection Hc' as <-.
  set (active := mark_active (VBool (checked cb))) in *.
  set (el := length d) in *.
  set (d0 := insertBefore p el ref (d ++ [toggler])) in *.
  assert (c < el) as Hlt by (by eapply lookup_lt_Some).
  assert (∀ (B : Type) (g : Element → B),
            (∀ pe x, g (set_childNodes pe x) = g x) →
            (∀ q x, g (set_parentNode q x) = g x) →
            g <$> d0 = (g <$> d) ++ [g toggler]) as Hd0.
  { intros B g Hg1 Hg2. unfold d0, insertBefore.
    rewrite !fmap_alter_keep by done. by rewrite fmap_app. }
  assert (∃ x, d0 !! el = Some x ∧ classList x = ["toggler"] ∧ tagName x = "div")
    as (x&Hx&Hxclass&Hxtag).
  { pose proof (Hd0 _ (λ e, (classList e, tagName e)) ltac:(done) ltac:(done)) as H0.
    apply (f_equal (λ l, l !! el)) in H0.
    rewrite list_lookup_fmap, lookup_app_r in H0 by (by rewrite length_fmap).
    rewrite length_fmap, Nat.sub_diag in H0.
    destruct (d0 !! el) as [x|]; [|done]. injection H0 as H1 H2. by exists x. }
  assert (∃ y, d0 !! c = Some y ∧ checked y = checked cb
               ∧ listeners y = listeners cb) as (y&Hy&Hychecked&Hylisteners).
  { pose proof (Hd0 _ (λ e, (checked e, listeners e)) ltac:(done) ltac:(done)) as H0.
    apply (f_equal (λ l, l !! c)) in H0.
    rewrite list_lookup_fmap, lookup_app_l in H0 by (by rewrite length_fmap).
    rewrite list_lookup_fmap, Hc in H0.
    destruct (d0 !! c) as [y|]; [|done]. injection H0 as H1 H2. by exists y. }
  assert (li ≠ el) as Hliel.
  { intros ->. apply closest_from_tag in Hli as (e&He&Htag).
    rewrite list_lookup_alter_eq in He.
    rewrite !(list_lookup_alter_ne _ _ c el) in He by lia.
    rewrite list_lookup_alter_eq, Hx in He. simpl in He. injection He as <-.
    destruct (mark_active_rest (VBool (checked cb))
                (addEventListener "click" (TogglerClick c) x)) as (Ht&_).
    unfold active in Htag. rewrite Ht in Htag. simpl in Htag. congruence. }
  assert (∀ b : bool, truthy (VBool b) = true ↔ b = true) as Htruthy by done.
  split_and!.
  - rewrite !length_alter. unfold d0, insertBefore.
    rewrite !length_alter, length_app. simpl. lia.
  - rewrite list_lookup_alter_eq.
    destruct (decide (li = c)) as [->|Hlic].
    + rewrite list_lookup_alter_eq, (list_lookup_alter_ne _ _ el c) by lia.
      rewrite list_lookup_alter_eq, list_lookup_alter_eq.
      rewrite (list_lookup_alter_ne _ _ el c), Hy by lia. simpl.
      eexists. split; [done|]. rewrite <-Hychecked, <-Hylisteners.
      unfold active, mark_active. by destruct (truthy (VBool (checked cb))).
    + rewrite (list_lookup_alter_ne _ _ li c) by done.
      rewrite (list_lookup_alter_ne _ _ el c) by lia.
      rewrite list_lookup_alter_eq, list_lookup_alter_eq.
      rewrite (list_lookup_alter_ne _ _ el c), Hy by lia. simpl.
      eexists. split; [done|]. by rewrite <-Hychecked, <-Hylisteners.
  - unfold has_class. rewrite (list_lookup_alter_ne _ _ c el) by lia.
    rewrite (list_lookup_alter_ne _ _ li el) by done.
    rewrite list_lookup_alter_eq, !(list_lookup_alter_ne _ _ c el) by lia.
    rewrite list_lookup_alter_eq, Hx. eexists. split; [done|].
    apply mark_active_toggler. simpl. rewrite Hxclass. apply list_elem_of_here.
  - unfold has_class. rewrite (list_lookup_alter_ne _ _ c el) by lia.
    rewrite (list_lookup_alter_ne _ _ li el) by done.
    rewrite list_lookup_alter_eq, !(list_lookup_alter_ne _ _ c el) by lia.
    rewrite list_lookup_alter_eq, Hx. rewrite <-Htruthy. split.
    + intros (e&[= <-]&He). by apply mark_active_class in He.
    + intros Hb. eexists. split; [done|]. by apply mark_active_class.
  - exists li. split.
    + rewrite <-Hli. apply closest_skeleton. unfold skeleton.
      rewrite !(fmap_alter_keep _ (setAttribute _ _)) by done.
      apply fmap_alter_keep. intros e.
      unfold active. by destruct (mark_active_rest (VBool (checked cb)) e) as (->&_&->&_).
    + destruct (closest_from_Some _ _ _ _ _ Hli) as [eli Heli].
      unfold has_class. rewrite <-Htruthy.
      destruct (decide (c = li)) as [->|Hcli].
      * rewrite !list_lookup_alter_eq, Heli. simpl. split.
        -- intros (e&[= <-]&He). by apply mark_active_class in He.
        -- intros Hb. eexists. split; [done|]. simpl. by apply mark_active_class.
      * rewrite (list_lookup_alter_ne _ _ c li) by done.
        rewrite list_lookup_alter_eq, Heli. simpl. split.
        -- intros (e&[= <-]&He). by apply mark_active_class in He.
        -- intros Hb. eexists. split; [done|]. by apply mark_active_class.
Qed.

(** X21: decorating a checkbox that is not decorated yet hides the checkbox
    and creates one element after the elements of the page, with the class
    [toggler]; that element and the [li] around it have the class [active]
    exactly when the checkbox is checked. *)
Theorem toggleCheckbox_mirrors_checked (c : node) (cb : Element)
    (d d' : list Element) :
  d !! c = Some cb →
  is_decorated d c = false →
  toggleCheckbox [c] d = Normal d' →
  length d' = S (length d)
  ∧ display <$> d' !! c = Some "none"
  ∧ has_class d' (length d) "toggler"
  ∧ (has_class d' (length d) "active" ↔ checked cb = true)
  ∧ ∃ li, closest "li" d' (length d) = Some li
          ∧ (has_class d' li "active" ↔ checked cb = true).
Proof.
  intros Hc Hdec Hd'. simpl in Hd'.
  destruct (decorate c d) as [d1|] eqn:Hd1; [|done]. injection Hd' as <-.
  destruct (decorate_shows c cb d d1 Hc Hdec Hd1)
    as (Hlen&(z&Hz&Hdisplay&_)&Htoggler&Hactive&Hli).
  split_and!; [done| |done..]. by rewrite Hz, <-Hdisplay.
Qed.

Lemma toggleCheckbox_mirrors_checked_witness :
  ∃ d', toggleCheckbox [2] scenario_page = Normal d'
        ∧ display <$> d' !! 2 = Some "none"
        ∧ has_class d' 3 "toggler"
        ∧ has_class d' 3 "active".
Proof.
  destruct (toggleCheckbox [2] scenario_page) as [d'|e d'] eqn:Hd';
    [|by vm_compute in Hd'].
  exists d'. split; [done|].
  destruct (toggleCheckbox_mirrors_checked 2
              (mkElement "input" {[ "type" := "checkbox" ]} [] "" true (Some 1) [] [])
              scenario_page d') as (_&Hdisplay&Htoggler&Hactive&_);
    [done|by vm_compute|done|].
  split_and!; [done..|]. by apply Hactive.
Defined.

(** *** Clicks on the toggler *)

Lemma frame_skeleton (s d : list Element) :
  frame s = frame d → skeleton s = skeleton d.
Proof.
  intros H. apply (f_equal (fmap (λ x, (x.1.1.1, x.1.1.2)))) in H.
  unfold frame in H. rewrite <-!list_fmap_compose in H. exact H.
Qed.

Lemma frame_parentNode (s d : list Element) :
  frame s = frame d → parentNode <$> s = parentNode <$> d.
Proof.
  intros H. apply (f_equal (fmap (λ x, x.1.1.2))) in H.
  unfold frame in H. rewrite <-!list_fmap_compose in H. exact H.
Qed.

Lemma frame_checked (s d : list Element) :
  frame s = frame d → checked <$> s = checked <$> d.
Proof.
  intros H. apply (f_equal (fmap (λ x, x.1.2))) in H.
  unfold frame in H. rewrite <-!list_fmap_compose in H. exact H.
Qed.

Lemma frame_listeners (s d : list Element) :
  frame s = frame d → listeners <$> s = listeners <$> d.
Proof.
  intros H. apply (f_equal (fmap (λ x, x.2))) in H.
  unfold frame in H. rewrite <-!list_fmap_compose in H. exact H.
Qed.

Lemma frame_length (s d : list Element) :
  frame s = frame d → length s = length d.
Proof.
  intros H. apply (f_equal length) in H. unfold frame in H.
  by rewrite !length_fmap in H.
Qed.

Lemma frame_mark_active (v : value) (n : node) (s : list Element) :
  frame (alter (mark_active v) n s) = frame s.
Proof.
  apply fmap_alter_keep. intros e. unfold mark_active.
  by destruct (truthy v).
Qed.

Lemma event_path_ext (fuel : nat) (d d' : list Element) (n : node) :
  parentNode <$> d = parentNode <$> d' →
  event_path fuel d n = event_path fuel d' n.
Proof.
  intros Hp. revert n. induction fuel as [|fuel IH]; intros n; [done|].
  simpl. pose proof (f_equal (λ l, l !! n) Hp) as Hn. simpl in Hn.
  rewrite !list_lookup_fmap in Hn.
  destruct (d !! n) as [e|], (d' !! n) as [e'|]; try done.
  injection Hn as ->. f_equal. destruct (parentNode e'); [apply IH|done].
Qed.

Lemma path_listeners_ext (d d' : list Element) (n : node) :
  parentNode <$> d = parentNode <$> d' →
  listeners <$> d = listeners <$> d' →
  path_listeners d n = path_listeners d' n.
Proof.
  intros Hp Hl. unfold path_listeners.
  assert (length d = length d') as ->.
  { apply (f_equal length) in Hp. by rewrite !length_fmap in Hp. }
  rewrite (event_path_ext _ d d' n Hp).
  induction (event_path (length d') d' n) as [|m path IH]; [done|].
  rewrite !bind_cons, IH. f_equal.
  rewrite <-!list_lookup_fmap. by rewrite Hl.
Qed.

Lemma path_listeners_target (d : list Element) (c : node) (cb : Element)
    (l : string * listener) :
  d !! c = Some cb → l ∈ listeners cb → l ∈ path_listeners d c.
Proof.
  intros Hc Hl. unfold path_listeners.
  destruct (length d) as [|fuel] eqn:Hlen.
  { apply lookup_lt_Some in Hc. lia. }
  simpl. rewrite Hc. rewrite bind_cons, Hc. apply elem_of_app. by left.
Qed.

Lemma path_listeners_elem (d : list Element) (n : node) (l : string * listener) :
  l ∈ path_listeners d n → ∃ e, e ∈ d ∧ l ∈ listeners e.
Proof.
  unfold path_listeners. intros (m&Hl&_)%list_elem_of_bind.
  destruct (d !! m) as [e|] eqn:Hm; simpl in Hl.
  - exists e. split; [by eapply list_elem_of_lookup_2|done].
  - by apply elem_of_nil in Hl.
Qed.

Lemma mirrors_has_class (d : list Element) (n : node) (b : bool) :
  mirrors d n b → (has_class d n "active" ↔ b = true).
Proof.
  intros (x&Hx&Hactive). unfold has_class. rewrite Hx. split.
  - intros (e&[= <-]&He). by apply Hactive.
  - intros Hb. exists x. split; [done|]. by apply Hactive.
Qed.

Lemma mirrors_mark_active (b : bool) (el li n : node) (s : list Element) :
  is_Some (s !! n) → n = el ∨ n = li →
  mirrors (alter (mark_active (VBool b)) li (alter (mark_active (VBool b)) el s)) n b.
Proof.
  intros [x Hx] Hn. unfold mirrors.
  assert (∀ e, "active" ∈ classList (mark_active (VBool b) e) ↔ b = true) as Hclass.
  { intros e. by rewrite mark_active_class. }
  destruct (decide (n = li)) as [->|Hnli].
  - rewrite list_lookup_alter_eq.
    destruct (alter (mark_active (VBool b)) el s !! li) as [y|] eqn:Hy.
    + eexists. split; [done|]. apply Hclass.
    + apply lookup_ge_None in Hy. apply lookup_lt_Some in Hx.
      rewrite length_alter in Hy. lia.
  - destruct Hn as [-> | ->]; [|done].
    rewrite (list_lookup_alter_ne _ _ li el) by done.
    rewrite list_lookup_alter_eq, Hx. eexists. split; [done|]. apply Hclass.
Qed.

Section click.
Variables (c el li : node) (b : bool) (d1 : list Element).
Hypothesis Hli : closest "li" d1 el = Some li.
Hypothesis Hb : checked <$> d1 !! c = Some b.

(** The listener of lines 81 to 83 on a page that differs from [d1] in
    classes only. *)
Lemma run_change_listener_own (s : list Element) :
  frame s = frame d1 →
  run_change_listener s ("change", CheckboxChange c el)
  = alter (mark_active (VBool b)) li (alter (mark_active (VBool b)) el s).
Proof.
  intros Hs. unfold run_change_listener, on_change. simpl.
  pose proof (f_equal (λ l, l !! c) (frame_checked _ _ Hs)) as Hc. simpl in Hc.
  rewrite !list_lookup_fmap, Hb in Hc.
  destruct (s !! c) as [z|]; [|done]. injection Hc as ->.
  unfold onClicked.
  change (if b then classList_add "active" else classList_remove "active")
    with (mark_active (VBool b)).
  assert (closest "li" (alter (mark_active (VBool b)) el s) el = Some li)
    as ->; [|done].
  rewrite <-Hli. apply closest_skeleton, frame_skeleton.
  by rewrite frame_mark_active.
Qed.

Lemma foldl_run_change_listener (ls : list (string * listener)) (s : list Element) :
  frame s = frame d1 →
  (∀ c' el', ("change", CheckboxChange c' el') ∈ ls → c' = c ∧ el' = el) →
  frame (foldl run_change_listener s ls) = frame d1
  ∧ ((mirrors s el b ∧ mirrors s li b) ∨ ("change", CheckboxChange c el) ∈ ls →
     mirrors (foldl run_change_listener s ls) el b
     ∧ mirrors (foldl run_change_listener s ls) li b).
Proof.
  revert s. induction ls as [|[ty l] ls IH]; intros s Hs Hown.
  { split; [done|]. intros [?|?%elem_of_nil]; done. }
  assert (∀ c' el', ("change", CheckboxChange c' el') ∈ ls → c' = c ∧ el' = el)
    as Hown'.
  { intros c' el' Hin. apply Hown. by apply list_elem_of_further. }
  assert (is_Some (s !! el) ∧ is_Some (s !! li)) as [Hel Hli'].
  { split; apply lookup_lt_is_Some; rewrite (frame_length _ _ Hs);
      apply lookup_lt_is_Some.
    - by eapply closest_Some_start.
    - by eapply closest_from_Some. }
  simpl. destruct (String.eqb_spec ty "change") as [->|Hty].
  - destruct l as [c'|c' el'|tag].
    + unfold run_change_listener at 2 4 5. simpl.
      destruct (IH s Hs Hown') as [Hframe Hmirrors]. split; [done|].
      intros [H|H]; apply Hmirrors; [by left|right].
      apply elem_of_cons in H as [?|?]; [done|done].
    + destruct (Hown c' el') as [-> ->]; [apply list_elem_of_here|].
      rewrite run_change_listener_own by done.
      destruct (IH (alter (mark_active (VBool b)) li
                      (alter (mark_active (VBool b)) el s))) as [Hframe Hmirrors];
        [by rewrite !frame_mark_active|done|].
      split; [done|]. intros _. apply Hmirrors. left.
      split; apply mirrors_mark_active; auto.
    + unfold run_change_listener at 2 4 5. simpl.
      destruct (IH s Hs Hown') as [Hframe Hmirrors]. split; [done|].
      intros [H|H]; apply Hmirrors; [by left|right].
      apply elem_of_cons in H as [?|?]; [done|done].
  - assert (run_change_listener s (ty, l) = s) as ->.
    { unfold run_change_listener. simpl.
      by destruct (String.eqb_spec ty "change"). }
    destruct (IH s Hs Hown') as [Hframe Hmirrors]. split; [done|].
    intros [H|H]; apply Hmirrors; [by left|right].
    apply elem_of_cons in H as [[= ? ?]|?]; [done|done].
Qed.

End click.

(** One click on the toggler of a checkbox that is wired to it. *)
Lemma on_toggler_click_wired (c el li : node) (cb : Element) (d : list Element) :
  wired c el li d →
  d !! c = Some cb →
  ∃ d', on_toggler_click c d = Normal d'
        ∧ checked <$> d' !! c = Some (negb (checked cb))
        ∧ mirrors d' el (negb (checked cb))
        ∧ mirrors d' li (negb (checked cb))
        ∧ wired c el li d'.
Proof.
  intros (Hli&(cb'&Hc'&Hown)&Hall) Hc. rewrite Hc in Hc'. injection Hc' as <-.
  unfold on_toggler_click. rewrite Hc. eexists. split; [done|].
  set (b := negb (checked cb)).
  set (d1 := alter (set_checked b) c d).
  assert (skeleton d1 = skeleton d) as Hsk by (by apply fmap_alter_keep).
  assert (parentNode <$> d1 = parentNode <$> d) as Hparent
    by (by apply fmap_alter_keep).
  assert (listeners <$> d1 = listeners <$> d) as Hlisteners
    by (by apply fmap_alter_keep).
  assert (d1 !! c = Some (set_checked b cb)) as Hc1.
  { unfold d1. by rewrite list_lookup_alter_eq, Hc. }
  assert (closest "li" d1 el = Some li) as Hli1.
  { rewrite <-Hli. by apply closest_skeleton. }
  assert (checked <$> d1 !! c = Some b) as Hb by (by rewrite Hc1).
  assert (path_listeners d1 c = path_listeners d c) as Hpath
    by (by apply path_listeners_ext).
  unfold dispatch_change. fold d1.
  destruct (foldl_run_change_listener c el li b d1 Hli1 Hb
              (path_listeners d1 c) d1) as [Hframe Hmirrors]; [done| |].
  { intros c' el'. rewrite Hpath. apply Hall. }
  set (d' := foldl run_change_listener d1 (path_listeners d1 c)) in *.
  destruct Hmirrors as [Hel Hli'].
  { right. rewrite Hpath. by eapply path_listeners_target. }
  assert (∃ z, d' !! c = Some z ∧ checked z = b ∧ listeners z = listeners cb)
    as (z&Hz&Hzchecked&Hzlisteners).
  { pose proof (f_equal (λ l, l !! c) Hframe) as H. simpl in H.
    unfold frame in H. rewrite !list_lookup_fmap, Hc1 in H.
    destruct (d' !! c) as [z|]; [|done]. injection H as _ _ H1 H2.
    by exists z. }
  split_and!; [by rewrite Hz, <-Hzchecked|done|done|].
  split_and!.
  - rewrite <-Hli1. by apply closest_skeleton, frame_skeleton.
  - exists z. split; [done|]. by rewrite Hzlisteners.
  - intros c' el'.
    rewrite (path_listeners_ext d' d1 c), Hpath;
      [apply Hall|by apply frame_parentNode|by apply frame_listeners].
Qed.

(** X22: a click on the toggler of a checkbox inverts the checkbox, and
    afterwards the toggler and the list item around it have the class
    [active] exactly when the checkbox is checked; the checkbox stays wired
    to its toggler. *)
Theorem toggler_click_inverts_and_mirrors (c el li : node) (cb : Element)
    (d : list Element) :
  wired c el li d →
  d !! c = Some cb →
  ∃ d', on_toggler_click c d = Normal d'
        ∧ checked <$> d' !! c = Some (negb (checked cb))
        ∧ (has_class d' el "active" ↔ negb (checked cb) = true)
        ∧ (has_class d' li "active" ↔ negb (checked cb) = true)
        ∧ wired c el li d'.
Proof.
  intros Hwired Hc.
  destruct (on_toggler_click_wired c el li cb d Hwired Hc)
    as (d'&Hd'&Hchecked&Hel&Hli&Hwired').
  exists d'. split_and!; [done|done| | |done]; by apply mirrors_has_class.
Qed.

Lemma toggler_click_inverts_and_mirrors_witness :
  ∃ d', on_toggler_click 2 scenario_page_decorated = Normal d'
        ∧ checked <$> d' !! 2 = Some false
        ∧ ¬ has_class d' 3 "active"
        ∧ ¬ has_class d' 1 "active".
Proof.
  assert (wired 2 3 1 scenario_page_decorated) as Hwired.
  { split_and!.
    - by vm_compute.
    - eexists. split; [reflexivity|]. simpl. apply list_elem_of_here.
    - intros c' el' Hin.
      assert (path_listeners scenario_page_decorated 2
              = [("change", CheckboxChange 2 3)]) as Hpath by (by vm_compute).
      rewrite Hpath in Hin. apply list_elem_of_singleton in Hin.
      by injection Hin as -> ->. }
  destruct (toggler_click_inverts_and_mirrors 2 3 1
              (mkElement "input" {[ "type" := "checkbox"; "toggleCheckbox" := "true" ]}
                 [] "none" true (Some 1) [] [("change", CheckboxChange 2 3)])
              scenario_page_decorated Hwired)
    as (d'&Hd'&Hchecked&Hel&Hli&_); [by vm_compute|].
  exists d'. split_and!; [done|done| |].
  - intros H. by apply Hel in H.
  - intros H. by apply Hli in H.
Defined.

Lemma has_class_mirrors (d : list Element) (n : node) (b : bool) :
  is_Some (d !! n) → (has_class d n "active" ↔ b = true) → mirrors d n b.
Proof.
  intros [x Hx] H. exists x. split; [done|]. rewrite <-H. unfold has_class.
  rewrite Hx. split.
  - intros Hin. by exists x.
  - by intros (e&[= <-]&He).
Qed.

(** Any number of clicks on the toggler of a checkbox that is wired to it. *)
Lemma clicks_wired (n : nat) (c el li : node) (cb : Element) (d : list Element) :
  wired c el li d →
  d !! c = Some cb →
  mirrors d el (checked cb) → mirrors d li (checked cb) →
  ∃ d', clicks n c d = Normal d'
        ∧ checked <$> d' !! c = Some (xorb (checked cb) (Nat.odd n))
        ∧ mirrors d' el (xorb (checked cb) (Nat.odd n))
        ∧ mirrors d' li (xorb (checked cb) (Nat.odd n))
        ∧ wired c el li d'.
Proof.
  revert cb d. induction n as [|n IH]; intros cb d Hwired Hc Hel Hli.
  { exists d. simpl. rewrite xorb_false_r. by rewrite Hc. }
  destruct (on_toggler_click_wired c el li cb d Hwired Hc)
    as (d1&Hd1&Hchecked&Hel1&Hli1&Hwired1).
  destruct (d1 !! c) as [cb1|] eqn:Hc1; [|done]. injection Hchecked as Hchecked.
  rewrite <-Hchecked in Hel1, Hli1.
  destruct (IH cb1 d1 Hwired1 Hc1 Hel1 Hli1) as (d2&Hd2&Hchecked2&Hel2&Hli2&Hwired2).
  assert (xorb (checked cb1) (Nat.odd n) = xorb (checked cb) (Nat.odd (S n))) as Hxor.
  { rewrite Hchecked, Nat.odd_succ, <-Nat.negb_odd.
    by destruct (checked cb), (Nat.odd n). }
  rewrite Hxor in Hchecked2, Hel2, Hli2.
  exists d2. split; [|done]. simpl. by rewrite Hd1.
Qed.

(** The [change] listeners of lines 81 to 83 on a page after the first
    decoration. *)
Lemma decorate_change_listeners (c : node) (d d' : list Element) :
  is_decorated d c = false →
  undecorated_page d →
  decorate c d = Normal d' →
  ∀ e c' el', e ∈ d' → ("change", CheckboxChange c' el') ∈ listeners e →
              c' = c ∧ el' = length d.
Proof.
  intros Hdec Hpage Hd'.
  destruct (decorate_Normal_checked c d d' Hdec Hd') as (cb&p&li&ref&Hc&Hp&Hli&Heq).
  intros e c' el' He.
  enough (Forall (λ e, ("change", CheckboxChange c' el') ∈ listeners e
                       → c' = c ∧ el' = length d) d') as HF.
  { rewrite list.Forall_forall in HF. exact (HF e He). }
  clear e He. rewrite Heq. unfold insertBefore.
  assert (∀ v (x : Element), listeners (mark_active v x) = listeners x) as Hmark.
  { intros v x. by destruct (mark_active_rest v x) as (_&_&_&->). }
  repeat (apply Forall_alter;
          [|intros x _ Hx; rewrite ?Hmark; simpl; try exact Hx]).
  - apply list.Forall_app. split.
    + apply list.Forall_forall. intros e He Hin. by apply Hpage in Hin.
    + apply Forall_singleton. simpl. by intros ?%elem_of_nil.
  - intros [Hin|Hin%list_elem_of_singleton]%elem_of_app; [by apply Hx|done].
  - intros [Hin|Hin%list_elem_of_singleton]%elem_of_app; [by apply Hx|].
    by injection Hin as -> ->.
Qed.

(** X23: on a page without decorated checkboxes, after a checkbox has been
    decorated, any number of clicks on its toggler leaves the checkbox
    checked when it was checked at first and the number is even, or it was
    not and the number is odd; the toggler and the list item around it have
    the class [active] exactly when the checkbox is checked. *)
Theorem decorated_toggler_follows_clicks (n : nat) (c : node) (cb : Element)
    (d d1 : list Element) :
  d !! c = Some cb →
  is_decorated d c = false →
  undecorated_page d →
  toggleCheckbox [c] d = Normal d1 →
  ∃ d2 li,
    clicks n c d1 = Normal d2
    ∧ checked <$> d2 !! c = Some (xorb (checked cb) (Nat.odd n))
    ∧ (has_class d2 (length d) "active" ↔ xorb (checked cb) (Nat.odd n) = true)
    ∧ closest "li" d2 (length d) = Some li
    ∧ (has_class d2 li "active" ↔ xorb (checked cb) (Nat.odd n) = true).
Proof.
  intros Hc Hdec Hpage Hd1. simpl in Hd1.
  destruct (decorate c d) as [d1'|] eqn:Hdecorate; [|done]. injection Hd1 as ->.
  destruct (decorate_shows c cb d d1 Hc Hdec Hdecorate)
    as (Hlen&(z&Hz&_&Hzchecked&Hzlisteners)&_&Hel&li&Hli&Hliactive).
  assert (wired c (length d) li d1) as Hwired.
  { split_and!; [done| |].
    - exists z. split; [done|]. rewrite Hzlisteners. apply elem_of_app. right.
      apply list_elem_of_here.
    - intros c' el' (e&He&Hin)%path_listeners_elem.
      by eapply decorate_change_listeners. }
  rewrite <-Hzchecked in Hel, Hliactive.
  destruct (clicks_wired n c (length d) li z d1 Hwired Hz)
    as (d2&Hd2&Hchecked&Hel2&Hli2&(Hli'&_)).
  - apply has_class_mirrors; [|done]. by eapply closest_Some_start.
  - apply has_class_mirrors; [|done]. by eapply closest_from_Some.
  - rewrite Hzchecked in Hchecked, Hel2, Hli2.
    exists d2, li. split_and!; [done|done| |done|]; by apply mirrors_has_class.
Qed.

Lemma decorated_toggler_follows_clicks_witness :
  ∃ d2, clicks 3 2 scenario_page_decorated = Normal d2
        ∧ checked <$> d2 !! 2 = Some false
        ∧ ¬ has_class d2 3 "active".
Proof.
  assert (toggleCheckbox [2] scenario_page = Normal scenario_page_decorated)
    as Hdecorated by (by vm_compute).
  destruct (decorated_toggler_follows_clicks 3 2
              (mkElement "input" {[ "type" := "checkbox" ]} [] "" true (Some 1) [] [])
              scenario_page scenario_page_decorated)
    as (d2&li&Hd2&Hchecked&Hel&_); [done|by vm_compute| |done|].
  { intros e c' el' He Hin.
    repeat (apply elem_of_cons in He as [->|He]; [by apply elem_of_nil in Hin|]).
    by apply elem_of_nil in He. }
  exists d2. split_and!; [done|done|]. intros H. by apply Hel in H.
Defined.

(** *** Where the toggler is put *)

Lemma list_find_eq_NoDup (l : list nat) (i x : nat) :
  NoDup l → l !! i = Some x → list_find (λ y, y = x) l = Some (i, x).
Proof.
  intros Hnodup Hi. apply list_find_Some. split_and!; [done..|].
  intros j y Hj Hlt ->. pose proof (NoDup_lookup l i j x Hnodup Hi Hj). lia.
Qed.

(** The children of a node after a new one has been inserted before the
    sibling that follows the [i]th. *)
Lemma insert_before_next (ch : list nat) (c el i : nat) :
  NoDup ch → ch !! i = Some c → el ∉ ch →
  list_find (λ y, y = c) (insert_before el (ch !! S i) ch) = Some (i, c)
  ∧ insert_before el (ch !! S i) ch !! S i = Some el
  ∧ list_find (λ y, y = el) (insert_before el (ch !! S i) ch) = Some (S i, el)
  ∧ insert_before el (ch !! S i) ch !! S (S i) = ch !! S i.
Proof.
  intros Hnodup Hi Hel. pose proof (lookup_lt_Some _ _ _ Hi) as Hlt.
  unfold insert_before. destruct (ch !! S i) as [r|] eqn:Hr.
  - rewrite (list_find_eq_NoDup ch (S i) r Hnodup Hr).
    pose proof (lookup_lt_Some _ _ _ Hr) as Hlt'.
    assert (length (take (S i) ch) = S i) as Hlen by (rewrite length_take; lia).
    assert (NoDup (take (S i) ch ++ el :: drop (S i) ch)) as Hnodup'.
    { rewrite <-Permutation_middle, take_drop. by apply list.NoDup_cons. }
    assert ((take (S i) ch ++ el :: drop (S i) ch) !! i = Some c) as Hi'.
    { rewrite lookup_app_l by lia. by rewrite lookup_take_lt by lia. }
    assert ((take (S i) ch ++ el :: drop (S i) ch) !! S i = Some el) as Hel'.
    { by apply list_lookup_middle. }
    split_and!.
    + by apply list_find_eq_NoDup.
    + done.
    + by apply list_find_eq_NoDup.
    + rewrite lookup_app_r by lia. rewrite Hlen.
      replace (S (S i) - S i) with 1 by lia. simpl.
      rewrite lookup_drop. by rewrite Nat.add_0_r.
  - apply lookup_ge_None in Hr.
    assert (S i = length ch) as Hlen by lia.
    assert (NoDup (ch ++ [el])) as Hnodup'.
    { apply list.NoDup_app. split_and!; [done| |apply NoDup_singleton].
      intros x Hx ->%list_elem_of_singleton. done. }
    assert ((ch ++ [el]) !! i = Some c) as Hi'.
    { by rewrite lookup_app_l by lia. }
    assert ((ch ++ [el]) !! S i = Some el) as Hel'.
    { by apply list_lookup_middle. }
    split_and!.
    + by apply list_find_eq_NoDup.
    + done.
    + by apply list_find_eq_NoDup.
    + apply lookup_ge_None. rewrite length_app. simpl. lia.
Qed.

Lemma nextSibling_ext (d d' : list Element) (n : node) :
  (λ e, (parentNode e, childNodes e)) <$> d
  = (λ e, (parentNode e, childNodes e)) <$> d' →
  nextSibling d n = nextSibling d' n.
Proof.
  intros Hext.
  assert (∀ m, (λ e, (parentNode e, childNodes e)) <$> d !! m
               = (λ e, (parentNode e, childNodes e)) <$> d' !! m) as Hm.
  { intros m. by rewrite <-!list_lookup_fmap, Hext. }
  unfold nextSibling. pose proof (Hm n) as Hn.
  destruct (d !! n) as [e|], (d' !! n) as [e'|]; try done.
  injection Hn as Hparent _. simpl. rewrite Hparent.
  destruct (parentNode e') as [p|]; [|done]. simpl.
  pose proof (Hm p) as Hp.
  destruct (d !! p) as [pe|], (d' !! p) as [pe'|]; try done.
  injection Hp as _ Hchildren. simpl. by rewrite Hchildren.
Qed.

(** The tree after a decoration that took place. *)
Lemma decorate_Normal_tree (c p : node) (cb : Element) (d d' : list Element) :
  d !! c = Some cb → parentNode cb = Some p →
  is_decorated d c = false →
  decorate c d = Normal d' →
  (λ e, (parentNode e, childNodes e)) <$> d'
  = (λ e, (parentNode e, childNodes e))
    <$> insertBefore p (length d) (nextSibling d c) (d ++ [toggler]).
Proof.
  intros Hc Hp Hdec. unfold is_decorated in Hdec. unfold decorate.
  rewrite Hc in Hdec |- *.
  change (attributes <$> Some cb) with (Some (attributes cb)) in Hdec.
  rewrite Hdec, Hp. unfold onClicked.
  assert (nextSibling (d ++ [toggler]) c = nextSibling d c) as ->.
  { unfold nextSibling. pose proof (lookup_lt_Some _ _ _ Hc).
    rewrite lookup_app_l, Hc by done. simpl. rewrite Hp. simpl.
    destruct (d !! p) as [pe|] eqn:Hpe.
    - pose proof (lookup_lt_Some _ _ _ Hpe).
      by rewrite lookup_app_l, Hpe by done.
    - apply lookup_ge_None in Hpe.
      destruct (decide (p = length d)) as [->|Hne].
      + by rewrite list_lookup_middle by done.
      + rewrite lookup_ge_None_2; [done|]. rewrite length_app. simpl. lia. }
  destruct (closest _ _ _) as [li|]; [|done]. intros [= <-].
  by destruct (checked cb); rewrite !fmap_alter_keep by done.
Qed.

(** X30: the toggler of a checkbox is put right after the checkbox, under
    the same parent: it is the next sibling of the checkbox, and what
    followed the checkbox now follows the toggler. *)
Theorem toggleCheckbox_places_toggler_after (c p : node) (cb pe : Element)
    (d d' : list Element) :
  d !! c = Some cb → parentNode cb = Some p → d !! p = Some pe →
  c ∈ childNodes pe → NoDup (childNodes pe) → length d ∉ childNodes pe →
  is_decorated d c = false →
  toggleCheckbox [c] d = Normal d' →
  nextSibling d' c = Some (length d)
  ∧ nextSibling d' (length d) = nextSibling d c
  ∧ parentNode <$> d' !! length d = Some (Some p).
Proof.
  intros Hc Hp Hpe Hchild Hnodup Hfresh Hdec Hd'. simpl in Hd'.
  destruct (decorate c d) as [d1|] eqn:Hd1; [|done]. injection Hd' as <-.
  pose proof (decorate_Normal_tree c p cb d d1 Hc Hp Hdec Hd1) as Htree.
  apply list_elem_of_lookup_1 in Hchild as [i Hi].
  assert (nextSibling d c = childNodes pe !! S i) as Hnext.
  { unfold nextSibling. rewrite Hc. simpl. rewrite Hp. simpl. rewrite Hpe. simpl.
    by rewrite (list_find_eq_NoDup _ i c Hnodup Hi). }
  rewrite Hnext in Htree |- *.
  set (el := length d) in *.
  set (ch' := insert_before el (childNodes pe !! S i) (childNodes pe)) in *.
  destruct (insert_before_next (childNodes pe) c el i Hnodup Hi Hfresh)
    as (Hfindc&Hafter&Hfindel&Hfollows). fold ch' in Hfindc, Hafter, Hfindel, Hfollows.
  set (D0 := insertBefore p el (childNodes pe !! S i) (d ++ [toggler])) in *.
  pose proof (lookup_lt_Some _ _ _ Hc) as Hclt.
  pose proof (lookup_lt_Some _ _ _ Hpe) as Hplt.
  assert (D0 !! p = Some (set_childNodes ch' pe)) as HD0p.
  { unfold D0, insertBefore. rewrite list_lookup_alter_ne by (unfold el; lia).
    rewrite list_lookup_alter_eq, lookup_app_l, Hpe by done. done. }
  assert (parentNode <$> D0 !! c = Some (Some p)) as HD0c.
  { unfold D0, insertBefore. rewrite list_lookup_alter_ne by (unfold el; lia).
    destruct (decide (p = c)) as [->|Hpc].
    - rewrite list_lookup_alter_eq, lookup_app_l, Hc by done. simpl.
      by rewrite Hp.
    - rewrite list_lookup_alter_ne, lookup_app_l, Hc by done. simpl.
      by rewrite Hp. }
  assert (parentNode <$> D0 !! el = Some (Some p)) as HD0el.
  { unfold D0, insertBefore. rewrite list_lookup_alter_eq.
    rewrite list_lookup_alter_ne by (unfold el; lia).
    by rewrite list_lookup_middle by done. }
  rewrite !(nextSibling_ext d1 D0) by done.
  split_and!.
  - unfold nextSibling. destruct (D0 !! c) as [x|]; [|done].
    injection HD0c as Hx. simpl. rewrite Hx. simpl. rewrite HD0p. simpl.
    by rewrite Hfindc.
  - unfold nextSibling. destruct (D0 !! el) as [x|]; [|done].
    injection HD0el as Hx. simpl. rewrite Hx. simpl. rewrite HD0p. simpl.
    by rewrite Hfindel.
  - apply (f_equal (fmap fst)) in Htree. rewrite <-!list_fmap_compose in Htree.
    apply (f_equal (λ l, l !! el)) in Htree.
    rewrite !list_lookup_fmap in Htree. simpl in Htree.
    by rewrite <-HD0el.
Qed.

Lemma toggleCheckbox_places_toggler_after_witness :
  nextSibling scenario_page_decorated 2 = Some 3
  ∧ nextSibling scenario_page_decorated 3 = None.
Proof.
  destruct (toggleCheckbox_places_toggler_after 2 1
              (mkElement "input" {[ "type" := "checkbox" ]} [] "" true (Some 1) [] [])
              (mkElement "li" ∅ [] "" false (Some 0) [2] [])
              scenario_page scenario_page_decorated) as (Hnext&Hfollows&_);
    [done|done|done|apply list_elem_of_here|apply NoDup_singleton| |
     by vm_compute|by vm_compute|].
  { by intros ?%list_elem_of_singleton. }
  split; [exact Hnext|]. etrans; [exact Hfollows|]. by vm_compute.
Defined.

End CheckboxUtilsFacts.

(** ** The reset popup *)

Module ResetPopupFacts.
Import ResetPopup.

Lemma filter_comm {A} (P Q : A → Prop) `{!∀ x, Decision (P x)}
    `{!∀ x, Decision (Q x)} (l : list A) :
  filter P (filter Q l) = filter Q (filter P l).
Proof.
  rewrite !list_filter_filter. apply list_filter_iff. intros x. tauto.
Qed.

(** *** Firing *)

Lemma foldl_fire_timers (s : t) (l : list timer) :
  timers (foldl fire s l) = timers s
  ∧ now (foldl fire s l) = now s
  ∧ nextTimerId (foldl fire s l) = nextTimerId s
  ∧ closePopupTimeoutId (foldl fire s l) = closePopupTimeoutId s.
Proof.
  revert s. induction l as [|tm l IH]; intros s; [done|].
  simpl. destruct (IH (fire s tm)) as (->&->&->&->).
  unfold fire. by destruct (act tm).
Qed.

Lemma foldl_fire_display (s : t) (l : list timer) :
  display (foldl fire s l)
  = match filter (λ tm, act tm = HidePopup) l with
    | [] => display s
    | _ :: _ => "none"
    end.
Proof.
  revert s. induction l as [|tm l IH]; intros s; [done|].
  simpl. rewrite IH, filter_cons. unfold fire.
  destruct (act tm) eqn:Hact.
  - rewrite decide_True by done. simpl.
    by destruct (filter _ l).
  - by rewrite decide_False by done.
Qed.

Lemma hide_timers_advance (dt : nat) (s : t) :
  hide_timers (advance dt s)
  = filter (λ tm, ¬ due tm ≤ now s + dt) (hide_timers s).
Proof.
  unfold hide_timers, advance.
  rewrite (proj1 (foldl_fire_timers _ _)). simpl. apply filter_comm.
Qed.

Lemma display_advance (dt : nat) (s : t) :
  display (advance dt s)
  = match filter (λ tm, due tm ≤ now s + dt) (hide_timers s) with
    | [] => display s
    | _ :: _ => "none"
    end.
Proof.
  unfold hide_timers, advance. rewrite foldl_fire_display. simpl.
  by rewrite filter_comm.
Qed.

(** *** The discipline *)

Lemma reset_hide_timers (s : t) :
  one_hide s →
  hide_timers (_onStatsReset s)
  = [mkTimer (nextTimerId s) (now s + 4000) HidePopup]
  ∧ closePopupTimeoutId (_onStatsReset s) = Some (nextTimerId s)
  ∧ display (_onStatsReset s) = "block"
  ∧ now (_onStatsReset s) = now s
  ∧ nextTimerId (_onStatsReset s) = S (nextTimerId s).
Proof.
  intros [Hnext Hhide]. unfold _onStatsReset, hide_timers in *. simpl.
  assert (∀ l : list timer,
            filter (λ tm, act tm = HidePopup) l = [] →
            filter (λ tm, act tm = HidePopup)
              (l ++ [mkTimer (nextTimerId s) (now s + 4000) HidePopup])
            = [mkTimer (nextTimerId s) (now s + 4000) HidePopup]) as Hsnoc.
  { intros l Hl. by rewrite list.filter_app, Hl. }
  destruct Hhide as [Hnone|(tm&Hone&Hid&Hclose)].
  - destruct (closePopupTimeoutId s) as [id|]; [destruct (id =? 0)|]; simpl;
      (split_and!; [|done..]); apply Hsnoc; try done.
    by rewrite filter_comm, Hnone.
  - rewrite Hclose. destruct (Nat.eqb_spec (timer_id tm) 0) as [|_]; [done|].
    simpl. split_and!; [|done..]. apply Hsnoc.
    rewrite filter_comm, Hone, filter_cons_False by (by intros []). done.
Qed.

Lemma one_hide_step (s : t) (e : event) : one_hide s → one_hide (step s e).
Proof.
  intros Hs. destruct e as [|dt|delay]; simpl.
  - destruct (reset_hide_timers s Hs) as (Hhide&Hclose&_&_&Hnext).
    split; [lia|]. right. eexists. split; [exact Hhide|]. simpl.
    destruct Hs as [? _]. split; [lia|done].
  - destruct Hs as [Hnext Hhide]. split.
    + unfold advance. by rewrite (proj1 (proj2 (proj2 (foldl_fire_timers _ _)))).
    + rewrite hide_timers_advance.
      destruct Hhide as [->|(tm&->&Hid&Hclose)]; [by left|].
      rewrite filter_cons, filter_nil. case_decide; [|by left].
      right. exists tm. split_and!; [done..|].
      unfold advance. by rewrite (proj2 (proj2 (proj2 (foldl_fire_timers _ _)))).
  - destruct Hs as [Hnext Hhide]. split; [simpl; lia|].
    unfold hide_timers in *. simpl.
    rewrite list.filter_app, filter_cons_False, filter_nil, app_nil_r by done.
    done.
Qed.

Lemma one_hide_run (es : list event) (s : t) : one_hide s → one_hide (run s es).
Proof.
  revert s. induction es as [|e es IH]; intros s Hs; [done|].
  simpl. by apply IH, one_hide_step.
Qed.

Lemma one_hide_initial : one_hide initial.
Proof. split; [done|by left]. Qed.

(** C8: whatever has happened on the page, at most one timer that hides the
    popup is pending.  A reset leaves exactly one, due 4000 ms after that
    reset, whether or not an earlier one was still pending; the popup then
    stays shown for the next 4000 ms and is hidden once they have passed,
    with no hide left pending. *)
Theorem reset_popup_cancel_and_reschedule (es : list event) :
  let s := run initial es in
  length (hide_timers s) ≤ 1
  ∧ hide_timers (_onStatsReset s)
    = [mkTimer (nextTimerId s) (now s + 4000) HidePopup]
  ∧ display (_onStatsReset s) = "block"
  ∧ (∀ dt, dt < 4000 →
       display (advance dt (_onStatsReset s)) = "block"
       ∧ hide_timers (advance dt (_onStatsReset s))
         = [mkTimer (nextTimerId s) (now s + 4000) HidePopup])
  ∧ (∀ dt, 4000 ≤ dt →
       display (advance dt (_onStatsReset s)) = "none"
       ∧ hide_timers (advance dt (_onStatsReset s)) = []).
Proof.
  intros s. assert (one_hide s) as Hs by apply one_hide_run, one_hide_initial.
  destruct (reset_hide_timers s Hs) as (Hhide&_&Hdisplay&Hnow&_).
  split_and!.
  - destruct Hs as [_ [->|(tm&->&_)]]; simpl; lia.
  - done.
  - done.
  - intros dt Hdt. rewrite display_advance, hide_timers_advance, Hhide, Hnow.
    rewrite !filter_cons, !filter_nil. simpl.
    rewrite decide_False, decide_True by lia. done.
  - intros dt Hdt. rewrite display_advance, hide_timers_advance, Hhide, Hnow.
    rewrite !filter_cons, !filter_nil. simpl.
    rewrite decide_True, decide_False by lia. done.
Qed.

Lemma reset_popup_cancel_and_reschedule_witness :
  let s := run initial [StatsReset; Elapse 1000; OtherTimeout 10; StatsReset;
                        Elapse 3500] in
  display s = "block"
  ∧ display (advance 3999 (_onStatsReset s)) = "block"
  ∧ display (advance 4000 (_onStatsReset s)) = "none"
  ∧ hide_timers (advance 4000 (_onStatsReset s)) = [].
Proof.
  cbv zeta. split; [by vm_compute|].
  pose proof (reset_popup_cancel_and_reschedule
                [StatsReset; Elapse 1000; OtherTimeout 10; StatsReset;
                 Elapse 3500]) as (_&_&_&Hbefore&Hafter).
  destruct (Hbefore 3999) as [H1 _]; [lia|].
  destruct (Hafter 4000) as [H2 H3]; [lia|].
  by split_and!.
Defined.

(** *** The popup is shown while a hide is pending *)

Lemma shown_while_pending_step (s : t) (e : event) :
  one_hide s → shown_while_pending s → shown_while_pending (step s e).
Proof.
  intros Hone Hs. destruct e as [|dt|delay]; simpl.
  - destruct (reset_hide_timers s Hone) as (Hhide&_&Hdisplay&Hnow&_).
    right. eexists. split; [exact Hhide|]. split; [done|].
    rewrite Hnow. cbn [due]. lia.
  - unfold shown_while_pending.
    rewrite hide_timers_advance, display_advance.
    assert (now (advance dt s) = now s + dt) as ->.
    { unfold advance. by rewrite (proj1 (proj2 (foldl_fire_timers _ _))). }
    destruct Hs as [[-> Hd]|(tm&->&Hd&Hdue)]; [by left|].
    rewrite !filter_cons, !filter_nil.
    destruct (decide (due tm ≤ now s + dt)) as [Hfired|Hpending].
    + rewrite decide_False by tauto. by left.
    + rewrite decide_True by done. right. exists tm. split_and!; [done..|lia|lia].
  - unfold shown_while_pending, hide_timers in *. simpl.
    rewrite list.filter_app, filter_cons_False, filter_nil, app_nil_r by done.
    done.
Qed.

Lemma shown_while_pending_run (es : list event) (s : t) :
  one_hide s → shown_while_pending s → shown_while_pending (run s es).
Proof.
  revert s. induction es as [|e es IH]; intros s Hone Hs; [done|].
  simpl. apply IH; [by apply one_hide_step|by apply shown_while_pending_step].
Qed.

(** X10: whatever has happened on the page, the reset popup is shown exactly
    while a timer that hides it is pending, that timer is due within the next
    4000 ms, and once 4000 ms pass without a further reset the popup is
    hidden: it never stays on the page. *)
Theorem reset_popup_never_stays (es : list event) :
  let s := run initial es in
  (display s = "block" ↔ hide_timers s ≠ [])
  ∧ (∀ tm, tm ∈ hide_timers s → now s < due tm ≤ now s + 4000)
  ∧ display (advance 4000 s) ≠ "block".
Proof.
  intros s.
  assert (shown_while_pending s) as Hs.
  { apply shown_while_pending_run; [apply one_hide_initial|]. by left. }
  split_and!.
  - destruct Hs as [[-> Hd]|(tm&->&Hd&_)]; [done|]. by rewrite Hd.
  - intros tm Htm. destruct Hs as [[Hnone _]|(tm'&Hone&_&Hdue)].
    + rewrite Hnone in Htm. by apply elem_of_nil in Htm.
    + rewrite Hone in Htm. by apply list_elem_of_singleton in Htm as ->.
  - rewrite display_advance.
    destruct Hs as [[-> Hd]|(tm&->&Hd&Hdue)]; [done|].
    rewrite filter_cons, filter_nil, decide_True by lia. done.
Qed.

(** *** Timers of other code *)

Lemma own_timer_id_step (s : t) (e : event) :
  own_timer_id s → own_timer_id (step s e).
Proof.
  intros [Hids Hown]. destruct e as [|dt|delay].
  - assert (∀ tm, tm ∈ timers (_onStatsReset s) →
              (tm ∈ timers s ∧ timer_id tm < nextTimerId s)
              ∨ tm = mkTimer (nextTimerId s) (now s + 4000) HidePopup) as Hin.
    { intros tm. unfold _onStatsReset. simpl.
      destruct (closePopupTimeoutId s) as [id|]; [destruct (id =? 0)|]; simpl;
        rewrite elem_of_app, list_elem_of_singleton;
        (intros [Htm|Htm]; [left|by right]);
        try apply list_elem_of_filter in Htm as [_ Htm]; auto. }
    assert (nextTimerId (_onStatsReset s) = S (nextTimerId s)
            ∧ closePopupTimeoutId (_onStatsReset s) = Some (nextTimerId s))
      as [Hnext Hclose].
    { unfold _onStatsReset. simpl.
      by destruct (closePopupTimeoutId s) as [id|]; [destruct (id =? 0)|]. }
    simpl. split.
    + intros tm Htm. rewrite Hnext.
      destruct (Hin tm Htm) as [[_ ?]| ->]; simpl; lia.
    + intros id. rewrite Hclose, Hnext. intros [= <-]. split; [lia|].
      intros tm Htm Hid. destruct (Hin tm Htm) as [[_ ?]| ->]; [lia|done].
  - assert (timers (advance dt s)
            = filter (λ tm, ¬ due tm ≤ now s + dt) (timers s)
            ∧ nextTimerId (advance dt s) = nextTimerId s
            ∧ closePopupTimeoutId (advance dt s) = closePopupTimeoutId s)
      as (Ht&Hn&Hc).
    { unfold advance.
      destruct (foldl_fire_timers
                  (mk (now s + dt) (nextTimerId s)
                      (filter (λ tm, ¬ due tm ≤ now s + dt) (timers s))
                      (display s) (closePopupTimeoutId s))
                  (filter (λ tm, due tm ≤ now s + dt) (timers s)))
        as (->&_&->&->). done. }
    simpl. split.
    + intros tm. rewrite Ht, Hn. intros [_ Htm]%list_elem_of_filter. auto.
    + intros id. rewrite Hc, Hn, Ht. intros Hid.
      destruct (Hown id Hid) as [Hlt Hact]. split; [done|].
      intros tm [_ Htm]%list_elem_of_filter. auto.
  - unfold step, setTimeout, own_timer_id. cbn. split.
    + intros tm. rewrite elem_of_app, list_elem_of_singleton.
      intros [Htm| ->]; simpl; [specialize (Hids tm Htm)|]; lia.
    + intros id Hid. destruct (Hown id Hid) as [Hlt Hact]. split; [lia|].
      intros tm. rewrite elem_of_app, list_elem_of_singleton.
      intros [Htm| ->]; simpl; [auto|lia].
Qed.

Lemma own_timer_id_run (es : list event) (s : t) :
  own_timer_id s → own_timer_id (run s es).
Proof.
  revert s. induction es as [|e es IH]; intros s Hs; [done|].
  simpl. by apply IH, own_timer_id_step.
Qed.

(** X11: whatever has happened on the page, a reset cancels no timer of other
    code: the pending timers that do something else than hide the popup are
    the same after [_onStatsReset] as before, also when the id kept in
    [closePopupTimeoutId] belongs to a hide that has fired long ago. *)
Theorem reset_cancels_no_other_timer (es : list event) :
  let s := run initial es in
  other_timers (_onStatsReset s) = other_timers s.
Proof.
  intros s.
  assert (own_timer_id s) as [_ Hown].
  { apply own_timer_id_run. split; [by intros tm ?%elem_of_nil|done]. }
  unfold other_timers, _onStatsReset. simpl.
  destruct (closePopupTimeoutId s) as [id|] eqn:Hclose;
    [destruct (id =? 0)|]; simpl;
    rewrite list.filter_app, filter_cons_False, filter_nil, app_nil_r by done;
    try done.
  rewrite list_filter_filter. apply FiltersCacheFacts.filter_ext_elem.
  intros tm Htm. split; [by intros [? _]|]. intros Hother. split; [done|].
  intros Hid. destruct (Hown id eq_refl) as [_ Hact].
  specialize (Hact tm Htm Hid). congruence.
Qed.

End ResetPopupFacts.

(** ** The checkboxes of [Settings] *)

Module SettingsCheckboxFacts.
Import Js CheckboxUtils SettingsCheckbox CheckboxUtilsFacts.

(** X20: what a settings checkbox sends when the user changes it, once
    stored and rendered again, shows the checkbox as the user left it, with
    and without [negate]: the element has the [checked] attribute exactly
    when the user had checked it.  A setting that has no stored value is
    rendered checked exactly for the checkboxes with [negate]. *)
Theorem render_shows_what_was_sent (negate checked : bool) (element : node)
    (d d' : list Element) :
  render negate false element (VBool (sent_value negate checked)) d = Normal d' →
  checked_attribute d' element = (if checked then Some "checked" else None)
  ∧ render negate false element VUndefined d
    = updateCheckbox [element] (VBool negate) d.
Proof.
  intros Hd'. split; [|by destruct negate].
  assert (updateCheckbox [element] (VBool checked) d = Normal d') as Hupdate.
  { rewrite <-Hd'. unfold render, sent_value.
    destruct negate; [|done]. simpl. by rewrite negb_involutive. }
  destruct (updateCheckbox_marked (VBool checked) [element] d d' element)
    as [Hattr _]; [done|apply list_elem_of_here|done].
Qed.

Lemma render_shows_what_was_sent_witness :
  ∃ d', render true false 2 (VBool (sent_value true false)) scenario_page
        = Normal d'
        ∧ checked_attribute d' 2 = None.
Proof.
  destruct (render true false 2 (VBool (sent_value true false)) scenario_page)
    as [d'|e d'] eqn:Hd'; [|by vm_compute in Hd'].
  exists d'. split; [done|].
  by destruct (render_shows_what_was_sent true false 2 scenario_page d' Hd').
Defined.

End SettingsCheckboxFacts.

(** ** Debouncing *)

Module DebounceFacts.
Import Debounce.

Lemma omap_none {B C} (f : B → option C) (l : list B) :
  (∀ x, x ∈ l → f x = None) → omap f l = [].
Proof.
  induction l as [|x l IH]; intros Hl; [done|]. simpl.
  rewrite (Hl x) by apply list_elem_of_here. apply IH.
  intros y Hy. apply Hl. by apply list_elem_of_further.
Qed.

Lemma omap_nil_inv {B C} (f : B → option C) (l : list B) (x : B) :
  omap f l = [] → x ∈ l → f x = None.
Proof.
  intros Hl Hx. destruct (f x) as [y|] eqn:Hfx; [|done].
  assert (y ∈ omap f l) as Hy by (apply list_elem_of_omap; by exists x).
  rewrite Hl in Hy. by apply elem_of_nil in Hy.
Qed.

Lemma omap_cons {B C} (f : B → option C) (x : B) (l : list B) :
  omap f (x :: l) = match f x with Some y => y :: omap f l | None => omap f l end.
Proof. done. Qed.

(** Of a list with at most one element that [f] keeps, a filter keeps that
    element or its complement does. *)
Lemma omap_filter_split {B C} (f : B → option C) (P : B → Prop)
    `{∀ x, Decision (P x)} (l : list B) :
  length (omap f l) ≤ 1 →
  (omap f (filter P l) = omap f l ∧ omap f (filter (λ x, ¬ P x) l) = [])
  ∨ (omap f (filter P l) = [] ∧ omap f (filter (λ x, ¬ P x) l) = omap f l).
Proof.
  induction l as [|x l IH]; intros Hlen; [by left|].
  rewrite omap_cons in Hlen |- *. destruct (f x) as [y|] eqn:Hfx.
  - assert (omap f l = []) as Hnil.
    { destruct (omap f l); [done|]. simpl in Hlen. lia. }
    assert (∀ (Q : B → Prop) `{∀ x, Decision (Q x)}, omap f (filter Q l) = [])
      as Hfilter.
    { intros Q ?. apply omap_none. intros z [_ Hz]%list_elem_of_filter.
      by eapply omap_nil_inv. }
    rewrite Hnil. destruct (decide (P x)) as [HP|HP].
    + left. rewrite (filter_cons_True P) by done.
      rewrite (filter_cons_False (λ x, ¬ P x)) by tauto.
      by rewrite omap_cons, Hfx, !Hfilter.
    + right. rewrite (filter_cons_False P) by done.
      rewrite (filter_cons_True (λ x, ¬ P x)) by done.
      by rewrite omap_cons, Hfx, !Hfilter.
  - destruct (decide (P x)) as [HP|HP].
    + rewrite (filter_cons_True P) by done.
      rewrite (filter_cons_False (λ x, ¬ P x)) by tauto.
      rewrite omap_cons, Hfx. by apply IH.
    + rewrite (filter_cons_False P) by done.
      rewrite (filter_cons_True (λ x, ¬ P x)) by done.
      rewrite omap_cons, Hfx. by apply IH.
Qed.

Section facts.
Context {A : Type}.
Implicit Types (s : t A) (tm : timer A) (es : list (event A)) (a : A).

Lemma later_args_Some tm a : later_args tm = Some a ↔ callback_of tm = Later a.
Proof. unfold later_args. destruct (callback_of tm); split; congruence. Qed.

Lemma later_args_None tm : later_args tm = None ↔ callback_of tm = Foreign.
Proof. unfold later_args. destruct (callback_of tm); split; congruence. Qed.

(** The timers that fire: the calls of [func] they make, in order. *)
Lemma foldl_fire (l : list (timer A)) s :
  foldl fire s l
  = mk (now s) (nextTimerId s) (timers s)
       (if omap later_args l is [] then timeout s else None)
       (calls s ++ omap later_args l).
Proof.
  revert s. induction l as [|tm l IH]; intros s.
  { simpl. rewrite app_nil_r. by destruct s. }
  simpl. rewrite IH. unfold fire, later_args.
  destruct (callback_of tm) as [a|]; simpl; [|done].
  rewrite <-app_assoc. simpl. f_equal.
  by destruct (omap _ l).
Qed.

Lemma advance_eq (dt : nat) s :
  advance dt s
  = mk (now s + dt) (nextTimerId s)
       (filter (λ tm, ¬ due tm ≤ now s + dt) (timers s))
       (if omap later_args (filter (λ tm, due tm ≤ now s + dt) (timers s)) is []
        then timeout s else None)
       (calls s ++ omap later_args (filter (λ tm, due tm ≤ now s + dt) (timers s))).
Proof. unfold advance. by rewrite foldl_fire. Qed.

(** The two things a lapse of time can do to a state with at most one
    pending call: the call is made, or nothing that concerns [func]
    happens. *)
Lemma advance_cases (dt : nat) s :
  length (pending_args s) ≤ 1 →
  (pending_args (advance dt s) = []
   ∧ calls (advance dt s) = calls s ++ pending_args s
   ∧ omap later_args (filter (λ tm, due tm ≤ now s + dt) (timers s))
     = pending_args s)
  ∨ (pending_args (advance dt s) = pending_args s
     ∧ calls (advance dt s) = calls s
     ∧ timeout (advance dt s) = timeout s
     ∧ omap later_args (filter (λ tm, due tm ≤ now s + dt) (timers s)) = []).
Proof.
  intros Hlen. rewrite advance_eq. unfold pending_args in *. simpl.
  destruct (omap_filter_split later_args (λ tm, due tm ≤ now s + dt)
              (timers s) Hlen) as [[Hdue Hrest]|[Hdue Hrest]].
  - left. by rewrite Hdue, Hrest.
  - right. rewrite Hdue, Hrest. by rewrite app_nil_r.
Qed.

Lemma one_pending_advance (dt : nat) s :
  one_pending s → one_pending (advance dt s).
Proof.
  intros [Hid Hlen].
  destruct (advance_cases dt s Hlen) as [(Hp&_)|(Hp&_&Ht&_)].
  - split; [|rewrite Hp; simpl; lia]. intros tm a Htm Hcb.
    apply later_args_Some in Hcb.
    rewrite (omap_nil_inv later_args _ tm Hp Htm) in Hcb. done.
  - split; [|by rewrite Hp]. intros tm a Htm Hcb. rewrite Ht.
    rewrite advance_eq in Htm. simpl in Htm.
    apply list_elem_of_filter in Htm as [_ Htm]. by eapply Hid.
Qed.

(** A call of the debounced function replaces what was pending. *)
Lemma debounced_armed (wait : nat) a s :
  one_pending s →
  armed wait a (debounced wait a s)
  ∧ calls (debounced wait a s) = calls s
  ∧ now (debounced wait a s) = now s.
Proof.
  intros [Hid _].
  assert (omap later_args (timers (clearTimeout (timeout s) s)) = []) as Hcleared.
  { apply omap_none. intros tm Htm.
    destruct (later_args tm) as [a'|] eqn:Hcb; [|done].
    apply later_args_Some in Hcb. unfold clearTimeout in Htm.
    destruct (timeout s) as [id|] eqn:Ht.
    - simpl in Htm. apply list_elem_of_filter in Htm as [Hne Htm].
      specialize (Hid tm a' Htm Hcb). congruence.
    - specialize (Hid tm a' Htm Hcb). congruence. }
  assert (now (clearTimeout (timeout s) s) = now s
          ∧ nextTimerId (clearTimeout (timeout s) s) = nextTimerId s
          ∧ calls (clearTimeout (timeout s) s) = calls s) as (Hnow&Hnext&Hcalls).
  { unfold clearTimeout. by destruct (timeout s). }
  assert (pending_args (debounced wait a s) = [a]) as Hpending.
  { unfold pending_args, debounced, setTimeout. simpl.
    by rewrite omap_app, Hcleared. }
  assert (∀ tm a', tm ∈ timers (debounced wait a s) → callback_of tm = Later a' →
                   tm = mkTimer (nextTimerId s) (now s + wait) (Later a))
    as Hnew.
  { intros tm a' Htm Hcb. unfold debounced, setTimeout in Htm. simpl in Htm.
    apply elem_of_app in Htm as [Htm|Htm%list_elem_of_singleton].
    - apply later_args_Some in Hcb.
      by rewrite (omap_nil_inv later_args _ tm Hcleared Htm) in Hcb.
    - by rewrite Htm, Hnow, Hnext. }
  split_and!.
  - split_and!.
    + split; [|by rewrite Hpending].
      intros tm a' Htm Hcb. rewrite (Hnew tm a' Htm Hcb).
      unfold debounced, setTimeout. simpl. by rewrite Hnext.
    + done.
    + intros tm a' Htm Hcb. rewrite (Hnew tm a' Htm Hcb).
      unfold debounced, setTimeout. simpl. by rewrite Hnow.
  - unfold debounced, setTimeout. simpl. done.
  - unfold debounced, setTimeout. simpl. done.
Qed.

Lemma one_pending_step (wait : nat) s (e : event A) :
  one_pending s → one_pending (step wait s e).
Proof.
  intros Hs. destruct e as [a|dt|delay]; simpl.
  - by destruct (debounced_armed wait a s Hs) as [[? _] _].
  - by apply one_pending_advance.
  - destruct Hs as [Hid Hlen]. unfold one_pending, pending_args, setTimeout.
    simpl. split.
    + intros tm a [Htm|Htm%list_elem_of_singleton]%elem_of_app Hcb.
      * by eapply Hid.
      * by rewrite Htm in Hcb.
    + rewrite omap_app. simpl. by rewrite app_nil_r.
Qed.

Lemma run_snoc (wait : nat) s es (e : event A) :
  run wait s (es ++ [e]) = step wait (run wait s es) e.
Proof. unfold run. by rewrite foldl_app. Qed.

Lemma run_cons (wait : nat) s es (e : event A) :
  run wait s (e :: es) = run wait (step wait s e) es.
Proof. done. Qed.

Lemma one_pending_run (wait : nat) s es :
  one_pending s → one_pending (run wait s es).
Proof.
  intros Hs. induction es as [|e es IH] using rev_ind; [done|].
  rewrite run_snoc. by apply one_pending_step.
Qed.

Lemma one_pending_initial : one_pending (initial (A:=A)).
Proof. split; [by intros tm a ?%elem_of_nil|simpl; lia]. Qed.

(** X24: whatever happens, at most one call of [func] is pending, and its
    timer is the one whose id [timeout] holds. *)
Theorem debounce_one_pending_call (wait : nat) es :
  let s := run wait initial es in
  length (pending_args s) ≤ 1
  ∧ ∀ tm a, tm ∈ timers s → callback_of tm = Later a →
            timeout s = Some (timer_id tm).
Proof.
  destruct (one_pending_run wait initial es one_pending_initial) as [Hid Hlen].
  by split.
Qed.

Lemma call_args_snoc es (e : event A) :
  call_args (es ++ [e])
  = call_args es ++ match e with Call a => [a] | _ => [] end.
Proof. unfold call_args. rewrite omap_app. by destruct e. Qed.

(** The calls of [func] made and pending, in the order of the calls of the
    debounced function they come from. *)
Lemma calls_sublist_run (wait : nat) es :
  (calls (run wait initial es) ++ pending_args (run wait initial es))
    `sublist_of` call_args es.
Proof.
  induction es as [|e es IH] using rev_ind; [done|].
  pose proof (one_pending_run wait initial es one_pending_initial) as Hs.
  rewrite run_snoc, call_args_snoc.
  set (s := run wait initial es) in *.
  destruct e as [a|dt|delay]; cbn [step].
  - destruct (debounced_armed wait a s Hs) as ((_&->&_)&->&_).
    apply sublist_app; [|done]. etrans; [|exact IH].
    by apply sublist_inserts_r.
  - rewrite app_nil_r. destruct Hs as [_ Hlen].
    destruct (advance_cases dt s Hlen) as [(->&->&_)|(->&->&_)];
      [by rewrite app_nil_r|done].
  - rewrite app_nil_r. unfold pending_args, setTimeout in *. cbn [snd timers calls].
    rewrite omap_app. rewrite (omap_cons later_args). cbn [later_args callback_of].
    by rewrite app_nil_r.
Qed.

(** X25: [func] is called with arguments that the debounced function was
    called with, in the same order and each at most once: what reaches
    [func] is a selection of the calls of the debounced function. *)
Theorem debounce_calls_selected (wait : nat) es :
  calls (run wait initial es) `sublist_of` call_args es
  ∧ length (calls (run wait initial es)) ≤ length (call_args es).
Proof.
  assert (calls (run wait initial es) `sublist_of` call_args es) as Hsub.
  { etrans; [|apply (calls_sublist_run wait es)]. by apply sublist_inserts_r. }
  split; [done|]. by apply sublist_length.
Qed.

Lemma armed_advance_short (wait dt : nat) a s :
  armed wait a s → dt < wait →
  one_pending (advance dt s) ∧ calls (advance dt s) = calls s.
Proof.
  intros (Hs&Hp&Hdue) Hdt. split; [by apply one_pending_advance|].
  rewrite advance_eq. simpl.
  rewrite omap_none; [by rewrite app_nil_r|].
  intros tm [Hle Htm]%list_elem_of_filter.
  destruct (later_args tm) as [a'|] eqn:Hcb; [|done].
  apply later_args_Some in Hcb. specialize (Hdue tm a' Htm Hcb). lia.
Qed.

Lemma armed_advance_wait (wait : nat) a s :
  armed wait a s →
  calls (advance wait s) = calls s ++ [a]
  ∧ pending_args (advance wait s) = [].
Proof.
  intros ([Hid Hlen]&Hp&Hdue).
  destruct (advance_cases wait s Hlen) as [(Hp'&Hcalls&_)|(Hp'&_&_&Hnone)].
  - by rewrite Hcalls, Hp.
  - assert (a ∈ pending_args s) as Ha by (rewrite Hp; apply list_elem_of_here).
    apply list_elem_of_omap in Ha as (tm&Htm&Hcb).
    assert (later_args tm = None) as Hcb'.
    { eapply omap_nil_inv; [exact Hnone|]. apply list_elem_of_filter.
      split; [|done]. apply later_args_Some in Hcb.
      rewrite (Hdue tm a Htm Hcb). lia. }
    congruence.
Qed.

Lemma armed_burst (wait : nat) a (rest : list (nat * A)) s :
  armed wait a s →
  Forall (λ p, p.1 < wait) rest →
  armed wait (last_args a rest)
    (run wait s (rest ≫= λ p, [Elapse p.1; Call p.2]))
  ∧ calls (run wait s (rest ≫= λ p, [Elapse p.1; Call p.2])) = calls s.
Proof.
  revert a s. induction rest as [|[dt a'] rest IH]; intros a s Hs Hrest; [done|].
  apply list.Forall_cons in Hrest as [Hdt Hrest]. simpl in Hdt.
  rewrite bind_cons. cbn [fst snd app]. rewrite !run_cons. cbn [step last_args snd].
  destruct (armed_advance_short wait dt a s Hs Hdt) as [Hone Hcalls].
  destruct (debounced_armed wait a' (advance dt s) Hone) as (Harmed&Hcalls'&_).
  destruct (IH a' _ Harmed Hrest) as [Harmed' Hcalls''].
  split; [done|]. by rewrite Hcalls'', Hcalls', Hcalls.
Qed.

(** X26: when the debounced function is called several times, each time
    less than [wait] milliseconds after the time before, and then [wait]
    milliseconds pass, [func] is called once, with the arguments of the last
    of these calls. *)
Theorem debounce_burst_calls_last (wait : nat) es (first : A)
    (rest : list (nat * A)) :
  Forall (λ p, p.1 < wait) rest →
  let s := run wait initial es in
  let s' := run wait s (burst first rest ++ [Elapse wait]) in
  calls s' = calls s ++ [last_args first rest]
  ∧ pending_args s' = [].
Proof.
  intros Hrest s s'. subst s'.
  pose proof (one_pending_run wait initial es one_pending_initial) as Hs.
  fold s in Hs. unfold burst. rewrite run_snoc, run_cons. cbn [step].
  destruct (debounced_armed wait first s Hs) as (Harmed&Hcalls&_).
  destruct (armed_burst wait first rest _ Harmed Hrest) as [Harmed' Hcalls'].
  destruct (armed_advance_wait wait _ _ Harmed') as [Hfinal Hpending].
  by rewrite Hfinal, Hpending, Hcalls', Hcalls.
Qed.

Lemma timeout_own_timer_id_step (wait : nat) s (e : event A) :
  own_timer_id s → own_timer_id (step wait s e).
Proof.
  intros [Hbound Hown]. destruct e as [a|dt|delay]; cbn [step].
  - assert (∀ tm, tm ∈ timers (clearTimeout (timeout s) s) → tm ∈ timers s)
      as Hcleared.
    { intros tm. unfold clearTimeout. destruct (timeout s); [|done].
      simpl. by intros [_ ?]%list_elem_of_filter. }
    assert (nextTimerId (clearTimeout (timeout s) s) = nextTimerId s) as Hnext.
    { unfold clearTimeout. by destruct (timeout s). }
    unfold own_timer_id, debounced, setTimeout. cbn [fst snd timers nextTimerId timeout].
    rewrite Hnext. split.
    + intros tm [Htm|Htm%list_elem_of_singleton]%elem_of_app.
      * apply Hcleared, Hbound in Htm. lia.
      * rewrite Htm. simpl. lia.
    + intros id [= <-]. split; [lia|].
      intros tm [Htm|Htm%list_elem_of_singleton]%elem_of_app Hid.
      * apply Hcleared, Hbound in Htm. lia.
      * by rewrite Htm.
  - rewrite advance_eq. unfold own_timer_id. cbn [timers nextTimerId timeout].
    split.
    + intros tm [_ Htm]%list_elem_of_filter. by apply Hbound.
    + intros id Hid.
      assert (timeout s = Some id) as Hid' by (by destruct (omap _ _)).
      destruct (Hown id Hid') as [Hlt Hcb]. split; [done|].
      intros tm [_ Htm]%list_elem_of_filter. by apply Hcb.
  - unfold own_timer_id, setTimeout. cbn [fst snd timers nextTimerId timeout].
    split.
    + intros tm [Htm|Htm%list_elem_of_singleton]%elem_of_app.
      * apply Hbound in Htm. lia.
      * rewrite Htm. simpl. lia.
    + intros id Hid. destruct (Hown id Hid) as [Hlt Hcb]. split; [lia|].
      intros tm [Htm|Htm%list_elem_of_singleton]%elem_of_app Htmid.
      * by apply Hcb.
      * rewrite Htm in Htmid. simpl in Htmid. lia.
Qed.

Lemma timeout_own_timer_id_run (wait : nat) es :
  own_timer_id (run wait (initial (A:=A)) es).
Proof.
  induction es as [|e es IH] using rev_ind.
  - split; [by intros tm ?%elem_of_nil|done].
  - rewrite run_snoc. by apply timeout_own_timer_id_step.
Qed.

(** X27: a call of the debounced function cancels no timer of other code,
    whatever has happened before. *)
Theorem debounce_cancels_no_other_timer (wait : nat) es a :
  let s := run wait initial es in
  foreign_timers (debounced wait a s) = foreign_timers s.
Proof.
  intros s. destruct (timeout_own_timer_id_run wait es) as [_ Hown]. fold s in Hown.
  unfold foreign_timers, debounced, setTimeout. cbn [fst snd timers].
  rewrite list.filter_app, filter_cons_False, filter_nil, app_nil_r by done.
  unfold clearTimeout. destruct (timeout s) as [id|] eqn:Hid; [|done].
  cbn [timers]. rewrite list_filter_filter.
  apply FiltersCacheFacts.filter_ext_elem.
  intros tm Htm. split; [by intros [? _]|]. intros Hforeign. split; [done|].
  intros Htmid. destruct (Hown id eq_refl) as [_ Hcb].
  apply later_args_None in Hforeign. by apply (Hcb tm Htm Htmid).
Qed.

End facts.

Lemma debounce_burst_calls_last_witness :
  calls (run 300 (run 300 initial [Call 1; Elapse 1000])
           (burst 2 [(100, 3); (299, 4)] ++ [Elapse 300]))
  = [1; 4].
Proof.
  by destruct (debounce_burst_calls_last 300 [Call 1; Elapse 1000] 2
                 [(100, 3); (299, 4)]) as [-> _];
    [repeat constructor; simpl; lia|].
Defined.

End DebounceFacts.

(** ** The steps of the popup for custom filters *)

Module CustomFilterPopupFacts.
Import Js TopMenu CustomFilterPopup TopMenuFacts.

Lemma querySelector_id sel (d : list Element) (n : nat) :
  querySelector sel d = Some n →
  ∃ name e, sel = String number_sign name ∧ d !! n = Some e ∧ id e = Some name.
Proof.
  unfold querySelector. destruct sel as [|c name]; [done|].
  destruct (Ascii.eqb_spec c number_sign) as [->|]; [|done].
  destruct (list_find _ d) as [[i e]|] eqn:Hfind; [|done].
  intros [= <-]. apply list_find_Some in Hfind as (He&Hid&_).
  by exists name, e.
Qed.

(** Two id selectors that select the same element are the same. *)
Lemma querySelector_inj sel1 sel2 (d : list Element) (n : nat) :
  querySelector sel1 d = Some n → querySelector sel2 d = Some n → sel1 = sel2.
Proof.
  intros (name1&e1&->&He1&Hid1)%querySelector_id
         (name2&e2&->&He2&Hid2)%querySelector_id.
  congruence.
Qed.

Lemma is_active_remove sel (n : nat) (d : list Element) :
  is_active sel (alter (classList_remove POPUP_ACTIVE_CLASS) n d)
  = is_active sel d && negb (bool_decide (querySelector sel d = Some n)).
Proof.
  unfold is_active.
  rewrite querySelector_alter by apply classList_remove_keeps.
  destruct (querySelector sel d) as [m|]; [|done]. simpl.
  rewrite list_lookup_alter. case_decide as Hnm.
  - subst m. rewrite bool_decide_true by done. rewrite andb_false_r.
    destruct (d !! n) as [e|]; [|done]. simpl.
    apply bool_decide_false. rewrite list_elem_of_filter. by intros [? _].
  - rewrite bool_decide_false by congruence. by rewrite andb_true_r.
Qed.

Lemma is_active_add sel (n : nat) (d : list Element) :
  is_active sel (alter (classList_add POPUP_ACTIVE_CLASS) n d)
  = is_active sel d || bool_decide (querySelector sel d = Some n).
Proof.
  unfold is_active.
  rewrite querySelector_alter by apply classList_add_keeps.
  destruct (querySelector sel d) as [m|] eqn:Hsel; [|done]. simpl.
  rewrite list_lookup_alter. case_decide as Hnm.
  - subst m. rewrite (bool_decide_true (Some n = Some n)) by done.
    rewrite orb_true_r.
    destruct (querySelector_Some _ _ _ Hsel) as [e ->]. simpl.
    apply bool_decide_true. case_bool_decide; [done|].
    apply elem_of_app. right. apply list_elem_of_here.
  - rewrite (bool_decide_false (Some m = Some n)) by congruence.
    by rewrite orb_false_r.
Qed.

(** [clearActiveStep] needs the four steps on the page. *)
Lemma clearActiveStep_spec (d : list Element) :
  match querySelector STEP_1 d, querySelector STEP_2 d,
        querySelector STEP_3 d, querySelector STEP_4 d with
  | Some n1, Some n2, Some n3, Some n4 =>
      clearActiveStep d
      = Normal (alter (classList_remove POPUP_ACTIVE_CLASS) n4
                  (alter (classList_remove POPUP_ACTIVE_CLASS) n3
                     (alter (classList_remove POPUP_ACTIVE_CLASS) n2
                        (alter (classList_remove POPUP_ACTIVE_CLASS) n1 d))))
  | _, _, _, _ => completes (clearActiveStep d) = false
  end.
Proof.
  unfold clearActiveStep, on_selected.
  destruct (querySelector STEP_1 d) as [n1|] eqn:H1; [|done].
  destruct (querySelector STEP_2 d) as [n2|] eqn:H2;
    cbn [bind]; rewrite querySelector_alter, H2
      by apply classList_remove_keeps; [|done].
  destruct (querySelector STEP_3 d) as [n3|] eqn:H3;
    cbn [bind]; rewrite !querySelector_alter, H3
      by apply classList_remove_keeps; [|done].
  destruct (querySelector STEP_4 d) as [n4|] eqn:H4;
    cbn [bind]; rewrite !querySelector_alter, H4
      by apply classList_remove_keeps; done.
Qed.

Lemma bind_completes {S} (c : completion S) (k : S → completion S) :
  completes (c >>> k) = completes c && completes (k (final c)).
Proof. by destruct c. Qed.

(** A step that has been rendered: the page it leaves. *)
Lemma renderStep_Normal (k : step) (d d' : list Element) :
  renderStep k d = Normal d' →
  ∃ n1 n2 n3 n4 nk,
    querySelector STEP_1 d = Some n1 ∧ querySelector STEP_2 d = Some n2
    ∧ querySelector STEP_3 d = Some n3 ∧ querySelector STEP_4 d = Some n4
    ∧ querySelector (selector k) d = Some nk
    ∧ d' = alter (classList_add POPUP_ACTIVE_CLASS) nk
             (alter (classList_remove POPUP_ACTIVE_CLASS) n4
                (alter (classList_remove POPUP_ACTIVE_CLASS) n3
                   (alter (classList_remove POPUP_ACTIVE_CLASS) n2
                      (alter (classList_remove POPUP_ACTIVE_CLASS) n1 d)))).
Proof.
  intros Hd'. pose proof (clearActiveStep_spec d) as Hclear.
  destruct (querySelector STEP_1 d) as [n1|] eqn:H1,
           (querySelector STEP_2 d) as [n2|] eqn:H2,
           (querySelector STEP_3 d) as [n3|] eqn:H3,
           (querySelector STEP_4 d) as [n4|] eqn:H4;
    try (destruct k; unfold renderStep, renderStepOne, renderStepTwo,
           renderStepThree in Hd';
         by destruct (clearActiveStep d)).
  exists n1, n2, n3, n4.
  destruct k; unfold renderStep, renderStepOne, renderStepTwo, renderStepThree in Hd';
    rewrite Hclear in Hd'; cbn [bind] in Hd'; unfold on_selected, focus in Hd';
    rewrite !querySelector_alter in Hd' by apply classList_remove_keeps;
    cbn [selector].
  - rewrite H1 in Hd'. cbn [bind] in Hd'.
    destruct (querySelector URL_INPUT _); [|done]. injection Hd' as <-.
    by exists n1.
  - rewrite H2 in Hd'. injection Hd' as <-. by exists n2.
  - rewrite H3 in Hd'. injection Hd' as <-. by exists n3.
Qed.

Lemma is_active_rendered sel (n n1 n2 n3 n4 nk : nat) (d : list Element) :
  querySelector sel d = Some n →
  n ∈ [n1; n2; n3; n4] →
  is_active sel
    (alter (classList_add POPUP_ACTIVE_CLASS) nk
       (alter (classList_remove POPUP_ACTIVE_CLASS) n4
          (alter (classList_remove POPUP_ACTIVE_CLASS) n3
             (alter (classList_remove POPUP_ACTIVE_CLASS) n2
                (alter (classList_remove POPUP_ACTIVE_CLASS) n1 d)))))
  = bool_decide (n = nk).
Proof.
  intros Hsel Hn. rewrite is_active_add, !is_active_remove.
  rewrite !querySelector_alter by apply classList_remove_keeps. rewrite Hsel.
  assert (is_active sel d && negb (bool_decide (Some n = Some n1))
          && negb (bool_decide (Some n = Some n2))
          && negb (bool_decide (Some n = Some n3))
          && negb (bool_decide (Some n = Some n4)) = false) as ->.
  { repeat (apply elem_of_cons in Hn as [<-|Hn];
            [rewrite (bool_decide_true (Some n = Some n)) by done;
             cbn [negb]; by rewrite ?andb_false_r|]).
    by apply elem_of_nil in Hn. }
  cbn [orb]. apply bool_decide_ext. split; congruence.
Qed.

(** X28: after one of the steps of the popup has been rendered, that step
    is the only one of the four with the class of the active step, whichever
    of them had it before. *)
Theorem renderStep_shows_one_step (k : step) (d d' : list Element) :
  renderStep k d = Normal d' →
  active_steps d' = [selector k].
Proof.
  intros (n1&n2&n3&n4&nk&H1&H2&H3&H4&Hk&->)%renderStep_Normal.
  assert (∀ sel n, querySelector sel d = Some n → sel ≠ selector k →
                   bool_decide (n = nk) = false) as Hother.
  { intros sel n Hsel Hne. apply bool_decide_false. intros ->.
    by apply Hne, (querySelector_inj _ _ d nk). }
  unfold active_steps, steps.
  rewrite !filter_cons, filter_nil.
  rewrite (is_active_rendered STEP_1 n1 n1 n2 n3 n4 nk d H1)
    by (repeat constructor).
  rewrite (is_active_rendered STEP_2 n2 n1 n2 n3 n4 nk d H2)
    by (repeat constructor).
  rewrite (is_active_rendered STEP_3 n3 n1 n2 n3 n4 nk d H3)
    by (repeat constructor).
  rewrite (is_active_rendered STEP_4 n4 n1 n2 n3 n4 nk d H4)
    by (repeat constructor).
  rewrite (Hother STEP_4 n4 H4) by (by destruct k).
  destruct k; cbn [selector] in *.
  - rewrite H1 in Hk. injection Hk as <-.
    rewrite (Hother STEP_2 n2 H2), (Hother STEP_3 n3 H3) by done.
    by rewrite bool_decide_true by done.
  - rewrite H2 in Hk. injection Hk as <-.
    rewrite (Hother STEP_1 n1 H1), (Hother STEP_3 n3 H3) by done.
    by rewrite bool_decide_true by done.
  - rewrite H3 in Hk. injection Hk as <-.
    rewrite (Hother STEP_1 n1 H1), (Hother STEP_2 n2 H2) by done.
    by rewrite bool_decide_true by done.
Qed.

Lemma renderStep_shows_one_step_witness :
  active_steps scenario_popup = [STEP_1; STEP_3]
  ∧ ∃ d', renderStepTwo scenario_popup = Normal d' ∧ active_steps d' = [STEP_2].
Proof.
  split; [by vm_compute|].
  destruct (renderStepTwo scenario_popup) as [d'|e d'] eqn:Hd';
    [|by vm_compute in Hd'].
  exists d'. split; [done|].
  exact (renderStep_shows_one_step StepTwo scenario_popup d' Hd').
Defined.

Lemma renderStep_completes_iff (k : step) (d : list Element) :
  completes (renderStep k d) = true
  ↔ (∀ sel, sel ∈ steps → is_Some (querySelector sel d))
    ∧ (k = StepOne → is_Some (querySelector URL_INPUT d)).
Proof.
  pose proof (clearActiveStep_spec d) as Hclear.
  assert (STEP_1 ∈ steps ∧ STEP_2 ∈ steps ∧ STEP_3 ∈ steps ∧ STEP_4 ∈ steps)
    as (Hin1&Hin2&Hin3&Hin4) by (unfold steps; split_and!; repeat constructor).
  destruct (querySelector STEP_1 d) as [n1|] eqn:H1,
           (querySelector STEP_2 d) as [n2|] eqn:H2,
           (querySelector STEP_3 d) as [n3|] eqn:H3,
           (querySelector STEP_4 d) as [n4|] eqn:H4.
  2-16: split;
    [intros Hc; destruct k;
       unfold renderStep, renderStepOne, renderStepTwo, renderStepThree in Hc;
       rewrite !bind_completes, Hclear in Hc; done
    |intros [Hall _];
       destruct (Hall STEP_1 Hin1) as [? ?], (Hall STEP_2 Hin2) as [? ?],
                (Hall STEP_3 Hin3) as [? ?], (Hall STEP_4 Hin4) as [? ?];
       congruence].
  assert (∀ sel, sel ∈ steps → is_Some (querySelector sel d)) as Hall.
  { intros sel Hsel. unfold steps in Hsel.
    repeat (apply elem_of_cons in Hsel as [->|Hsel]; [by eexists|]).
    by apply elem_of_nil in Hsel. }
  destruct k; unfold renderStep, renderStepOne, renderStepTwo, renderStepThree;
    rewrite Hclear; cbn [bind]; unfold on_selected, focus;
    rewrite !querySelector_alter by apply classList_remove_keeps.
  - rewrite H1. cbn [bind].
    rewrite querySelector_alter by apply classList_add_keeps.
    rewrite !querySelector_alter by apply classList_remove_keeps.
    destruct (querySelector URL_INPUT d) as [u|]; cbn [completes].
    + split; [|done]. intros _. split; [done|]. by eexists.
    + split; [done|]. intros [_ Hurl]. by destruct (Hurl eq_refl).
  - rewrite H2. cbn [completes]. split; [|done]. intros _. by split.
  - rewrite H3. cbn [completes]. split; [|done]. intros _. by split.
Qed.

(** The exceptions of the steps are those of a missing element. *)
Lemma on_selected_Throw sel f (d d' : list Element) (e : error) :
  on_selected sel f d = Throw e d' → e = TypeError.
Proof. unfold on_selected. destruct (querySelector sel d); [done|]. by intros [= <- _]. Qed.

Lemma focus_Throw sel (d d' : list Element) (e : error) :
  focus sel d = Throw e d' → e = TypeError.
Proof. unfold focus. destruct (querySelector sel d); [done|]. by intros [= <- _]. Qed.

Lemma bind_Throw {S} (c : completion S) (k : S → completion S) (e : error) (a : S) :
  (∀ a', c = Throw e a' → e = TypeError) →
  (∀ a0 a', k a0 = Throw e a' → e = TypeError) →
  c >>> k = Throw e a → e = TypeError.
Proof. intros Hc Hk. destruct c as [a0|e0 a0]; simpl; [apply Hk|]. intros [= -> _]. by eapply Hc. Qed.

Lemma clearActiveStep_Throw (d d' : list Element) (e : error) :
  clearActiveStep d = Throw e d' → e = TypeError.
Proof.
  unfold clearActiveStep.
  repeat (apply bind_Throw; [intros ?|intros ??; apply on_selected_Throw]).
  apply on_selected_Throw.
Qed.

(** X29: a step is rendered without an exception exactly when the four
    steps are on the page and, for the first step, the input for the
    address is as well; the exception is a [TypeError] otherwise. *)
Theorem renderStep_completes (k : step) (d : list Element) :
  (completes (renderStep k d) = true
   ↔ (∀ sel, sel ∈ steps → is_Some (querySelector sel d))
     ∧ (k = StepOne → is_Some (querySelector URL_INPUT d)))
  ∧ ∀ e d', renderStep k d = Throw e d' → e = TypeError.
Proof.
  split; [apply renderStep_completes_iff|]. intros e d'.
  destruct k; unfold renderStep, renderStepOne, renderStepTwo, renderStepThree.
  - apply bind_Throw; [|intros ??; apply focus_Throw].
    intros ?. apply bind_Throw; [|intros ??; apply on_selected_Throw].
    intros ?. apply clearActiveStep_Throw.
  - apply bind_Throw; [|intros ??; apply on_selected_Throw].
    intros ?. apply clearActiveStep_Throw.
  - apply bind_Throw; [|intros ??; apply on_selected_Throw].
    intros ?. apply clearActiveStep_Throw.
Qed.

Lemma renderStep_completes_witness :
  completes (renderStepOne scenario_popup) = true.
Proof.
  apply (proj1 (renderStep_completes StepOne scenario_popup)). split.
  - intros sel Hsel. unfold steps in Hsel.
    repeat (apply elem_of_cons in Hsel as [->|Hsel]; [by eexists|]).
    by apply elem_of_nil in Hsel.
  - intros _. by eexists.
Defined.

End CustomFilterPopupFacts.
